(** * c3nft: the generation engine of the NFT studio

    A shallow embedding of the generation logic of [c3nft.py]
    ([_weighted_choice], [_collect_traits], [_merge_mapping_sets],
    [_is_excluded_by_pairs] and [run_generation]) and of the list editors
    of its Config tab, together with the properties of the engine that the
    specification states and further properties of the code.

    Conventions of the embedding.
    - Python [str] is [string]; a key is the f-string [f"{layer}:{trait}"].
    - Python dicts keyed by strings ([selected], [forced_selection],
      [trait_rarities], [layer_rarities], the trait catalog) are
      [gmap string _]; the run's DNA [set] is a [gset string].
    - Python [int] is [Z]; edition numbers and the counters of the stats,
      which only count up, are [nat].  A finite [float] is the rational it
      denotes ([Q]); every float operation rounds its exact result to
      binary64, to nearest with ties to even, and the conversion of an
      [int] beyond the range of the floats raises [OverflowError].
    - The process-wide [random] module is a stream of raw draws together
      with the number of draws consumed so far.
    - Exceptions are explicit: the layer walk records that it was left by
      an [OverflowError], the body of the per-edition [try] returns how it
      was left, and the run returns either the stats or the fact that an
      exception left [run_generation].  What can raise before the edition
      loop (the config keys, the size, the output directories, the shape
      of the stored JSON, the listing of the layers) is one oracle.
    - The layers directory is the map from the names it lists to what they
      are: a directory with the set of names it lists, or something else. *)

From Stdlib Require Import Ascii QArith Qround Qabs Qpower Lqa SpecFloat.
From stdpp Require Import gmap strings list fin_maps sorting.

(** ** Strings and keys *)

(** [f"{layer}:{trait}"]. *)
Definition make_key (layer trait : string) : string :=
  layer +:+ ":" +:+ trait.

(** [la, ta = a.split(":", 1)]: the text before and after the first colon;
    [None] stands for the [ValueError] of unpacking a one-element list. *)
Fixpoint split_colon (a : string) : option (string * string) :=
  match a with
  | EmptyString => None
  | String c rest =>
      if Ascii.eqb c ":"%char then Some (EmptyString, rest)
      else match split_colon rest with
           | Some (l, t) => Some (String c l, t)
           | None => None
           end
  end.

(** ** Binary64 *)

(** What a function call gives: its value, or the [OverflowError] of an
    [int] too large to convert to [float]. *)
Inductive Outcome (A : Type) :=
  | Returned (a : A)
  | OverflowError.

Arguments Returned {A} a.
Arguments OverflowError {A}.

Module Float.

(** A float: finite, or an infinity.  The sign of a zero and the NaNs play
    no part in the comparisons of the engine. *)
Inductive F64 :=
  | Finite (q : Q)
  | Inf (negative : bool).

(** The exponent of a positive rational:
    [2 ^ ilog2 x <= x < 2 ^ (ilog2 x + 1)]. *)
Definition ilog2 (x : Q) : Z :=
  let e := (Z.log2 (Qnum x) - Z.log2 (Zpos (Qden x)))%Z in
  if Qle_bool (2 ^ e) x then e else (e - 1)%Z.

(** The nearest integer, a tie going to the even one. *)
Definition rne (x : Q) : Z :=
  let f := Qfloor x in
  match (x - inject_Z f ?= 1 # 2)%Q with
  | Lt => f
  | Gt => (f + 1)%Z
  | Eq => if Z.even f then f else (f + 1)%Z
  end.

(** Rounding to binary64: 53 significant bits, the smallest quantum
    [2 ^ -1074], and an infinity from [2 ^ 1024] on. *)
Definition round (x : Q) : F64 :=
  if Qeq_bool x 0 then Finite 0
  else
    let quantum := Z.max (ilog2 (Qabs x) - 52) (-1074) in
    let y := (inject_Z (rne (x / 2 ^ quantum)) * 2 ^ quantum)%Q in
    if Qle_bool (2 ^ 1024) (Qabs y) then Inf (negb (Qle_bool 0 x))
    else Finite (Qred y).

(** [float(n)] for an [int], as the mixed operations [int / float],
    [int * float] and [float + int] convert their [int] operand. *)
Definition of_int (n : Z) : Outcome Q :=
  match round (inject_Z n) with
  | Finite q => Returned q
  | Inf _ => OverflowError
  end.

(** [x <= y]. *)
Definition le (x y : F64) : bool :=
  match x, y with
  | Inf true, _ => true
  | _, Inf false => true
  | Finite a, Finite b => Qle_bool a b
  | _, _ => false
  end.

(** [x + y] for a finite [y]. *)
Definition add (x : F64) (y : Q) : F64 :=
  match x with
  | Finite a => round (a + y)
  | Inf negative => Inf negative
  end.

(** The floats of the IEEE 754 specification of the Standard Library, to
    compare [round] with. *)
Definition of_spec (f : spec_float) : option F64 :=
  match f with
  | S754_zero _ => Some (Finite 0)
  | S754_finite s m e =>
      Some (Finite (Qred ((if s then -1 else 1) * inject_Z (Zpos m) * 2 ^ e)))
  | S754_infinity s => Some (Inf s)
  | S754_nan => None
  end.

Definition spec_int (n : Z) : spec_float := binary_normalize 53 1024 n 0 false.

End Float.

(** ** The random source *)

Module Random.

(** The generator: the stream of raw draws and how many were consumed. *)
Definition source := nat → N.

(** [random.random()]: a 53-bit integer scaled into [0,1). *)
Definition random (draws : source) (pos : nat) : Q :=
  Z.of_N (draws pos mod 2 ^ 53) # (2 ^ 53).

(** [random.uniform(0, total)], that is [0 + (total - 0) * random()], for
    an [int] total: the product of [float(total)] and the draw, rounded. *)
Definition uniform (draws : source) (pos : nat) (total : Z)
  : Outcome Float.F64 :=
  match Float.of_int total with
  | Returned t => Returned (Float.round (t * random draws pos))
  | OverflowError => OverflowError
  end.

(** [random.choice(options)]: the element at a raw index below [len]. *)
Definition choice {A} (draws : source) (pos : nat) (options : list A)
  : option A :=
  options !! (N.to_nat (draws pos) mod length options)%nat.

End Random.

(** ** [_weighted_choice] *)

(** The weights are Python [int]s, as [run_generation] passes them (line
    1110); float weights, which the docstring also allows, are not
    modelled. *)

(** [sum(w for w in weights if w > 0)]. *)
Definition positive_total (weights : list Z) : Z :=
  fold_left (λ acc w, if (w <=? 0)%Z then acc else (acc + w)%Z) weights 0%Z.

(** The [for opt, w in zip(options, weights)] loop with its float
    accumulator [upto]; [Returned None] when the loop ends without
    returning. *)
Fixpoint walk_options (r upto : Float.F64) (pairs : list (string * Z))
  : Outcome (option string) :=
  match pairs with
  | [] => Returned None
  | (opt, w) :: rest =>
      if (w <=? 0)%Z then walk_options r upto rest
      else
        match Float.of_int w with
        | OverflowError => OverflowError
        | Returned w' =>
            if Float.le r (Float.add upto w') then Returned (Some opt)
            else walk_options r (Float.add upto w') rest
        end
  end.

(** [_weighted_choice(options, weights)], threading the position of the
    random source.  A draw is consumed only where the code draws. *)
Definition _weighted_choice (draws : Random.source) (pos : nat)
    (options : list string) (weights : list Z)
  : Outcome (option string) * nat :=
  let total := positive_total weights in
  if (total <=? 0)%Z then
    match options with
    | [] => (Returned None, pos)
    | _ => (Returned (Random.choice draws pos options), S pos)
    end
  else
    match Random.uniform draws pos total with
    | OverflowError => (OverflowError, S pos)
    | Returned r =>
        match walk_options r (Float.Finite 0) (combine options weights) with
        | Returned (Some opt) => (Returned (Some opt), S pos)
        | Returned None => (Returned (last options), S pos)
        | OverflowError => (OverflowError, S pos)
        end
    end.

(** ** Log messages

    The messages handed to [_safe_log].  [_safe_log] swallows whatever the
    callback raises, so logging never changes the control flow; the log is
    the list of messages in the order they were emitted. *)
Inductive LogMsg :=
  | WarnMappingsUnreadable
  | WarnMappingSetNotFound (name : string)
  | WarnInclusionNotFound (layer trait : string)
  | MsgDuplicate (edition_number : nat)
  | MsgGenerated (edition_number : nat)
  | MsgError (edition_number : nat).

Global Instance LogMsg_eq_dec : EqDecision LogMsg.
Proof. solve_decision. Defined.

(** ** [_merge_mapping_sets] *)

(** A rarity value as stored in [saved_mappings.json], seen through
    [int(v)]: either the conversion yields an integer or it raises. *)
Inductive raw_percent :=
  | IntLike (z : Z)
  | NotIntLike.

(** An entry of a stored pair list, seen through
    [isinstance(p, list) and len(p) == 2]. *)
Inductive raw_pair :=
  | PairList (items : list string)
  | NotAList.

(** A stored mapping set: the JSON object with the four keys the studio
    writes (a non-empty object, hence truthy). *)
Record MappingSet := {
  ms_rarities : list (string * raw_percent);
  ms_layer_rarities : list (string * raw_percent);
  ms_include_pairs : list raw_pair;
  ms_exclude_pairs : list raw_pair;
}.

(** What reading [configs/saved_mappings.json] gives. *)
Inductive SavedFile :=
  | FileMissing
  | FileUnreadable
  | FileLoaded (saved : gmap string MappingSet).

Record MergedRules := {
  trait_rarities : gmap string Z;
  layer_rarities : gmap string Z;
  include_pairs : list (string * string);
  exclude_pairs : list (string * string);
}.

Definition empty_rules : MergedRules :=
  {| trait_rarities := ∅; layer_rarities := ∅;
     include_pairs := []; exclude_pairs := [] |}.

(** [for k, v in d.items(): try: acc[k] = int(v) except Exception: pass]. *)
Definition overlay_rarities (entries : list (string * raw_percent))
    (acc : gmap string Z) : gmap string Z :=
  fold_left (λ acc kv,
      match kv.2 with
      | IntLike z => <[kv.1 := z]> acc
      | NotIntLike => acc
      end) entries acc.

(** [for p in ps: if isinstance(p, list) and len(p) == 2:
       acc.append([p[0], p[1]])]. *)
Definition append_pairs (ps : list raw_pair) (acc : list (string * string))
  : list (string * string) :=
  fold_left (λ acc p,
      match p with
      | PairList [a; b] => acc ++ [(a, b)]
      | _ => acc
      end) ps acc.

(** One iteration of [for name in mapping_sets]. *)
Definition merge_one (saved : gmap string MappingSet)
    (acc : MergedRules * list LogMsg) (name : string)
  : MergedRules * list LogMsg :=
  match saved !! name with
  | None => (acc.1, acc.2 ++ [WarnMappingSetNotFound name])
  | Some m =>
      ({| trait_rarities := overlay_rarities (ms_rarities m) (trait_rarities acc.1);
          layer_rarities :=
            overlay_rarities (ms_layer_rarities m) (layer_rarities acc.1);
          include_pairs := append_pairs (ms_include_pairs m) (include_pairs acc.1);
          exclude_pairs := append_pairs (ms_exclude_pairs m) (exclude_pairs acc.1) |},
       acc.2)
  end.

(** The lookup [saved] and the warning of the read. *)
Definition load_saved (file : SavedFile) : gmap string MappingSet * list LogMsg :=
  match file with
  | FileMissing => (∅, [])
  | FileUnreadable => (∅, [WarnMappingsUnreadable])
  | FileLoaded saved => (saved, [])
  end.

Definition _merge_mapping_sets (mapping_sets : list string) (file : SavedFile)
  : MergedRules * list LogMsg :=
  let '(saved, warnings) := load_saved file in
  fold_left (merge_one saved) mapping_sets (empty_rules, warnings).

(** ** [_is_excluded_by_pairs] *)

Definition _is_excluded_by_pairs (candidate_key : string)
    (selected_keys : list string) (exclude_pairs : list (string * string))
  : bool :=
  match exclude_pairs with
  | [] => false
  | _ =>
      existsb (λ sk,
        existsb (λ ab,
          (bool_decide (candidate_key = ab.1) && bool_decide (sk = ab.2))
          || (bool_decide (candidate_key = ab.2) && bool_decide (sk = ab.1)))
          exclude_pairs)
        selected_keys
  end.

(** ** The selection engine: step 1 of the per-edition loop body *)

(** The per-edition variables [selected], [selected_keys] and
    [forced_selection], together with the position of the random source,
    the warnings logged so far, and whether an [OverflowError] has left
    the layer walk. *)
Record EditionState := {
  selected : gmap string string;
  selected_keys : list string;
  forced_selection : gmap string string;
  rng : nat;
  warnings : list LogMsg;
  raised : bool;
}.

Definition fresh_edition (pos : nat) : EditionState :=
  {| selected := ∅; selected_keys := []; forced_selection := ∅;
     rng := pos; warnings := []; raised := false |}.

(** [layer_p / 100.0]: [float(layer_p)] divided by 100 and rounded. *)
Definition layer_probability (layer_p : Z) : Outcome Float.F64 :=
  match Float.of_int layer_p with
  | Returned p => Returned (Float.round (p / 100))
  | OverflowError => OverflowError
  end.

(** [random.random() > (layer_p / 100.0)]. *)
Definition layer_skipped (layer_p : Z) (r : Q) : Outcome bool :=
  match layer_probability layer_p with
  | Returned p => Returned (negb (Float.le (Float.Finite r) p))
  | OverflowError => OverflowError
  end.

(** The scan for a required trait: the target trait of the first pair whose
    source key is selected and whose target layer is [layer]. *)
Fixpoint required_trait (pairs : list (string * string))
    (selected_keys : list string) (layer : string) : option string :=
  match pairs with
  | [] => None
  | (a, b) :: rest =>
      match split_colon a, split_colon b with
      | Some (la, ta), Some (lb, tb) =>
          if bool_decide (make_key la ta ∈ selected_keys)
             && bool_decide (lb = layer)
          then Some tb
          else required_trait rest selected_keys layer
      | _, _ => required_trait rest selected_keys layer
      end
  end.

(** The scan after a selection: [if key == a: ... if lb not in selected:
    forced_selection[lb] = tb]. *)
Definition force_inclusions (key : string) (selected : gmap string string)
    (pairs : list (string * string)) (forced : gmap string string)
  : gmap string string :=
  fold_left (λ forced ab,
      if bool_decide (key = ab.1) then
        match split_colon ab.2 with
        | Some (lb, tb) =>
            match selected !! lb with
            | None => <[lb := tb]> forced
            | Some _ => forced
            end
        | None => forced
        end
      else forced) pairs forced.

(** [int(trait_rarities.get(key, 100))], floored at 0. *)
Definition trait_weight (trait_rarities : gmap string Z) (key : string) : Z :=
  let weight := default 100%Z (trait_rarities !! key) in
  if (weight <? 0)%Z then 0%Z else weight.

(** The loop that fills [viable_opts] and [viable_wts], as one list of
    (option, weight). *)
Definition viable_options (rules : MergedRules) (layer : string)
    (options : list string) (selected_keys : list string)
  : list (string * Z) :=
  omap (λ t,
      let key := make_key layer t in
      if _is_excluded_by_pairs key selected_keys (exclude_pairs rules)
      then None
      else Some (t, trait_weight (trait_rarities rules) key)) options.

(** The weights of all the traits of a layer, and the rules under which no
    conversion to a float overflows and the weights of a layer are
    accumulated without rounding. *)
Definition layer_weights (rules : MergedRules) (layer : string)
    (options : list string) : list Z :=
  (λ t, trait_weight (trait_rarities rules) (make_key layer t)) <$> options.

Definition within_floats (all_traits : gmap string (list string))
    (rules : MergedRules) : Prop :=
  (∀ l p, layer_rarities rules !! l = Some p →
          Float.of_int p ≠ OverflowError)
  ∧ (∀ l options, all_traits !! l = Some options →
                  (positive_total (layer_weights rules l options) < 2 ^ 53)%Z).

Section Selection.

Variable draws : Random.source.
Variable all_traits : gmap string (list string).
Variable rules : MergedRules.

(** "Register selection" and "Handle inclusion chains". *)
Definition register (layer chosen_trait : string) (s : EditionState)
  : EditionState :=
  let selected' := <[layer := chosen_trait]> (selected s) in
  let key := make_key layer chosen_trait in
  {| selected := selected';
     selected_keys := selected_keys s ++ [key];
     forced_selection :=
       force_inclusions key selected' (include_pairs rules)
         (forced_selection s);
     rng := rng s;
     warnings := warnings s;
     raised := raised s |}.

Definition with_rng (pos : nat) (s : EditionState) : EditionState :=
  {| selected := selected s; selected_keys := selected_keys s;
     forced_selection := forced_selection s; rng := pos;
     warnings := warnings s; raised := raised s |}.

Definition warn (msg : LogMsg) (s : EditionState) : EditionState :=
  {| selected := selected s; selected_keys := selected_keys s;
     forced_selection := forced_selection s; rng := rng s;
     warnings := warnings s ++ [msg]; raised := raised s |}.

(** An [OverflowError] leaves the walk. *)
Definition raise (s : EditionState) : EditionState :=
  {| selected := selected s; selected_keys := selected_keys s;
     forced_selection := forced_selection s; rng := rng s;
     warnings := warnings s; raised := true |}.

(** The trait of a present layer that is not forced: required by an
    inclusion, or drawn among the viable options. *)
Definition choose_trait (layer : string) (options : list string)
    (s : EditionState) : EditionState :=
  match required_trait (include_pairs rules) (selected_keys s) layer with
  | Some required =>
      if bool_decide (required ∈ options) then register layer required s
      else warn (WarnInclusionNotFound layer required) s
  | None =>
      let viable := viable_options rules layer options (selected_keys s) in
      match viable with
      | [] => s
      | _ =>
          let '(chosen, pos) :=
            _weighted_choice draws (rng s) (viable.*1) (viable.*2) in
          match chosen with
          | Returned (Some t) => register layer t (with_rng pos s)
          | Returned None => with_rng pos s
          | OverflowError => raise (with_rng pos s)
          end
      end
  end.

(** The body of [for layer in final_layer_order]; nothing more is walked
    once an exception has left the loop. *)
Definition select_layer (s : EditionState) (layer : string) : EditionState :=
  if raised s then s
  else
    match default [] (all_traits !! layer) with
    | [] => s
    | options =>
        let layer_p := default 100%Z (layer_rarities rules !! layer) in
        let must_include :=
          bool_decide (is_Some (forced_selection s !! layer)) in
        (* [not must_include and random.random() > ...]: the draw and the
           division are made only when the layer is not forced, the draw
           first *)
        let '(skip, s) :=
          if must_include then (Returned false, s)
          else (layer_skipped layer_p (Random.random draws (rng s)),
                with_rng (S (rng s)) s) in
        match skip with
        | OverflowError => raise s
        | Returned true => s
        | Returned false =>
            match forced_selection s !! layer with
            | Some forced_trait => register layer forced_trait s
            | None => choose_trait layer options s
            end
        end
    end.

Definition select_edition (final_layer_order : list string) (pos : nat)
  : EditionState :=
  fold_left select_layer final_layer_order (fresh_edition pos).

End Selection.

(** ** The DNA and the attribute list *)

(** ["|".join(f"{layer}:{selected.get(layer, '__none__')}" ...)]. *)
Definition dna_of (final_layer_order : list string)
    (selected : gmap string string) : string :=
  String.concat "|"
    (map (λ layer, make_key layer (default "__none__" (selected !! layer)))
       final_layer_order).

(** [if trait and trait != "__none__"]. *)
Definition concrete (trait : string) : bool :=
  negb (bool_decide (trait = "")) && negb (bool_decide (trait = "__none__")).

Definition attributes_of (final_layer_order : list string)
    (selected : gmap string string) : list (string * string) :=
  omap (λ layer,
      match selected !! layer with
      | Some trait => if concrete trait then Some (layer, trait) else None
      | None => None
      end) final_layer_order.

(** ** [run_generation] *)

Record Config := {
  layer_order : list string;
  excluded_layers : list string;
  mapping_sets : list string;
  collection_name : option string;
  collection_description : option string;
}.

(** The JSON record written to [metadata/<edition>.json]; its [name] is
    [md_collection] followed by the edition number and its [image] is the
    file name of the edition. *)
Record Metadata := {
  md_collection : string;
  md_description : string;
  md_attributes : list (string * string);
  md_edition : nat;
}.

(** Where the image and file operations of one edition raise, if they do:
    creating the canvas, compositing (listing a layer directory, resizing,
    alpha-compositing), saving the image, writing the metadata.  A trait
    image that is missing or cannot be opened only logs a warning and is
    left out of the picture; these warnings are not recorded. *)
Inductive Fault :=
  | NoFault
  | CanvasFault
  | CompositeFault
  | SaveImageFault
  | SaveMetadataFault.

Global Instance Fault_eq_dec : EqDecision Fault.
Proof. solve_decision. Defined.

(** Whether the statements before the edition loop, which no [try]
    guards, complete: reading [config["layers_dir"]] and
    [config["output_dir"]], the [int] of the size, [os.makedirs] of the
    output directories, walking the stored JSON in [_merge_mapping_sets]
    (which raises on JSON of another shape than the one of [SavedFile])
    and listing the layers in [_collect_traits]. *)
Inductive Setup := SetupCompletes | SetupRaises.

(** What surrounds a run: the random source, the stored mapping sets, the
    catalog returned by [_collect_traits], whether the set-up completes,
    the faults of the file system per edition number, and the progress
    callback.  The callback is given as the predicate telling whether its
    k-th invocation (counted from 0) raises; [None] is
    [progress_callback=None]. *)
Record World := {
  draws : Random.source;
  saved_file : SavedFile;
  all_traits : gmap string (list string);
  setup : Setup;
  faults : nat → Fault;
  progress_callback : option (nat → bool);
}.

Record Stats := { success : nat; duplicates : nat; errors : nat }.

(** The variables that live across editions, and what the run has written
    and emitted. *)
Record RunState := {
  generated_dna : gset string;
  stats : Stats;
  images : list (nat * gmap string string);
  metadata : list Metadata;
  log : list LogMsg;
  progress : list (nat * nat);
  rng_pos : nat;
}.

Definition count_success (st : Stats) : Stats :=
  {| success := S (success st); duplicates := duplicates st; errors := errors st |}.
Definition count_duplicate (st : Stats) : Stats :=
  {| success := success st; duplicates := S (duplicates st); errors := errors st |}.
Definition count_error (st : Stats) : Stats :=
  {| success := success st; duplicates := duplicates st; errors := S (errors st) |}.

Definition set_stats (f : Stats → Stats) (st : RunState) : RunState :=
  {| generated_dna := generated_dna st; stats := f (stats st);
     images := images st; metadata := metadata st; log := log st;
     progress := progress st; rng_pos := rng_pos st |}.
Definition add_dna (dna : string) (st : RunState) : RunState :=
  {| generated_dna := {[dna]} ∪ generated_dna st; stats := stats st;
     images := images st; metadata := metadata st; log := log st;
     progress := progress st; rng_pos := rng_pos st |}.
Definition save_image (n : nat) (sel : gmap string string) (st : RunState)
  : RunState :=
  {| generated_dna := generated_dna st; stats := stats st;
     images := images st ++ [(n, sel)]; metadata := metadata st;
     log := log st; progress := progress st; rng_pos := rng_pos st |}.
Definition save_metadata (md : Metadata) (st : RunState) : RunState :=
  {| generated_dna := generated_dna st; stats := stats st;
     images := images st; metadata := metadata st ++ [md]; log := log st;
     progress := progress st; rng_pos := rng_pos st |}.
Definition emit (msgs : list LogMsg) (st : RunState) : RunState :=
  {| generated_dna := generated_dna st; stats := stats st;
     images := images st; metadata := metadata st; log := log st ++ msgs;
     progress := progress st; rng_pos := rng_pos st |}.
Definition notify (n total : nat) (st : RunState) : RunState :=
  {| generated_dna := generated_dna st; stats := stats st;
     images := images st; metadata := metadata st; log := log st;
     progress := progress st ++ [(n, total)]; rng_pos := rng_pos st |}.
Definition set_rng (pos : nat) (st : RunState) : RunState :=
  {| generated_dna := generated_dna st; stats := stats st;
     images := images st; metadata := metadata st; log := log st;
     progress := progress st; rng_pos := pos |}.

(** How the body of the [try] is left: at its end, by its [continue], or by
    an exception. *)
Inductive TryExit := Completed | Continued | Raised.

(** How one iteration of the edition loop is left: to the next iteration,
    or by an exception that leaves [run_generation]. *)
Inductive Flow :=
  | Next (st : RunState)
  | Propagated (st : RunState).

Definition flow_state (f : Flow) : RunState :=
  match f with Next st | Propagated st => st end.

(** [sorted(all_traits.keys())]. *)
Definition sorted_layers (all_traits : gmap string (list string)) : list string :=
  merge_sort String.le (elements (dom all_traits)).

Section Run.

Variable world : World.
Variable config : Config.
Variable edition_size : nat.

Definition rules : MergedRules :=
  (_merge_mapping_sets (mapping_sets config) (saved_file world)).1.

Definition final_layer_order : list string :=
  let layer_order :=
    match layer_order config with
    | [] => sorted_layers (all_traits world)
    | given => given
    end in
  filter (λ L, is_Some (all_traits world !! L) ∧ L ∉ excluded_layers config)
    layer_order.

(** [if progress_callback: progress_callback(edition_number, edition_size)];
    the boolean tells whether the call raised. *)
Definition call_progress (n : nat) (st : RunState) : bool * RunState :=
  match progress_callback world with
  | None => (false, st)
  | Some raises => (raises (length (progress st)), notify n edition_size st)
  end.

(** The selection of the edition that starts in state [st]. *)
Definition edition_selection (st : RunState) : EditionState :=
  select_edition (draws world) (all_traits world) rules final_layer_order
    (rng_pos st).

Definition edition_dna (st : RunState) : string :=
  dna_of final_layer_order (selected (edition_selection st)).

Definition metadata_of (n : nat) (sel : gmap string string) : Metadata :=
  {| md_collection := default "Collection" (collection_name config);
     md_description := default "" (collection_description config);
     md_attributes := attributes_of final_layer_order sel;
     md_edition := n |}.

(** The body of the [try] for edition [n]. *)
Definition try_body (n : nat) (st : RunState) : TryExit * RunState :=
  if decide (faults world n = CanvasFault) then (Raised, st)
  else
    (* 1) selection *)
    let ed := edition_selection st in
    let st := emit (warnings ed) (set_rng (rng ed) st) in
    if raised ed then (Raised, st)
    else
    (* 2) DNA and duplicate check *)
    let dna := dna_of final_layer_order (selected ed) in
    if decide (dna ∈ generated_dna st) then
      let st := emit [MsgDuplicate n] (set_stats count_duplicate st) in
      let '(thrown, st) := call_progress n st in
      if thrown then (Raised, st) else (Continued, st)
    else
      (* 3) composite *)
      if decide (faults world n = CompositeFault) then (Raised, st)
      else
        (* 4) save *)
        let st := add_dna dna st in
        if decide (faults world n = SaveImageFault) then (Raised, st)
        else
          let st := save_image n (selected ed) st in
          if decide (faults world n = SaveMetadataFault) then (Raised, st)
          else
            let st := save_metadata (metadata_of n (selected ed)) st in
            (Completed, emit [MsgGenerated n] (set_stats count_success st)).

(** One iteration of [for edition_number in range(1, edition_size + 1)]:
    the [try], its [except Exception], and the progress call after it,
    which the [continue] of the duplicate branch skips. *)
Definition run_edition (n : nat) (st : RunState) : Flow :=
  let '(exit, st) := try_body n st in
  match exit with
  | Continued => Next st
  | Completed | Raised =>
      let st :=
        match exit with
        | Raised => emit [MsgError n] (set_stats count_error st)
        | _ => st
        end in
      let '(thrown, st) := call_progress n st in
      if thrown then Propagated st else Next st
  end.

Fixpoint run_editions (numbers : list nat) (st : RunState) : Flow :=
  match numbers with
  | [] => Next st
  | n :: rest =>
      match run_edition n st with
      | Next st => run_editions rest st
      | Propagated st => Propagated st
      end
  end.

Definition initial_state : RunState :=
  {| generated_dna := ∅;
     stats := {| success := 0; duplicates := 0; errors := 0 |};
     images := []; metadata := [];
     log := (_merge_mapping_sets (mapping_sets config) (saved_file world)).2;
     progress := []; rng_pos := 0 |}.

(** The edition loop, entered when the set-up has completed: [Next st]
    when it ends and [run_generation] returns [stats st]. *)
Definition run : Flow := run_editions (seq 1 edition_size) initial_state.

(** [run_generation(config, edition_size, ...)]: the returned stats, or
    [None] when an exception leaves the function, from the set-up or from
    the progress callback. *)
Definition run_generation : option Stats :=
  match setup world with
  | SetupRaises => None
  | SetupCompletes =>
      match run with
      | Next st => Some (stats st)
      | Propagated _ => None
      end
  end.

End Run.

(** ** [_collect_traits] *)

(** An entry of [layers_dir]: a directory with the names it lists, or
    anything else.  Listing a directory is taken not to raise. *)
Inductive Entry :=
  | NotDir
  | SubDir (names : gset string).

(** [str.lower()] on a file name.  A name is its UTF-8 bytes; only the
    letters A to Z change, which is all that a test against an ASCII suffix
    can see. *)
Definition lower_char (c : ascii) : ascii :=
  let n := nat_of_ascii c in
  if (65 <=? n)%nat && (n <=? 90)%nat then ascii_of_nat (n + 32) else c.

Fixpoint lower (s : string) : string :=
  match s with
  | EmptyString => EmptyString
  | String c rest => String (lower_char c) (lower rest)
  end.

(** [s.endswith(suffix)]. *)
Fixpoint endswith (s suffix : string) : bool :=
  String.eqb s suffix
  || match s with
     | EmptyString => false
     | String _ rest => endswith rest suffix
     end.

(** [p[:p.rfind(".")]], or [None] when [p] has no dot. *)
Fixpoint before_last_dot (p : string) : option string :=
  match p with
  | EmptyString => None
  | String c rest =>
      match before_last_dot rest with
      | Some root => Some (String c root)
      | None => if Ascii.eqb c "."%char then Some EmptyString else None
      end
  end.

Fixpoint only_dots (s : string) : bool :=
  match s with
  | EmptyString => true
  | String c rest => Ascii.eqb c "."%char && only_dots rest
  end.

(** [os.path.splitext(f)[0]] for a name without separators: the text
    before the last dot, unless only dots precede it. *)
Definition splitext_root (f : string) : string :=
  match before_last_dot f with
  | Some root => if only_dots root then f else root
  | None => f
  end.

(** [sorted(os.listdir(...))] for a directory that lists [names]. *)
Definition sorted_names (names : gset string) : list string :=
  merge_sort String.le (elements names).

(** The inner loop: the stems of the [.png] names, in sorted order. *)
Definition png_traits (names : gset string) : list string :=
  fold_left (λ traits f,
      if endswith (lower f) ".png" then traits ++ [splitext_root f]
      else traits) (sorted_names names) [].

(** [_collect_traits(layers_dir)]; [None] is a path that is not a
    directory. *)
Definition _collect_traits (layers_dir : option (gmap string Entry))
  : gmap string (list string) :=
  match layers_dir with
  | None => ∅
  | Some entries =>
      fold_left (λ out layer,
          match entries !! layer with
          | Some (SubDir names) =>
              match png_traits names with
              | [] => out
              | traits => <[layer := traits]> out
              end
          | _ => out
          end) (sorted_names (dom entries)) ∅
  end.

(** ** The list editors of the Config tab

    A [QListWidget] is the list of the texts of its items; [addItem]
    appends, [takeItem(r)] removes the item of row [r] and
    [insertItem(r, it)] puts it before the item of row [r]. *)

(** [cfg_add_layers_to_order]: each selected text is appended unless the
    list already shows it. *)
Definition cfg_add_layers_to_order (selected_items layer_order : list string)
  : list string :=
  fold_left (λ existing text,
      if bool_decide (text ∈ existing) then existing else existing ++ [text])
    selected_items layer_order.

(** [cfg_exclude_layers]: the same loop on the excluded list. *)
Definition cfg_exclude_layers (selected_items excluded_layers : list string)
  : list string :=
  fold_left (λ existing text,
      if bool_decide (text ∈ existing) then existing else existing ++ [text])
    selected_items excluded_layers.

(** [it = takeItem(r); insertItem(to, it)]. *)
Definition move_item (r to : nat) (items : list string) : list string :=
  match items !! r with
  | Some it => let rest := delete r items in take to rest ++ it :: drop to rest
  | None => items
  end.

(** [cfg_move_layer_up]: the selected rows in ascending order, each moved
    one place up unless it is the first. *)
Definition cfg_move_layer_up (rows : list nat) (layer_order : list string)
  : list string :=
  fold_left (λ items r,
      if (r <=? 0)%nat then items else move_item r (r - 1) items)
    (merge_sort le rows) layer_order.

(** [cfg_move_layer_down]: the selected rows in descending order, each
    moved one place down unless it is the last. *)
Definition cfg_move_layer_down (rows : list nat) (layer_order : list string)
  : list string :=
  fold_left (λ items r,
      if (length items - 1 <=? r)%nat then items
      else move_item r (r + 1) items)
    (reverse (merge_sort le rows)) layer_order.

(** The [layer_order] that [cfg_save_config] stores: the list of the
    editor, or all the directories of [layers_dir] in sorted order when
    that list is empty. *)
Definition saved_layer_order (entries : gmap string Entry)
    (layer_order : list string) : list string :=
  match layer_order with
  | [] =>
      fold_left (λ order layer,
          match entries !! layer with
          | Some (SubDir _) => order ++ [layer]
          | _ => order
          end) (sorted_names (dom entries)) []
  | _ => layer_order
  end.

(** * The vocabulary of the properties *)

(** ** Weighted choice *)

(** The weight accumulated when the walk has passed position [i]. *)
Definition cumulative (weights : list Z) (i : nat) : Z :=
  positive_total (take (S i) weights).

(** ** Rule merging *)

(** The stored sets that the names of [mapping_sets] find, in list order. *)
Definition sets_in_order (saved : gmap string MappingSet)
    (names : list string) : list MappingSet :=
  omap (λ name, saved !! name) names.

(** The names of [mapping_sets] that find no stored set, in list order. *)
Definition absent_names (saved : gmap string MappingSet)
    (names : list string) : list string :=
  filter (λ name, saved !! name = None) names.

(** The integers that the entries of one rarity table write to key [k]. *)
Definition writes_to (k : string) (entries : list (string * raw_percent))
  : list Z :=
  omap (λ kv,
      match kv.2 with
      | IntLike z => if decide (kv.1 = k) then Some z else None
      | NotIntLike => None
      end) entries.

(** Last writer wins: the last integer written to [k] over all the sets. *)
Definition last_writer (k : string)
    (table : MappingSet → list (string * raw_percent))
    (sets : list MappingSet) : option Z :=
  last (sets ≫= (λ m, writes_to k (table m))).

(** The entries of a stored pair list that are two-element lists. *)
Definition two_element_pairs (ps : list raw_pair) : list (string * string) :=
  omap (λ p, match p with PairList [a; b] => Some (a, b) | _ => None end) ps.

(** ** Inclusion and exclusion *)

(** The target traits that the pairs with source [key] give to layer [lb],
    in list order. *)
Definition targets_for (key lb : string) (pairs : list (string * string))
  : list string :=
  omap (λ ab,
      if bool_decide (key = ab.1) then
        match split_colon ab.2 with
        | Some (l, t) => if decide (l = lb) then Some t else None
        | None => None
        end
      else None) pairs.

(** Key [k] is the target of an inclusion pair whose source key was
    selected earlier. *)
Definition inclusion_driven (rules : MergedRules) (k : string)
    (earlier : list string) : Prop :=
  ∃ a, (a, k) ∈ include_pairs rules ∧ a ∈ earlier.

(** No exclusion pair names [k] together with a key selected earlier. *)
Definition compatible (rules : MergedRules) (k : string)
    (earlier : list string) : Prop :=
  ∀ sk, sk ∈ earlier →
    ((k, sk) ∉ exclude_pairs rules) ∧ ((sk, k) ∉ exclude_pairs rules).

(** Every key of the list is the target of an inclusion or compatible with
    the keys before it. *)
Definition justified (rules : MergedRules) (keys : list string) : Prop :=
  ∀ earlier k later, keys = earlier ++ k :: later →
    inclusion_driven rules k earlier ∨ compatible rules k earlier.

(** What the layer walk maintains: every selected key is justified, a
    forced trait comes from an inclusion pair whose source key is selected,
    [selected_keys] holds the key of every entry of [selected], and the
    target layer of an inclusion pair whose source key is selected is
    selected or forced. *)
Record selection_inv (rules : MergedRules) (s : EditionState) : Prop := {
  inv_keys : justified rules (selected_keys s);
  inv_forced : ∀ l t, forced_selection s !! l = Some t →
                 inclusion_driven rules (make_key l t) (selected_keys s);
  inv_selected : ∀ l t, selected s !! l = Some t →
                   make_key l t ∈ selected_keys s;
  inv_chain : ∀ a b lb tb,
      (a, b) ∈ include_pairs rules → a ∈ selected_keys s →
      split_colon b = Some (lb, tb) →
      is_Some (selected s !! lb) ∨ is_Some (forced_selection s !! lb);
}.

(** The layer [rare] is neither selected nor forced. *)
Definition untouched (rare : string) (s : EditionState) : Prop :=
  selected s !! rare = None ∧ forced_selection s !! rare = None.

(** The rules with one layer rarity and nothing else. *)
Definition only_layer_rarity (layer : string) (p : Z) : MergedRules :=
  {| trait_rarities := ∅; layer_rarities := {[ layer := p ]};
     include_pairs := []; exclude_pairs := [] |}.

(** ** The run *)

(** The selection engine logs nothing but unsatisfiable inclusions. *)
Definition inclusion_warning (msg : LogMsg) : Prop :=
  ∃ layer trait, msg = WarnInclusionNotFound layer trait.

(** The DNA of a written image. *)
Definition image_dna (world : World) (config : Config)
    (im : nat * gmap string string) : string :=
  dna_of (final_layer_order world config) im.2.

(** [success + duplicates + errors]. *)
Definition total (st : Stats) : nat := success st + duplicates st + errors st.

(** What holds before the iteration of edition number [next]. *)
Record run_inv (world : World) (config : Config) (next : nat)
    (st : RunState) : Prop := {
  ri_nodup : NoDup (image_dna world config <$> images st);
  ri_dna : ∀ im, im ∈ images st → image_dna world config im ∈ generated_dna st;
  ri_images : ∀ im, im ∈ images st → im.1 < next;
  ri_metadata : ∀ md, md ∈ metadata st →
                  md_edition md < next ∧ md_edition md ∈ (images st).*1;
  ri_duplicates : ∀ n, MsgDuplicate n ∈ log st →
                    n < next ∧ n ∉ (images st).*1;
  ri_success : success (stats st) = length (metadata st);
}.

(** The editions whose image and metadata were both written. *)
Definition accepted (st : RunState) : list (nat * gmap string string) :=
  filter (λ im, im.1 ∈ md_edition <$> metadata st) (images st).

(** ** Worlds of the examples *)

(** A world with one layer of one trait, so that every edition has the
    same DNA. *)
Definition single_trait_world (progress : option (nat → bool)) : World :=
  {| draws := λ _, 0%N; saved_file := FileMissing;
     all_traits := {[ "Hat" := ["Red"] ]};
     setup := SetupCompletes; faults := λ _, NoFault;
     progress_callback := progress |}.

Definition plain_config : Config :=
  {| layer_order := []; excluded_layers := []; mapping_sets := [];
     collection_name := None; collection_description := None |}.

(** A world whose first image save fails. *)
Definition failing_first_save : World :=
  {| draws := λ _, 0%N; saved_file := FileMissing;
     all_traits := {[ "Hat" := ["Red"] ]};
     setup := SetupCompletes;
     faults := λ n, if decide (n = 1) then SaveImageFault else NoFault;
     progress_callback := None |}.

(** A world whose mapping set gives the only layer the rarity 0, and whose
    random source returns 0.0. *)
Definition rarity_zero_world : World :=
  {| draws := λ _, 0%N;
     saved_file :=
       FileLoaded
         {[ "rare" :=
              {| ms_rarities := [];
                 ms_layer_rarities := [("Hat", IntLike 0)];
                 ms_include_pairs := []; ms_exclude_pairs := [] |} ]};
     all_traits := {[ "Hat" := ["Red"] ]};
     setup := SetupCompletes; faults := λ _, NoFault;
     progress_callback := None |}.

Definition rarity_zero_config : Config :=
  {| layer_order := ["Hat"]; excluded_layers := [];
     mapping_sets := ["rare"];
     collection_name := None; collection_description := None |}.

(** A world whose mapping set lets [A:Red] force [B:Blue] and forbids
    [B:Blue] together with [C:Green]; the rules can be met together, for
    instance by [C:Yellow], [A:Red], [B:Blue]. *)
Definition forced_into_exclusion : World :=
  {| draws := λ _, 0%N;
     saved_file :=
       FileLoaded
         {[ "rules" :=
              {| ms_rarities := []; ms_layer_rarities := [];
                 ms_include_pairs := [PairList ["A:Red"; "B:Blue"]];
                 ms_exclude_pairs := [PairList ["C:Green"; "B:Blue"]] |} ]};
     all_traits :=
       {[ "C" := ["Green"; "Yellow"]; "A" := ["Red"];
          "B" := ["Blue"; "Pink"] ]};
     setup := SetupCompletes; faults := λ _, NoFault;
     progress_callback := None |}.

Definition forced_into_exclusion_config : Config :=
  {| layer_order := ["C"; "A"; "B"]; excluded_layers := [];
     mapping_sets := ["rules"];
     collection_name := None; collection_description := None |}.

(** * Further vocabulary *)

(** ** Outcome messages *)

Definition is_generated (msg : LogMsg) : bool :=
  match msg with MsgGenerated _ => true | _ => false end.

Definition is_duplicate (msg : LogMsg) : bool :=
  match msg with MsgDuplicate _ => true | _ => false end.

Definition is_error (msg : LogMsg) : bool :=
  match msg with MsgError _ => true | _ => false end.

(** The stats that a log accounts for: one success per "generated"
    message, one duplicate per "duplicate" message, one error per "error"
    message. *)
Definition outcome_counts (log : list LogMsg) : Stats :=
  {| success := length (filter (λ msg, is_generated msg) log);
     duplicates := length (filter (λ msg, is_duplicate msg) log);
     errors := length (filter (λ msg, is_error msg) log) |}.

(** ** The separator of the DNA *)

(** The string contains the character that joins the parts of a DNA. *)
Fixpoint has_bar (s : string) : bool :=
  match s with
  | EmptyString => false
  | String c rest => Ascii.eqb c "|"%char || has_bar rest
  end.

(** ** Trait rarities *)

(** The trait of layer [l], if selected, has a positive floored rarity or
    is the target of an inclusion pair. *)
Definition earned (rules : MergedRules) (l : string) (s : EditionState)
  : Prop :=
  ∀ t, selected s !! l = Some t →
    (0 < trait_weight (trait_rarities rules) (make_key l t))%Z
    ∨ ∃ a, (a, make_key l t) ∈ include_pairs rules.

(** ** The layers directory *)

Definition is_subdir (entries : gmap string Entry) (layer : string) : bool :=
  match entries !! layer with Some (SubDir _) => true | _ => false end.

(** The config with another [layer_order]. *)
Definition with_layer_order (order : list string) (config : Config) : Config :=
  {| layer_order := order; excluded_layers := excluded_layers config;
     mapping_sets := mapping_sets config;
     collection_name := collection_name config;
     collection_description := collection_description config |}.

(** A layers directory with two layers, a directory without images and a
    plain file. *)
Definition studio_layers : gmap string Entry :=
  {[ "Hat" := SubDir {[ "Red.PNG"; ".png"; "notes.txt" ]};
     "Eyes" := SubDir {[ "Open.png" ]};
     "Drafts" := SubDir ∅;
     "README.md" := NotDir ]}.

Definition studio_world : World :=
  {| draws := λ _, 0%N; saved_file := FileMissing;
     all_traits := _collect_traits (Some studio_layers);
     setup := SetupCompletes; faults := λ _, NoFault;
     progress_callback := None |}.

(** Rules in which [A:Red] forces the trait [B:Pink] of rarity 0. *)
Definition forcing_rules : MergedRules :=
  {| trait_rarities := {[ "B:Pink" := 0%Z ]}; layer_rarities := ∅;
     include_pairs := [("A:Red", "B:Pink")]; exclude_pairs := [] |}.

Definition forcing_catalog : gmap string (list string) :=
  {[ "A" := ["Red"]; "B" := ["Blue"; "Pink"] ]}.

(** * Properties *)

(** ** Keys *)

Lemma split_colon_join (a l t : string) :
  split_colon a = Some (l, t) → make_key l t = a.
Proof.
  revert l t. induction a as [|c rest IH]; intros l t; simpl; [done|].
  destruct (Ascii.eqb c ":"%char) eqn:Hc.
  - intros [= <- <-]. apply Ascii.eqb_eq in Hc. by subst c.
  - destruct (split_colon rest) as [[l' t']|]; [|done].
    intros [= <- <-]. exact (f_equal (String c) (IH l' t' eq_refl)).
Qed.

(** ** Binary64 *)

Lemma Qle_bool_false (w v : Q) : Qle_bool w v = false → (v < w)%Q.
Proof.
  intros H. apply Qnot_le_lt. intros Hle.
  apply Qle_bool_iff in Hle. congruence.
Qed.

Section Binary64.

Local Open Scope Q_scope.

Lemma pow2_pos (e : Z) : 0 < 2 ^ e.
Proof. by apply Qpower_0_lt. Qed.

Lemma pow2_le (a b : Z) : (a <= b)%Z → 2 ^ a <= 2 ^ b.
Proof. intros H. by apply Qpower_le_compat_l. Qed.

Lemma pow2_lt (a b : Z) : (a < b)%Z → 2 ^ a < 2 ^ b.
Proof. intros H. by apply Qpower_lt_compat_l. Qed.

Lemma pow2_add (a b : Z) : 2 ^ (a + b) == 2 ^ a * 2 ^ b.
Proof. by apply Qpower_plus. Qed.

Lemma pow2_Z (n : Z) : (0 <= n)%Z → 2 ^ n == inject_Z (2 ^ n).
Proof. intros H. symmetry. by apply (Zpower_Qpower 2). Qed.

Lemma pow2_opp (a : Z) : 2 ^ a * 2 ^ (- a) == 1.
Proof.
  rewrite <- pow2_add. by replace (a + - a)%Z with 0%Z by lia.
Qed.

(** The exponent of a positive rational is unique. *)
Lemma exponent_unique (x : Q) (e e' : Z) :
  2 ^ e <= x → x < 2 ^ (e + 1) → 2 ^ e' <= x → x < 2 ^ (e' + 1) → e = e'.
Proof.
  intros H1 H2 H3 H4.
  destruct (Z.lt_trichotomy e e') as [Hlt|[->|Hlt]]; [|done|]; exfalso.
  - pose proof (pow2_le (e + 1) e' ltac:(lia)). lra.
  - pose proof (pow2_le (e' + 1) e ltac:(lia)). lra.
Qed.

Lemma ilog2_spec (x : Q) :
  0 < x → 2 ^ Float.ilog2 x <= x ∧ x < 2 ^ (Float.ilog2 x + 1).
Proof.
  intros Hx. destruct x as [a b]. unfold Float.ilog2. cbn [Qnum Qden].
  assert (0 < a)%Z as Ha by (unfold Qlt in Hx; simpl in Hx; lia).
  destruct (Z.log2_spec a Ha) as [Ha1 Ha2].
  destruct (Z.log2_spec (Zpos b) ltac:(lia)) as [Hb1 Hb2].
  pose proof (Z.log2_nonneg a) as Hla.
  pose proof (Z.log2_nonneg (Zpos b)) as Hlb.
  set (la := Z.log2 a) in *. set (lb := Z.log2 (Zpos b)) in *.
  assert (a # b == inject_Z a / inject_Z (Zpos b)) as Hab by apply Qmake_Qdiv.
  assert (0 < inject_Z (Zpos b)) as Hbpos by (unfold Qlt; simpl; lia).
  assert (2 ^ la <= inject_Z a ∧ inject_Z a < 2 ^ (la + 1)) as [Hqa1 Hqa2].
  { rewrite !pow2_Z by lia. rewrite <- Zle_Qle, <- Zlt_Qlt.
    replace (la + 1)%Z with (Z.succ la) by lia. done. }
  assert (2 ^ lb <= inject_Z (Zpos b) ∧ inject_Z (Zpos b) < 2 ^ (lb + 1))
    as [Hqb1 Hqb2].
  { rewrite !pow2_Z by lia. rewrite <- Zle_Qle, <- Zlt_Qlt.
    replace (lb + 1)%Z with (Z.succ lb) by lia. done. }
  assert (Hlow : 2 ^ (la - lb - 1) < a # b).
  { rewrite Hab. apply Qlt_shift_div_l; [done|].
    assert (2 ^ (la - lb - 1) * 2 ^ (lb + 1) == 2 ^ la) as Heq.
    { rewrite <- pow2_add. by replace (la - lb - 1 + (lb + 1))%Z with la by lia. }
    pose proof (pow2_pos (la - lb - 1)). nra. }
  assert (Hhigh : a # b < 2 ^ (la - lb + 1)).
  { rewrite Hab. apply Qlt_shift_div_r; [done|].
    assert (2 ^ (la - lb + 1) * 2 ^ lb == 2 ^ (la + 1)) as Heq.
    { rewrite <- pow2_add. by replace (la - lb + 1 + lb)%Z with (la + 1)%Z by lia. }
    pose proof (pow2_pos (la - lb + 1)). nra. }
  destruct (Qle_bool (2 ^ (la - lb)) (a # b)) eqn:Htest.
  - apply Qle_bool_iff in Htest. done.
  - assert (a # b < 2 ^ (la - lb)) as Hlt.
    { apply Qnot_le_lt. intros Hle. apply Qle_bool_iff in Hle. congruence. }
    replace (la - lb - 1 + 1)%Z with (la - lb)%Z by lia. split; [lra|done].
Qed.

Lemma rne_bounds (x : Q) :
  x - (1 # 2) <= inject_Z (Float.rne x) ∧ inject_Z (Float.rne x) <= x + (1 # 2).
Proof.
  unfold Float.rne.
  pose proof (Qfloor_le x) as Hlo. pose proof (Qlt_floor x) as Hhi.
  rewrite inject_Z_plus in Hhi. change (inject_Z 1) with 1 in Hhi.
  destruct (Qcompare_spec (x - inject_Z (Qfloor x)) (1 # 2)) as [Heq|Hlt|Hgt].
  - destruct (Z.even _); rewrite ?inject_Z_plus;
      change (inject_Z 1) with 1; split; lra.
  - split; lra.
  - rewrite inject_Z_plus. change (inject_Z 1) with 1. split; lra.
Qed.

Lemma rne_wd (a b : Q) : a == b → Float.rne a = Float.rne b.
Proof.
  intros Hab. unfold Float.rne. rewrite (Qfloor_comp _ _ Hab).
  assert (a - inject_Z (Qfloor b) == b - inject_Z (Qfloor b)) as Hd
    by (by rewrite Hab).
  by rewrite (Qcompare_comp _ _ Hd (1 # 2) (1 # 2) (Qeq_refl _)).
Qed.

Lemma rne_Z (x : Q) (n : Z) : x == inject_Z n → Float.rne x = n.
Proof.
  intros Hx. pose proof (rne_bounds x) as [Hlo Hhi].
  assert (inject_Z (n + -1) < inject_Z (Float.rne x)) as H1.
  { rewrite inject_Z_plus. change (inject_Z (-1)) with (-1). lra. }
  assert (inject_Z (Float.rne x) < inject_Z (n + 1)) as H2.
  { rewrite inject_Z_plus. change (inject_Z 1) with 1. lra. }
  rewrite <- Zlt_Qlt in H1, H2. lia.
Qed.

Lemma Qred_Z (x : Q) (n : Z) : x == inject_Z n → Qred x = inject_Z n.
Proof.
  intros Hx. rewrite (Qred_complete _ _ Hx).
  unfold Qred, inject_Z.
  pose proof (Z.ggcd_gcd n 1) as Hg.
  pose proof (Z.ggcd_correct_divisors n 1) as Hd.
  destruct (Z.ggcd n 1) as [g [a b]]. simpl in Hg.
  rewrite Z.gcd_1_r in Hg. subst g. destruct Hd as [-> Hb].
  assert (b = 1%Z) as -> by lia. f_equal. lia.
Qed.

Lemma Qeq_bool_false (x y : Q) : ¬ x == y → Qeq_bool x y = false.
Proof.
  intros Hne. destruct (Qeq_bool x y) eqn:E; [|done].
  by apply Qeq_bool_iff in E.
Qed.

Lemma Qle_bool_gt (x y : Q) : y < x → Qle_bool x y = false.
Proof.
  intros Hlt. destruct (Qle_bool x y) eqn:E; [|done].
  apply Qle_bool_iff in E. lra.
Qed.

Lemma div_pow2 (x : Q) (e : Z) : x / 2 ^ e == x * 2 ^ (- e).
Proof.
  unfold Qdiv. by rewrite Qpower_opp.
Qed.

(** What rounding returns for a rational of exponent [e], when the
    quantum is above the smallest one. *)
Lemma round_normal (x : Q) (e : Z) :
  2 ^ e <= Qabs x → Qabs x < 2 ^ (e + 1) → (-1022 <= e)%Z →
  let y := inject_Z (Float.rne (x * 2 ^ (52 - e))) * 2 ^ (e - 52) in
  Float.round x
  = if Qle_bool (2 ^ 1024) (Qabs y) then Float.Inf (negb (Qle_bool 0 x))
    else Float.Finite (Qred y).
Proof.
  intros Hlo Hhi He y. unfold Float.round.
  pose proof (pow2_pos e) as Hpos.
  rewrite Qeq_bool_false.
  2:{ intros Hzero. assert (Qabs x == 0) as Habs0 by (by rewrite Hzero).
      lra. }
  destruct (ilog2_spec (Qabs x)) as [Hlo' Hhi']; [lra|].
  set (e' := Float.ilog2 (Qabs x)) in *.
  assert (e = e') as <-.
  { by apply (exponent_unique (Qabs x)). }
  rewrite Z.max_l by lia. cbv zeta.
  assert (Float.rne (x / 2 ^ (e - 52)) = Float.rne (x * 2 ^ (52 - e))) as ->.
  { apply rne_wd. rewrite div_pow2.
    by replace (- (e - 52))%Z with (52 - e)%Z by lia. }
  done.
Qed.

Lemma round_positive (x : Q) (e : Z) :
  0 < x → 2 ^ e <= x → x < 2 ^ (e + 1) → (-1022 <= e)%Z →
  let y := inject_Z (Float.rne (x * 2 ^ (52 - e))) * 2 ^ (e - 52) in
  Float.round x
  = if Qle_bool (2 ^ 1024) (Qabs y) then Float.Inf false
    else Float.Finite (Qred y).
Proof.
  intros Hx Hlo Hhi He y.
  assert (Qabs x == x) as Habs by (apply Qabs_pos; lra).
  rewrite (round_normal x e) by (rewrite ?Habs; done). fold y.
  destruct (Qle_bool 0 x) eqn:E; [done|].
  assert (0 <= x) as Hx0 by lra. apply Qle_bool_iff in Hx0. congruence.
Qed.

(** A negative rational of exponent [e] rounds to a float that is at most
    [- 2 ^ e], or to minus infinity. *)
Lemma round_negative (x : Q) (e : Z) :
  x < 0 → 2 ^ e <= - x → - x < 2 ^ (e + 1) → (-1022 <= e)%Z →
  match Float.round x with
  | Float.Finite y => y <= - 2 ^ e
  | Float.Inf negative => negative = true
  end.
Proof.
  intros Hx Hlo Hhi He.
  assert (Qabs x == - x) as Habs by (apply Qabs_neg; lra).
  rewrite (round_normal x e) by (rewrite ?Habs; done).
  destruct (Qle_bool _ _).
  - destruct (Qle_bool 0 x) eqn:E; [|done].
    apply Qle_bool_iff in E. lra.
  - rewrite Qred_correct.
    pose proof (pow2_pos (52 - e)) as Hp. pose proof (pow2_pos (e - 52)) as Hq.
    assert (2 ^ e * 2 ^ (52 - e) == 2 ^ 52) as H52.
    { rewrite <- pow2_add. by replace (e + (52 - e))%Z with 52%Z by lia. }
    assert (2 ^ 52 * 2 ^ (e - 52) == 2 ^ e) as He52.
    { rewrite <- pow2_add. by replace (52 + (e - 52))%Z with e by lia. }
    assert (2 ^ 52 == 4503599627370496) as Hval by reflexivity.
    set (v := x * 2 ^ (52 - e)).
    assert (v <= - 2 ^ 52) as Hv by (unfold v; nra).
    pose proof (rne_bounds v) as [_ Hm].
    set (m := Float.rne v) in *.
    assert (inject_Z m < inject_Z (-4503599627370496 + 1)) as Hlt.
    { rewrite inject_Z_plus.
      change (inject_Z (-4503599627370496)) with (-4503599627370496).
      change (inject_Z 1) with 1. lra. }
    rewrite <- Zlt_Qlt in Hlt.
    assert (inject_Z m <= inject_Z (-4503599627370496)) as Hle.
    { rewrite <- Zle_Qle. lia. }
    change (inject_Z (-4503599627370496)) with (-4503599627370496) in Hle.
    nra.
Qed.

(** Integers below [2 ^ 53] are floats. *)
Lemma round_small_int (x : Q) (n : Z) :
  x == inject_Z n → (0 <= n < 2 ^ 53)%Z →
  Float.round x = Float.Finite (inject_Z n).
Proof.
  intros Hx Hn. destruct (decide (n = 0%Z)) as [->|Hne].
  - unfold Float.round. by rewrite (proj2 (Qeq_bool_iff x 0) Hx).
  - assert (0 < n)%Z as Hpos by lia.
    destruct (Z.log2_spec n Hpos) as [Hl1 Hl2].
    pose proof (Z.log2_nonneg n) as Hl0.
    assert (Z.log2 n < 53)%Z as Hl53.
    { apply Z.log2_lt_pow2; lia. }
    set (l := Z.log2 n) in *.
    assert (0 < x) as Hxpos.
    { rewrite Hx. change 0 with (inject_Z 0). by rewrite <- Zlt_Qlt. }
    rewrite (round_positive x l); [|done| | |lia].
    + assert (x * 2 ^ (52 - l) == inject_Z (n * 2 ^ (52 - l))) as Hm.
      { rewrite Hx, inject_Z_mult, pow2_Z by lia. done. }
      rewrite (rne_Z _ _ Hm).
      assert (inject_Z (n * 2 ^ (52 - l)) * 2 ^ (l - 52) == inject_Z n) as Hy.
      { rewrite inject_Z_mult, <- pow2_Z by lia.
        rewrite <- Qmult_assoc, <- pow2_add.
        replace (52 - l + (l - 52))%Z with 0%Z by lia. simpl. ring. }
      rewrite Qle_bool_gt.
      * by rewrite (Qred_Z _ _ Hy).
      * rewrite Hy, Qabs_pos by (rewrite Hx in Hxpos; lra).
        apply Qlt_trans with (2 ^ 53).
        -- rewrite pow2_Z by lia. rewrite <- Zlt_Qlt. lia.
        -- by apply pow2_lt.
    + rewrite Hx, pow2_Z by lia. by rewrite <- Zle_Qle.
    + rewrite Hx, pow2_Z by lia. rewrite <- Zlt_Qlt.
      by replace (l + 1)%Z with (Z.succ l) by lia.
Qed.

(** A negative integer converts to a float that is at most -1, or the
    conversion overflows. *)
Lemma round_negative_int (n : Z) :
  (n < 0)%Z →
  match Float.round (inject_Z n) with
  | Float.Finite y => y <= -1
  | Float.Inf negative => negative = true
  end.
Proof.
  intros Hn.
  assert (inject_Z n <= -1) as Hle.
  { change (-1) with (inject_Z (-1)). rewrite <- Zle_Qle. lia. }
  destruct (ilog2_spec (- inject_Z n)) as [Hlo Hhi]; [lra|].
  set (e := Float.ilog2 (- inject_Z n)) in *.
  assert (0 <= e)%Z as He.
  { destruct (Z_le_gt_dec 0 e) as [|Hgt]; [done|exfalso].
    pose proof (pow2_le (e + 1) 0 ltac:(lia)) as H0.
    change (2 ^ 0) with 1 in H0. lra. }
  pose proof (round_negative (inject_Z n) e ltac:(lra) Hlo Hhi ltac:(lia))
    as Hround.
  destruct (Float.round (inject_Z n)) as [y|]; [|done].
  pose proof (pow2_le 0 e He) as H1. change (2 ^ 0) with 1 in H1. lra.
Qed.

(** A float that is at most -1, divided by 100, is still negative. *)
Lemma round_negative_percent (q : Q) :
  q <= -1 →
  match Float.round (q / 100) with
  | Float.Finite y => y < 0
  | Float.Inf negative => negative = true
  end.
Proof.
  intros Hq.
  assert (q / 100 < 0) as Hneg.
  { apply Qlt_shift_div_r; lra. }
  assert (q / 100 <= - (1 # 100)) as Hle.
  { apply Qle_shift_div_r; lra. }
  destruct (ilog2_spec (- (q / 100))) as [Hlo Hhi]; [lra|].
  set (e := Float.ilog2 (- (q / 100))) in *.
  assert (-7 <= e)%Z as He.
  { destruct (Z_le_gt_dec (-7) e) as [|Hgt]; [done|exfalso].
    pose proof (pow2_le (e + 1) (-7) ltac:(lia)) as H0.
    assert (2 ^ (-7) == 1 # 128) as Hval by reflexivity. lra. }
  pose proof (round_negative (q / 100) e Hneg Hlo Hhi ltac:(lia)) as Hround.
  destruct (Float.round (q / 100)) as [y|]; [|done].
  pose proof (pow2_pos e). lra.
Qed.

(** A product of an integer below [2 ^ 53] and a draw of [[0,1)] rounds to
    a float below the integer. *)
Lemma round_below (x : Q) (total : Z) :
  (0 < total < 2 ^ 53)%Z →
  (1 # 9007199254740992) <= x →
  x <= inject_Z total * (1 - (1 # 9007199254740992)) →
  ∃ r, Float.round x = Float.Finite r ∧ 0 < r ∧ r < inject_Z total.
Proof.
  intros Htotal Hlow Hhigh.
  assert (0 < inject_Z total ∧ inject_Z total < 2 ^ 53) as [Ht0 Ht53].
  { rewrite pow2_Z by lia. change 0 with (inject_Z 0).
    rewrite <- !Zlt_Qlt. lia. }
  assert (0 < x) as Hx by lra.
  assert (x < inject_Z total) as Hxt by nra.
  destruct (ilog2_spec x Hx) as [Hlo Hhi].
  set (e := Float.ilog2 x) in *.
  assert (e < 53)%Z as He53.
  { destruct (Z_lt_ge_dec e 53) as [|Hge]; [done|exfalso].
    pose proof (pow2_le 53 e ltac:(lia)). lra. }
  assert (-53 <= e)%Z as Hem.
  { destruct (Z_le_gt_dec (-53) e) as [|Hgt]; [done|exfalso].
    pose proof (pow2_le (e + 1) (-53) ltac:(lia)) as Hle.
    assert (2 ^ (-53) == 1 # 9007199254740992) as Heq by reflexivity. lra. }
  rewrite (round_positive x e) by (done || lia).
  set (v := x * 2 ^ (52 - e)).
  set (T := (total * 2 ^ (52 - e))%Z).
  pose proof (pow2_pos (52 - e)) as Hp. pose proof (pow2_pos (e - 52)) as Hq.
  assert (2 ^ (52 - e) * 2 ^ (e - 52) == 1) as Hinv.
  { rewrite <- pow2_add. by replace (52 - e + (e - 52))%Z with 0%Z by lia. }
  assert (inject_Z T == inject_Z total * 2 ^ (52 - e)) as HT.
  { unfold T. rewrite inject_Z_mult, pow2_Z by lia. done. }
  assert (2 ^ 52 <= v) as Hv52.
  { unfold v. assert (2 ^ e * 2 ^ (52 - e) == 2 ^ 52) as <-.
    { rewrite <- pow2_add. by replace (e + (52 - e))%Z with 52%Z by lia. }
    nra. }
  assert (2 ^ 52 == 4503599627370496) as H52 by reflexivity.
  assert (v <= inject_Z T * (1 - (1 # 9007199254740992))) as HvT.
  { unfold v. rewrite HT. nra. }
  assert (v < inject_Z T) as HvT'.
  { unfold v. rewrite HT. nra. }
  pose proof (rne_bounds v) as [Hm1 Hm2].
  set (m := Float.rne v) in *.
  assert (inject_Z m < inject_Z T) as HmT by nra.
  assert (inject_Z 0 < inject_Z m) as Hm0.
  { change (inject_Z 0) with 0. lra. }
  rewrite <- Zlt_Qlt in HmT, Hm0.
  assert (inject_Z m <= inject_Z (T + -1)) as HmT1.
  { rewrite <- Zle_Qle. lia. }
  rewrite inject_Z_plus in HmT1. change (inject_Z (-1)) with (-1) in HmT1.
  assert (inject_Z 1 <= inject_Z m) as Hm1'.
  { rewrite <- Zle_Qle. lia. }
  change (inject_Z 1) with 1 in Hm1'.
  set (y := inject_Z m * 2 ^ (e - 52)).
  assert (0 < y) as Hy0 by (unfold y; nra).
  assert (y < inject_Z total) as Hyt.
  { unfold y.
    assert (inject_Z T * 2 ^ (e - 52) == inject_Z total) as HTt.
    { rewrite HT, <- Qmult_assoc, Hinv. ring. }
    nra. }
  rewrite Qle_bool_gt.
  - exists (Qred y). split; [done|]. rewrite Qred_correct. done.
  - rewrite Qabs_pos by lra.
    apply Qlt_trans with (2 ^ 53); [lra|]. by apply pow2_lt.
Qed.

End Binary64.

(** [Float.round] against [SpecFloat] of the Standard Library, in binary64:
    a quotient and products that round, a sum that stalls at [2 ^ 53],
    integers that round to even, the largest integer that converts and the
    first that does not, a negative quotient, and subnormal ties. *)
Example round_agrees_with_SpecFloat :
  let int := Float.spec_int in
  let div := SFdiv 53 1024 in
  let mul := SFmul 53 1024 in
  let raw (n : Z) := (inject_Z n / inject_Z (2 ^ 53))%Q in
  let big := (2 ^ 53)%Z in
  let top := (2 ^ 1024 - 2 ^ 970)%Z in
  let small := div (int 1%Z) (int (2 ^ 1000)%Z) in
  Float.of_spec (div (int 40%Z) (int 100%Z))
  = Some (Float.round (40 / 100)%Q)
  ∧ Float.of_spec (mul (int 3%Z) (div (int 3002399751580331%Z) (int big)))
    = Some (Float.round (3 * raw 3002399751580331%Z)%Q)
  ∧ Float.of_spec (mul (int 700%Z) (div (int 3860228252031854%Z) (int big)))
    = Some (Float.round (700 * raw 3860228252031854%Z)%Q)
  ∧ Float.of_spec (mul (int (big + 4)%Z) (div (int (big - 1)%Z) (int big)))
    = Some (Float.round (inject_Z (big + 4) * raw (big - 1)%Z)%Q)
  ∧ Float.of_spec (SFadd 53 1024 (int big) (int 1%Z))
    = Some (Float.round (inject_Z big + 1)%Q)
  ∧ Float.of_spec (int (big + 1)%Z) = Some (Float.round (inject_Z (big + 1)))
  ∧ Float.of_spec (int (big + 3)%Z) = Some (Float.round (inject_Z (big + 3)))
  ∧ Float.of_spec (int (10 ^ 400)%Z)
    = Some (Float.round (inject_Z (10 ^ 400)))
  ∧ Float.of_spec (int (top - 1)%Z) = Some (Float.round (inject_Z (top - 1)))
  ∧ Float.of_spec (int top) = Some (Float.round (inject_Z top))
  ∧ Float.of_spec (div (int (-5)%Z) (int 100%Z))
    = Some (Float.round (-5 / 100)%Q)
  ∧ Float.of_spec (div (int 1%Z) (int 3%Z)) = Some (Float.round (1 / 3)%Q)
  ∧ Float.of_spec (div small (int (2 ^ 74)%Z))
    = Some (Float.round (1 / inject_Z (2 ^ 1074))%Q)
  ∧ Float.of_spec (div small (int (2 ^ 75)%Z))
    = Some (Float.round (1 / inject_Z (2 ^ 1075))%Q)
  ∧ Float.of_spec (div (mul (int 3%Z) small) (int (2 ^ 75)%Z))
    = Some (Float.round (3 / inject_Z (2 ^ 1075))%Q)
  ∧ Float.of_spec (div (mul (int 5%Z) small) (int (2 ^ 75)%Z))
    = Some (Float.round (5 / inject_Z (2 ^ 1075))%Q).
Proof. by vm_compute. Qed.

Lemma of_int_small (n : Z) :
  (0 <= n < 2 ^ 53)%Z → Float.of_int n = Returned (inject_Z n).
Proof.
  intros Hn. unfold Float.of_int.
  by rewrite (round_small_int _ n (Qeq_refl _) Hn).
Qed.

(** Sums of integers that stay below [2 ^ 53] are exact. *)
Lemma round_sum (u w : Z) :
  (0 <= u)%Z → (0 <= w)%Z → (u + w < 2 ^ 53)%Z →
  Float.round (inject_Z u + inject_Z w) = Float.Finite (inject_Z (u + w)).
Proof.
  intros Hu Hw Hsum.
  apply round_small_int; [|lia]. by rewrite inject_Z_plus.
Qed.

(** ** The random source *)

Lemma random_range (draws : Random.source) (pos : nat) :
  (0 <= Random.random draws pos)%Q ∧ (Random.random draws pos < 1)%Q.
Proof.
  unfold Random.random, Qle, Qlt. simpl.
  pose proof (N.mod_lt (draws pos) (2 ^ 53)%N ltac:(done)) as Hlt.
  change (Z.pos (2 ^ 53)) with (Z.of_N (2 ^ 53)%N).
  generalize dependent (2 ^ 53)%N. intros M HM.
  generalize dependent (draws pos `mod` M)%N. intros m Hm.
  split; lia.
Qed.

(** A draw is a multiple of [2 ^ -53]. *)
Lemma random_grid (draws : Random.source) (pos : nat) :
  ∃ k, (0 <= k < 2 ^ 53)%Z
       ∧ (Random.random draws pos
          == inject_Z k * (1 # 9007199254740992))%Q.
Proof.
  exists (Z.of_N (draws pos mod 2 ^ 53)). split.
  - pose proof (N.mod_lt (draws pos) (2 ^ 53)%N ltac:(done)) as Hlt.
    apply N2Z.inj_lt in Hlt. split; [apply N2Z.is_nonneg|exact Hlt].
  - unfold Random.random.
    change (2 ^ 53)%positive with 9007199254740992%positive.
    unfold Qeq. simpl. generalize (Z.of_N (draws pos `mod` 2 ^ 53)). lia.
Qed.

(** For a total below [2 ^ 53] the draw of [random.uniform(0, total)] is
    a float of [[0, total)]. *)
Lemma uniform_range (draws : Random.source) (pos : nat) (total : Z) :
  (0 < total < 2 ^ 53)%Z →
  ∃ r, Random.uniform draws pos total = Returned (Float.Finite r)
       ∧ (0 <= r)%Q ∧ (r < inject_Z total)%Q.
Proof.
  intros Htotal. unfold Random.uniform.
  rewrite of_int_small by lia.
  destruct (random_grid draws pos) as (k & Hk & Hrandom).
  assert (0 < inject_Z total)%Q as Ht0.
  { change 0%Q with (inject_Z 0). rewrite <- Zlt_Qlt. lia. }
  destruct (decide (k = 0%Z)) as [->|Hne].
  - exists 0%Q. split; [|split; [lra|done]].
    unfold Float.round.
    assert (inject_Z total * Random.random draws pos == 0)%Q as Hzero.
    { rewrite Hrandom. ring. }
    by rewrite (proj2 (Qeq_bool_iff _ _) Hzero).
  - assert (1 <= inject_Z total)%Q as Ht1.
    { change 1%Q with (inject_Z 1). rewrite <- Zle_Qle. lia. }
    assert (1 <= inject_Z k)%Q as Hk1.
    { change 1%Q with (inject_Z 1). rewrite <- Zle_Qle. lia. }
    assert (inject_Z k <= 9007199254740991)%Q as Hk2.
    { change 9007199254740991%Q with (inject_Z 9007199254740991).
      rewrite <- Zle_Qle. lia. }
    destruct (round_below (inject_Z total * Random.random draws pos) total)
      as (r & Hr & Hr0 & Hrt); [done| | |].
    + rewrite Hrandom. nra.
    + rewrite Hrandom. nra.
    + exists r. split; [by rewrite Hr|]. split; [lra|done].
Qed.

(** ** [_weighted_choice] *)

Section WeightedChoice.

Implicit Types (w : Z) (weights : list Z) (options : list string).

Lemma positive_fold_acc weights (acc : Z) :
  fold_left (λ acc w, if (w <=? 0)%Z then acc else (acc + w)%Z) weights acc
  = (acc + positive_total weights)%Z.
Proof.
  unfold positive_total. revert acc.
  induction weights as [|w ws IH]; intros acc; simpl.
  - lia.
  - destruct (w <=? 0)%Z.
    + apply IH.
    + rewrite (IH (acc + w)%Z), (IH (0 + w)%Z). lia.
Qed.

Lemma positive_total_cons w weights :
  positive_total (w :: weights)
  = ((if (w <=? 0)%Z then 0 else w) + positive_total weights)%Z.
Proof.
  unfold positive_total at 1. simpl.
  destruct (w <=? 0)%Z; rewrite positive_fold_acc; lia.
Qed.

Lemma positive_total_nonneg weights : (0 <= positive_total weights)%Z.
Proof.
  induction weights as [|w ws IH]; [done|].
  rewrite positive_total_cons.
  destruct (Z.leb_spec w 0); lia.
Qed.

Lemma positive_total_all_nonpositive weights :
  Forall (λ w, (w <= 0)%Z) weights → positive_total weights = 0%Z.
Proof.
  induction 1 as [|w ws Hw Hws IH]; [done|].
  rewrite positive_total_cons, IH.
  destruct (Z.leb_spec w 0); lia.
Qed.

Lemma positive_total_positive weights :
  Exists (λ w, (0 < w)%Z) weights → (0 < positive_total weights)%Z.
Proof.
  induction 1 as [w ws Hw|w ws _ IH]; rewrite positive_total_cons.
  - pose proof (positive_total_nonneg ws).
    destruct (Z.leb_spec w 0); lia.
  - destruct (Z.leb_spec w 0); lia.
Qed.

Lemma cumulative_cons_S w weights i :
  cumulative (w :: weights) (S i)
  = ((if (w <=? 0)%Z then 0 else w) + cumulative weights i)%Z.
Proof. unfold cumulative. simpl take. apply positive_total_cons. Qed.

Lemma cumulative_cons_0 w weights :
  cumulative (w :: weights) 0 = (if w <=? 0 then 0 else w)%Z.
Proof.
  unfold cumulative. simpl take. rewrite positive_total_cons.
  unfold positive_total. simpl. lia.
Qed.

(** While the sums stay below [2 ^ 53] the accumulation is exact, and the
    loop returns the first option of positive weight whose cumulative
    weight reaches the draw. *)
Lemma walk_options_first (r : Q) (u : Z) options weights :
  length options = length weights →
  (0 <= u)%Z → (u + positive_total weights < 2 ^ 53)%Z →
  (inject_Z u < r)%Q ∨ (0 < positive_total weights)%Z →
  (r <= inject_Z (u + positive_total weights))%Q →
  ∃ i opt w,
    walk_options (Float.Finite r) (Float.Finite (inject_Z u))
      (combine options weights) = Returned (Some opt)
    ∧ options !! i = Some opt ∧ weights !! i = Some w ∧ (0 < w)%Z
    ∧ (r <= inject_Z (u + cumulative weights i))%Q
    ∧ ∀ j wj, (j < i)%nat → weights !! j = Some wj → (0 < wj)%Z →
              (inject_Z (u + cumulative weights j) < r)%Q.
Proof.
  revert options u.
  induction weights as [|w ws IH]; intros [|o os] u Hlen Hu Hsmall Hsome Hle;
    simplify_eq/=.
  - exfalso. unfold positive_total in *. simpl in *.
    rewrite Z.add_0_r in Hle. destruct Hsome as [Hsome|Hsome]; [lra|lia].
  - rewrite positive_total_cons in Hsmall, Hsome, Hle.
    pose proof (positive_total_nonneg ws) as Hws.
    destruct (Z.leb_spec w 0) as [Hw|Hw].
    + destruct (IH os u) as (i & opt & wi & Hwalk & Ho & Hwi & Hpos & Hr & Hmin);
        [done|done|lia|done|done|].
      exists (S i), opt, wi. repeat split; try done.
      * rewrite cumulative_cons_S. by destruct (Z.leb_spec w 0); [|lia].
      * intros [|j] wj Hj Hlook Hwj; simpl in *.
        -- simplify_eq. lia.
        -- rewrite cumulative_cons_S. destruct (Z.leb_spec w 0); [|lia].
           by apply (Hmin j wj); [lia|..].
    + rewrite of_int_small by lia. rewrite round_sum by lia.
      destruct (Qle_bool r (inject_Z (u + w))) eqn:Hreach.
      * apply Qle_bool_iff in Hreach.
        exists 0%nat, o, w. repeat split; try done.
        -- rewrite cumulative_cons_0. by destruct (Z.leb_spec w 0); [lia|].
        -- intros j wj Hj. lia.
      * apply Qle_bool_false in Hreach.
        destruct (IH os (u + w)%Z)
          as (i & opt & wi & Hwalk & Ho & Hwi & Hpos & Hr & Hmin);
          [done|lia|lia|by left| |].
        { by replace (u + w + positive_total ws)%Z
            with (u + (w + positive_total ws))%Z by lia. }
        exists (S i), opt, wi. repeat split; try done.
        -- rewrite cumulative_cons_S. destruct (Z.leb_spec w 0); [lia|].
           by replace (u + (w + cumulative ws i))%Z
             with (u + w + cumulative ws i)%Z by lia.
        -- intros [|j] wj Hj Hlook Hwj; simpl in *.
           ++ rewrite cumulative_cons_0. by destruct (Z.leb_spec w 0); [lia|].
           ++ rewrite cumulative_cons_S. destruct (Z.leb_spec w 0); [lia|].
              replace (u + (w + cumulative ws j))%Z
                with (u + w + cumulative ws j)%Z by lia.
              by apply (Hmin j wj); [lia|..].
Qed.

Lemma choice_elem {A} (draws : Random.source) (pos : nat) (l : list A) :
  l ≠ [] → ∃ x, Random.choice draws pos l = Some x ∧ x ∈ l.
Proof.
  intros Hne. unfold Random.choice.
  assert (length l ≠ 0%nat) as Hlen by (by destruct l).
  destruct (lookup_lt_is_Some_2 l (N.to_nat (draws pos) mod length l))
    as [x Hx]; [by apply Nat.mod_upper_bound|].
  exists x. split; [done|]. by eapply list_elem_of_lookup_2.
Qed.

(** With some positive weight and a total below [2 ^ 53]: the draw is a
    float of [[0, total)] and the result is the first option of positive
    weight whose cumulative weight reaches it. *)
Lemma weighted_choice_exact (draws : Random.source) (pos : nat)
    options weights :
  length options = length weights →
  (0 < positive_total weights < 2 ^ 53)%Z →
  ∃ r, Random.uniform draws pos (positive_total weights)
       = Returned (Float.Finite r)
     ∧ (0 <= r)%Q ∧ (r < inject_Z (positive_total weights))%Q
     ∧ ∃ i opt w,
         _weighted_choice draws pos options weights
         = (Returned (Some opt), S pos)
         ∧ options !! i = Some opt ∧ weights !! i = Some w ∧ (0 < w)%Z
         ∧ (r <= inject_Z (cumulative weights i))%Q
         ∧ ∀ j wj, (j < i)%nat → weights !! j = Some wj → (0 < wj)%Z →
                   (inject_Z (cumulative weights j) < r)%Q.
Proof.
  intros Hlen Htotal.
  destruct (uniform_range draws pos _ Htotal) as (r & Hr & Hr0 & Hr1).
  exists r. split; [done|]. split; [done|]. split; [done|].
  destruct (walk_options_first r 0 options weights Hlen)
    as (i & opt & w & Hwalk & Ho & Hw & Hpos & Hreach & Hmin);
    [done|lia|right; lia|rewrite Z.add_0_l; lra|].
  rewrite !Z.add_0_l in Hreach.
  assert (Hmin' : ∀ j wj, (j < i)%nat → weights !! j = Some wj → (0 < wj)%Z →
                    (inject_Z (cumulative weights j) < r)%Q).
  { intros j wj Hj Hlook Hwj. specialize (Hmin j wj Hj Hlook Hwj).
    by rewrite Z.add_0_l in Hmin. }
  exists i, opt, w. unfold _weighted_choice.
  destruct (Z.leb_spec (positive_total weights) 0) as [|_]; [lia|].
  rewrite Hr. change (inject_Z 0) with 0%Q in Hwalk. rewrite Hwalk.
  repeat split; done.
Qed.

End WeightedChoice.

Lemma walk_options_elem r upto options (weights : list Z) opt :
  walk_options r upto (combine options weights) = Returned (Some opt) →
  opt ∈ options.
Proof.
  revert weights upto.
  induction options as [|o os IH]; intros [|w ws] upto; simpl; try done.
  destruct (w <=? 0)%Z.
  - intros H. right. by eapply IH.
  - destruct (Float.of_int w) as [w'|]; [|done].
    destruct (Float.le r (Float.add upto w')).
    + intros [= ->]. by left.
    + intros H. right. by eapply IH.
Qed.

(** Whatever the weights, a result is an element of the options. *)
Lemma weighted_choice_elem draws pos options (weights : list Z) opt :
  (_weighted_choice draws pos options weights).1 = Returned (Some opt) →
  opt ∈ options.
Proof.
  unfold _weighted_choice.
  destruct (positive_total weights <=? 0)%Z.
  - destruct options as [|o os]; [done|]. simpl.
    intros [= H]. by eapply list_elem_of_lookup_2.
  - destruct (Random.uniform _ _ _) as [r|]; [|done].
    destruct (walk_options _ _ _) as [[o|]|] eqn:Hwalk; simpl; [| |done].
    + intros [= ->]. by eapply walk_options_elem.
    + intros [= H]. by apply last_Some_elem_of.
Qed.

(** Non-empty options are never answered by [None]. *)
Lemma weighted_choice_not_None draws pos options (weights : list Z) :
  options ≠ [] →
  (_weighted_choice draws pos options weights).1 ≠ Returned None.
Proof.
  intros Hne. unfold _weighted_choice.
  destruct (positive_total weights <=? 0)%Z.
  - destruct (choice_elem draws pos options Hne) as (x & Hx & _).
    destruct options; [done|]. simpl. by rewrite Hx.
  - destruct (Random.uniform _ _ _) as [r|]; [|done].
    destruct (walk_options _ _ _) as [[o|]|]; simpl; [done| |done].
    destruct (last_is_Some options) as [_ Hlast].
    destruct (Hlast Hne) as [x Hx]. by rewrite Hx.
Qed.

(** C8 (amended). For a non-empty options list with integer weights.
    When every weight is at most 0 the result is the element of the full
    list at the raw uniform index (never none, and every element can be
    drawn).  When the weights match the options, some weight is positive
    and the positive weights sum to less than [2 ^ 53], the draw is a
    float of [[0, sum)] and the result is the first option of positive
    weight whose cumulative positive weight, taken inclusively and in list
    order, reaches the draw.  Whatever the weights, the function raises
    [OverflowError] or returns an element of the list. *)
Theorem weighted_choice_correct (draws : Random.source) (pos : nat)
    (options : list string) (weights : list Z) :
  options ≠ [] →
  (Forall (λ w, (w <= 0)%Z) weights →
     (∃ opt,
        _weighted_choice draws pos options weights
        = (Returned (Some opt), S pos)
        ∧ options !! (N.to_nat (draws pos) mod length options)%nat = Some opt)
     ∧ (∀ i opt, options !! i = Some opt →
          ∃ draws', _weighted_choice draws' pos options weights
                    = (Returned (Some opt), S pos)))
  ∧ (length options = length weights →
     Exists (λ w, (0 < w)%Z) weights →
     (positive_total weights < 2 ^ 53)%Z →
     ∃ r, Random.uniform draws pos (positive_total weights)
          = Returned (Float.Finite r)
        ∧ (0 <= r)%Q ∧ (r < inject_Z (positive_total weights))%Q
        ∧ ∃ i opt w,
            _weighted_choice draws pos options weights
            = (Returned (Some opt), S pos)
            ∧ options !! i = Some opt ∧ weights !! i = Some w ∧ (0 < w)%Z
            ∧ (r <= inject_Z (cumulative weights i))%Q
            ∧ ∀ j wj, (j < i)%nat → weights !! j = Some wj → (0 < wj)%Z →
                      (inject_Z (cumulative weights j) < r)%Q)
  ∧ match (_weighted_choice draws pos options weights).1 with
    | Returned (Some opt) => opt ∈ options
    | Returned None => False
    | OverflowError => True
    end.
Proof.
  intros Hne. split; [|split].
  - intros Hall. unfold _weighted_choice.
    rewrite (positive_total_all_nonpositive _ Hall).
    change (0 <=? 0)%Z with true. cbv iota.
    destruct options as [|o os] eqn:Hopts; [done|]. rewrite <- Hopts in *.
    split.
    + destruct (choice_elem draws pos options Hne) as (x & Hx & _).
      exists x. by rewrite Hx.
    + intros i opt Hi. exists (λ _, N.of_nat i).
      unfold Random.choice. rewrite Nat2N.id.
      rewrite Nat.mod_small by (by eapply lookup_lt_Some). by rewrite Hi.
  - intros Hlen Hsome Hsmall.
    pose proof (positive_total_positive _ Hsome) as Htotal.
    by apply weighted_choice_exact.
  - pose proof (weighted_choice_elem draws pos options weights) as Helem.
    pose proof (weighted_choice_not_None draws pos options weights Hne)
      as Hnot.
    destruct (_weighted_choice draws pos options weights).1 as [[opt|]|];
      [by apply Helem|done|done].
Qed.

Lemma weighted_choice_correct_witness :
  (∃ opt,
     _weighted_choice (λ _, 7%N) 0 ["A"; "B"; "C"] [0; -1; 0]%Z
     = (Returned (Some opt), 1%nat)
     ∧ ["A"; "B"; "C"] !! (N.to_nat 7 mod 3)%nat = Some opt)
  ∧ (∃ r, Random.uniform (λ _, 7%N) 0 (positive_total [0; 0; 5]%Z)
          = Returned (Float.Finite r)
        ∧ (0 <= r)%Q ∧ (r < inject_Z (positive_total [0; 0; 5]%Z))%Q
        ∧ ∃ i opt w,
            _weighted_choice (λ _, 7%N) 0 ["A"; "B"; "C"] [0; 0; 5]%Z
            = (Returned (Some opt), 1%nat)
            ∧ ["A"; "B"; "C"] !! i = Some opt
            ∧ [0; 0; 5]%Z !! i = Some w ∧ (0 < w)%Z
            ∧ (r <= inject_Z (cumulative [0; 0; 5]%Z i))%Q
            ∧ ∀ j wj, (j < i)%nat → [0; 0; 5]%Z !! j = Some wj →
                      (0 < wj)%Z →
                      (inject_Z (cumulative [0; 0; 5]%Z j) < r)%Q).
Proof.
  pose proof (weighted_choice_correct (λ _, 7%N) 0 ["A"; "B"; "C"]
                [0; -1; 0]%Z ltac:(discriminate)) as (Hflat & _ & _).
  pose proof (weighted_choice_correct (λ _, 7%N) 0 ["A"; "B"; "C"]
                [0; 0; 5]%Z ltac:(discriminate)) as (_ & Hwalk & _).
  split.
  - apply Hflat. repeat constructor; discriminate.
  - apply Hwalk; [reflexivity| |reflexivity].
    do 2 apply Exists_cons_tl. apply Exists_cons_hd. reflexivity.
Defined.

(** C8, as stated, fails where binary64 rounds.  With the weights
    [2 ^ 53, 1, 1, 1, 1, 0] and the largest draw, the draw is
    [2 ^ 53 + 2], the accumulation stays at [2 ^ 53] and the function
    falls back to the last option, whose weight is 0.  With the weights
    [1, 2] a draw whose exact product with 3 is above 1 is rounded to 1.0
    and selects the first option.  A total beyond the floats raises. *)
Lemma weighted_choice_falls_back :
  _weighted_choice (λ _, (2 ^ 53 - 1)%N) 0
    ["t0"; "t1"; "t2"; "t3"; "t4"; "t5"] [2 ^ 53; 1; 1; 1; 1; 0]%Z
  = (Returned (Some "t5"), 1%nat)
  ∧ Random.uniform (λ _, (2 ^ 53 - 1)%N) 0 (2 ^ 53 + 4)
    = Returned (Float.Finite (inject_Z (2 ^ 53 + 2)))
  ∧ _weighted_choice (λ _, 3002399751580331%N) 0 ["A"; "B"] [1; 2]%Z
    = (Returned (Some "A"), 1%nat)
  ∧ (cumulative [1; 2]%Z 0 = 1%Z
     ∧ (1 < 3 * Random.random (λ _, 3002399751580331%N) 0)%Q)
  ∧ _weighted_choice (λ _, 0%N) 0 ["A"] [10 ^ 400]%Z
    = (OverflowError, 1%nat).
Proof. by vm_compute. Qed.

(** Seven options of weight 100: the draw [700 * random()] rounds to 300.0,
    which the third cumulative weight reaches. *)
Example weighted_choice_rounded_draw :
  let draws : Random.source := λ _, 3860228252031854%N in
  Random.uniform draws 0 700 = Returned (Float.Finite 300)
  ∧ (300 < 700 * Random.random draws 0)%Q
  ∧ _weighted_choice draws 0 ["t0"; "t1"; "t2"; "t3"; "t4"; "t5"; "t6"]
      [100; 100; 100; 100; 100; 100; 100]%Z
    = (Returned (Some "t2"), 1%nat).
Proof. by vm_compute. Qed.

(** The scenario of the specification: weights [0, 0, 5] over [A, B, C]. *)
Example weighted_choice_005 (draws : Random.source) :
  (_weighted_choice draws 0 ["A"; "B"; "C"] [0; 0; 5]%Z).1
  = Returned (Some "C").
Proof.
  destruct (weighted_choice_exact draws 0 ["A"; "B"; "C"] [0; 0; 5]%Z)
    as (r & _ & _ & _ & i & opt & w & -> & Ho & Hw & Hpos & _);
    [done|done|].
  destruct i as [|[|[|i]]]; simplify_eq/=; done.
Qed.

(** ** [_merge_mapping_sets] *)

Section Merge.

Variable saved : gmap string MappingSet.

Lemma overlay_rarities_lookup entries (acc : gmap string Z) (k : string) :
  overlay_rarities entries acc !! k
  = match last (writes_to k entries) with
    | Some z => Some z
    | None => acc !! k
    end.
Proof.
  induction entries as [|[k' v] entries IH] using rev_ind; [done|].
  unfold overlay_rarities, writes_to in *.
  rewrite fold_left_app, omap_app, last_app. simpl.
  destruct v as [z|]; simpl; [|apply IH].
  destruct (decide (k' = k)) as [->|Hne]; simpl.
  - by rewrite lookup_insert_eq.
  - rewrite lookup_insert_ne by done. apply IH.
Qed.

Lemma append_pairs_app ps (acc : list (string * string)) :
  append_pairs ps acc = acc ++ two_element_pairs ps.
Proof.
  induction ps as [|p ps IH] using rev_ind.
  - unfold append_pairs, two_element_pairs. simpl. by rewrite app_nil_r.
  - unfold append_pairs, two_element_pairs in *.
    rewrite fold_left_app, omap_app, IH. simpl.
    destruct p as [[|a [|b [|c items]]]|]; simpl;
      by rewrite ?app_nil_r, ?app_assoc.
Qed.

Lemma bind_one {A B} (f : A → list B) (x : A) : [x] ≫= f = f x.
Proof. simpl. apply app_nil_r. Qed.

Lemma merge_fold_snoc names name acc :
  fold_left (merge_one saved) (names ++ [name]) acc
  = merge_one saved (fold_left (merge_one saved) names acc) name.
Proof. by rewrite fold_left_app. Qed.

(** What the loop over the names computes from an accumulator. *)
Lemma merge_fold_spec names (acc : MergedRules * list LogMsg) :
  let out := fold_left (merge_one saved) names acc in
  let sets := sets_in_order saved names in
  (∀ k, trait_rarities out.1 !! k
        = match last_writer k ms_rarities sets with
          | Some z => Some z
          | None => trait_rarities acc.1 !! k
          end)
  ∧ (∀ k, layer_rarities out.1 !! k
          = match last_writer k ms_layer_rarities sets with
            | Some z => Some z
            | None => layer_rarities acc.1 !! k
            end)
  ∧ include_pairs out.1
    = include_pairs acc.1 ++ (sets ≫= (λ m, two_element_pairs (ms_include_pairs m)))
  ∧ exclude_pairs out.1
    = exclude_pairs acc.1 ++ (sets ≫= (λ m, two_element_pairs (ms_exclude_pairs m)))
  ∧ out.2 = acc.2 ++ (WarnMappingSetNotFound <$> absent_names saved names).
Proof.
  induction names as [|name names IH] using rev_ind; intros out sets.
  - subst out sets. simpl. by rewrite !app_nil_r.
  - subst out sets. rewrite merge_fold_snoc.
    unfold sets_in_order, absent_names, last_writer in *.
    rewrite omap_app, filter_app, fmap_app. simpl.
    rewrite filter_cons, filter_nil.
    destruct IH as (Ht & Hl & Hi & He & Hw).
    set (prev := fold_left (merge_one saved) names acc) in *.
    unfold merge_one.
    destruct (saved !! name) as [m|] eqn:Hm; simpl.
    + repeat split.
      * intros k.
        rewrite overlay_rarities_lookup, bind_app, bind_one, last_app, Ht.
        by destruct (last (writes_to k (ms_rarities m))).
      * intros k.
        rewrite overlay_rarities_lookup, bind_app, bind_one, last_app, Hl.
        by destruct (last (writes_to k (ms_layer_rarities m))).
      * by rewrite append_pairs_app, Hi, bind_app, bind_one, app_assoc.
      * by rewrite append_pairs_app, He, bind_app, bind_one, app_assoc.
      * by rewrite Hw, !app_nil_r.
    + rewrite !app_nil_r. repeat split; try done.
      by rewrite Hw, app_assoc.
Qed.

End Merge.

Lemma merge_fold_ext (saved1 saved2 : gmap string MappingSet) names acc :
  (∀ name, name ∈ names → saved1 !! name = saved2 !! name) →
  fold_left (merge_one saved1) names acc
  = fold_left (merge_one saved2) names acc.
Proof.
  revert acc. induction names as [|name names IH]; intros acc Hagree; [done|].
  simpl. unfold merge_one at 2 4.
  rewrite (Hagree name) by left. apply IH.
  intros n Hn. apply Hagree. by right.
Qed.

Lemma merge_fold_fst (saved : gmap string MappingSet) names
    (acc acc' : MergedRules * list LogMsg) :
  acc.1 = acc'.1 →
  (fold_left (merge_one saved) names acc).1
  = (fold_left (merge_one saved) names acc').1.
Proof.
  revert acc acc'. induction names as [|name names IH]; intros acc acc' Heq;
    [done|].
  simpl. apply IH. unfold merge_one.
  destruct (saved !! name); simpl; by rewrite ?Heq.
Qed.

(** C9. The merger walks [mapping_sets] in list order: one more name is
    merged onto the result for the names before it; a name that finds no
    stored set only adds a warning to the log; a rarity key of the result
    holds what the last set in list order wrote to it; the pair lists are
    the concatenation, in list order and with repetitions kept, of the
    pairs of the sets; and the result depends only on the names and on what
    the lookup gives for them. *)
Theorem merge_mapping_sets_spec (names : list string) (file : SavedFile) :
  let saved := (load_saved file).1 in
  let out := _merge_mapping_sets names file in
  let sets := sets_in_order saved names in
  (∀ name, _merge_mapping_sets (names ++ [name]) file
           = merge_one saved out name)
  ∧ (∀ name, saved !! name = None →
       _merge_mapping_sets (names ++ [name]) file
       = (out.1, out.2 ++ [WarnMappingSetNotFound name]))
  ∧ (∀ k, trait_rarities out.1 !! k = last_writer k ms_rarities sets)
  ∧ (∀ k, layer_rarities out.1 !! k = last_writer k ms_layer_rarities sets)
  ∧ include_pairs out.1
    = sets ≫= (λ m, two_element_pairs (ms_include_pairs m))
  ∧ exclude_pairs out.1
    = sets ≫= (λ m, two_element_pairs (ms_exclude_pairs m))
  ∧ out.2 = (load_saved file).2
            ++ (WarnMappingSetNotFound <$> absent_names saved names)
  ∧ (∀ file',
       (∀ name, name ∈ names →
          (load_saved file').1 !! name = saved !! name) →
       (_merge_mapping_sets names file').1 = out.1).
Proof.
  intros saved out sets.
  assert (Hout : out = fold_left (merge_one saved) names
                         (empty_rules, (load_saved file).2)).
  { subst out saved. unfold _merge_mapping_sets. by destruct (load_saved file). }
  assert (Hsnoc : ∀ name, _merge_mapping_sets (names ++ [name]) file
                          = merge_one saved out name).
  { intros name. rewrite Hout. subst saved. unfold _merge_mapping_sets.
    destruct (load_saved file) as [sv ws]. apply merge_fold_snoc. }
  destruct (merge_fold_spec saved names (empty_rules, (load_saved file).2))
    as (Ht & Hl & Hi & He & Hw).
  rewrite <- Hout in Ht, Hl, Hi, He, Hw. simpl in Ht, Hl, Hi, He, Hw.
  fold sets in Ht, Hl, Hi, He.
  split; [done|]. split.
  { intros name Hnone. rewrite Hsnoc. unfold merge_one. by rewrite Hnone. }
  split.
  { intros k. rewrite Ht, lookup_empty. by destruct (last_writer _ _ _). }
  split.
  { intros k. rewrite Hl, lookup_empty. by destruct (last_writer _ _ _). }
  split; [done|]. split; [done|]. split; [done|].
  intros file' Hagree. rewrite Hout.
  unfold _merge_mapping_sets.
  destruct (load_saved file') as [saved' ws'] eqn:Hload. simpl in Hagree.
  rewrite (merge_fold_ext saved' saved) by done.
  apply merge_fold_fst. done.
Qed.

Lemma merge_mapping_sets_spec_witness :
  let red := {| ms_rarities := [("Hat:Red", IntLike 10)];
                ms_layer_rarities := []; ms_include_pairs := [];
                ms_exclude_pairs := [] |} in
  let file := FileLoaded {[ "base" := red ]} in
  _merge_mapping_sets (["base"] ++ ["ghost"]) file
  = ((_merge_mapping_sets ["base"] file).1,
     (_merge_mapping_sets ["base"] file).2 ++ [WarnMappingSetNotFound "ghost"]).
Proof.
  intros red file.
  apply (merge_mapping_sets_spec ["base"] file). reflexivity.
Defined.

(** Two sets writing the same keys: the later set wins each key it writes,
    an unconvertible value leaves the earlier one, pairs are kept twice. *)
Example merge_two_sets :
  let first := {| ms_rarities := [("Hat:Red", IntLike 10); ("Hat:Blue", IntLike 20)];
                  ms_layer_rarities := [("Hat", IntLike 50)];
                  ms_include_pairs := [PairList ["Hat:Red"; "Eyes:Open"]];
                  ms_exclude_pairs := [PairList ["a"]; NotAList] |} in
  let second := {| ms_rarities := [("Hat:Red", IntLike 70); ("Hat:Blue", NotIntLike)];
                   ms_layer_rarities := [];
                   ms_include_pairs := [PairList ["Hat:Red"; "Eyes:Open"]];
                   ms_exclude_pairs := [] |} in
  let out := _merge_mapping_sets ["one"; "missing"; "two"]
               (FileLoaded {[ "one" := first; "two" := second ]}) in
  trait_rarities out.1 !! "Hat:Red" = Some 70%Z
  ∧ trait_rarities out.1 !! "Hat:Blue" = Some 20%Z
  ∧ layer_rarities out.1 !! "Hat" = Some 50%Z
  ∧ include_pairs out.1 = [("Hat:Red", "Eyes:Open"); ("Hat:Red", "Eyes:Open")]
  ∧ exclude_pairs out.1 = []
  ∧ out.2 = [WarnMappingSetNotFound "missing"].
Proof. vm_compute. done. Qed.

(** ** The inclusion scans *)

Lemma force_inclusions_snoc key (selected : gmap string string) pairs ab forced :
  force_inclusions key selected (pairs ++ [ab]) forced
  = force_inclusions key selected [ab]
      (force_inclusions key selected pairs forced).
Proof. unfold force_inclusions. by rewrite fold_left_app. Qed.

(** The entry of a layer after the scan. *)
Lemma force_inclusions_lookup (key : string)
    (selected : gmap string string) (pairs : list (string * string))
    (forced : gmap string string) (lb : string) :
  force_inclusions key selected pairs forced !! lb
  = match selected !! lb, last (targets_for key lb pairs) with
    | None, Some tb => Some tb
    | _, _ => forced !! lb
    end.
Proof.
  induction pairs as [|[a b] pairs IH] using rev_ind.
  - simpl. by destruct (selected !! lb).
  - rewrite force_inclusions_snoc. unfold targets_for in *.
    rewrite omap_app, last_app. unfold force_inclusions at 1. simpl.
    destruct (bool_decide (key = a)); simpl; [|done].
    destruct (split_colon b) as [[l t]|]; simpl; [|done].
    destruct (decide (l = lb)) as [->|Hne]; simpl.
    + destruct (selected !! lb) eqn:Hsel; [done|].
      by rewrite lookup_insert_eq.
    + destruct (selected !! l); [done|].
      by rewrite lookup_insert_ne.
Qed.

(** C4 (amended). The scan after a selection assigns
    [forced_selection[lb] = tb] for every pair whose source is the selected
    key and whose target layer is not in [selected].  So a layer in
    [selected] keeps its entry, a layer no pair targets keeps its entry,
    and a layer outside [selected] ends with the target trait of the last
    matching pair in list order, whatever was forced for it before. *)
Theorem force_inclusions_last_match (key : string)
    (selected : gmap string string) (forced : gmap string string)
    (lb : string) :
  (∀ pairs, is_Some (selected !! lb) →
     force_inclusions key selected pairs forced !! lb = forced !! lb)
  ∧ (∀ pairs, targets_for key lb pairs = [] →
       force_inclusions key selected pairs forced !! lb = forced !! lb)
  ∧ (∀ before b after tb,
       split_colon b = Some (lb, tb) →
       selected !! lb = None →
       targets_for key lb after = [] →
       force_inclusions key selected (before ++ (key, b) :: after) forced !! lb
       = Some tb).
Proof.
  split; [|split].
  - intros pairs [t Ht]. by rewrite force_inclusions_lookup, Ht.
  - intros pairs Hnone. rewrite force_inclusions_lookup, Hnone.
    by destruct (selected !! lb).
  - intros before b after tb Hb Hsel Hafter.
    rewrite force_inclusions_lookup, Hsel.
    assert (targets_for key lb (before ++ (key, b) :: after)
            = targets_for key lb before ++ [tb]) as ->.
    { unfold targets_for in *. rewrite omap_app. f_equal. simpl.
      rewrite bool_decide_eq_true_2 by done. rewrite Hb.
      rewrite decide_True by done. by f_equal. }
    by rewrite last_snoc.
Qed.

Lemma force_inclusions_last_match_witness :
  force_inclusions "A:Red" {[ "A" := "Red" ]}
    ([("A:Red", "B:Blue")] ++ ("A:Red", "B:Green") :: [("A:Red", "C:Gold")])
    {[ "B" := "Pink" ]} !! "B"
  = Some "Green".
Proof.
  apply (force_inclusions_last_match "A:Red" {[ "A" := "Red" ]}
           {[ "B" := "Pink" ]} "B"); reflexivity.
Defined.

(** C4, as stated, fails: the second matching pair replaces the trait that
    the first one forced for the same layer. *)
Lemma force_inclusions_overrides :
  let pairs := [("A:Red", "B:Blue"); ("A:Red", "B:Green")] in
  let chosen : gmap string string := {[ "A" := "Red" ]} in
  force_inclusions "A:Red" chosen (take 1 pairs) ∅ !! "B" = Some "Blue"
  ∧ force_inclusions "A:Red" chosen pairs ∅ !! "B" = Some "Green".
Proof. by vm_compute. Qed.

Lemma force_inclusions_origin key (selected : gmap string string) pairs forced
    (l t : string) :
  force_inclusions key selected pairs forced !! l = Some t →
  forced !! l = Some t
  ∨ ∃ b, (key, b) ∈ pairs ∧ split_colon b = Some (l, t).
Proof.
  induction pairs as [|[a b] pairs IH] using rev_ind; [by left|].
  rewrite force_inclusions_snoc. unfold force_inclusions at 1. simpl.
  assert (Hold : force_inclusions key selected pairs forced !! l = Some t →
                 forced !! l = Some t
                 ∨ ∃ b0, (key, b0) ∈ pairs ++ [(a, b)]
                         ∧ split_colon b0 = Some (l, t)).
  { intros H. destruct (IH H) as [?|(b0 & Hin & Hs)]; [by left|right].
    exists b0. split; [|done]. apply elem_of_app. by left. }
  case_bool_decide as Hkey; [|done]. subst a.
  destruct (split_colon b) as [[lb tb]|] eqn:Hb; [|done].
  destruct (selected !! lb); [done|].
  destruct (decide (lb = l)) as [->|Hne].
  - rewrite lookup_insert_eq. intros [= ->]. right. exists b.
    split; [|done]. apply elem_of_app. right. by left.
  - by rewrite lookup_insert_ne.
Qed.

Lemma force_inclusions_mono key (selected : gmap string string) pairs forced
    (l : string) :
  is_Some (forced !! l) →
  is_Some (force_inclusions key selected pairs forced !! l).
Proof.
  intros Hsome. rewrite force_inclusions_lookup.
  destruct (selected !! l); [done|].
  by destruct (last _).
Qed.

Lemma force_inclusions_hits key (selected : gmap string string) pairs forced
    (b lb tb : string) :
  (key, b) ∈ pairs → split_colon b = Some (lb, tb) →
  selected !! lb = None →
  is_Some (force_inclusions key selected pairs forced !! lb).
Proof.
  intros Hin Hb Hsel. rewrite force_inclusions_lookup, Hsel.
  assert (tb ∈ targets_for key lb pairs) as Htb.
  { apply list_elem_of_omap. exists (key, b). split; [done|]. simpl.
    rewrite bool_decide_eq_true_2 by done. rewrite Hb.
    by rewrite decide_True. }
  destruct (last (targets_for key lb pairs)) eqn:Hlast; [done|].
  apply last_None in Hlast. rewrite Hlast in Htb. by apply elem_of_nil in Htb.
Qed.

Lemma required_trait_Some pairs (selected_keys : list string) layer tb :
  required_trait pairs selected_keys layer = Some tb →
  ∃ a b, (a, b) ∈ pairs ∧ a ∈ selected_keys
         ∧ split_colon b = Some (layer, tb).
Proof.
  induction pairs as [|[a b] pairs IH]; [done|]. simpl.
  assert (Hrest : required_trait pairs selected_keys layer = Some tb →
                  ∃ a0 b0, (a0, b0) ∈ (a, b) :: pairs ∧ a0 ∈ selected_keys
                           ∧ split_colon b0 = Some (layer, tb)).
  { intros H. destruct (IH H) as (a0 & b0 & Hin & Hsel & Hs).
    exists a0, b0. split; [by right|done]. }
  destruct (split_colon a) as [[la ta]|] eqn:Ha; [|done].
  destruct (split_colon b) as [[lb tb']|] eqn:Hb; [|done].
  destruct (bool_decide (make_key la ta ∈ selected_keys)) eqn:Hsel; [|done].
  destruct (bool_decide (lb = layer)) eqn:Hl; [|done]. simpl.
  intros [= ->]. apply bool_decide_eq_true in Hsel, Hl. subst lb.
  rewrite (split_colon_join _ _ _ Ha) in Hsel.
  exists a, b. split; [by left|done].
Qed.

(** ** What [_weighted_choice] and the viable options give *)

Lemma is_excluded_true candidate_key selected_keys exclude_pairs :
  _is_excluded_by_pairs candidate_key selected_keys exclude_pairs = true ↔
  ∃ sk, sk ∈ selected_keys
        ∧ ((candidate_key, sk) ∈ exclude_pairs
           ∨ (sk, candidate_key) ∈ exclude_pairs).
Proof.
  unfold _is_excluded_by_pairs. split.
  - destruct exclude_pairs as [|p ps] eqn:Hex; [done|]. rewrite <- Hex. clear Hex.
    intros (sk & Hsk & Hpair)%existsb_exists.
    apply existsb_exists in Hpair as ([a b] & Hab & Hmatch).
    exists sk. split; [by apply list_elem_of_In|].
    apply list_elem_of_In in Hab. simpl in Hmatch.
    apply orb_true_iff in Hmatch as [H|H];
      apply andb_true_iff in H as [H1 H2];
      apply bool_decide_eq_true in H1, H2; subst; auto.
  - intros (sk & Hsk & Hpair).
    assert (existsb (λ sk0,
              existsb (λ ab : string * string,
                (bool_decide (candidate_key = ab.1) && bool_decide (sk0 = ab.2))
                || (bool_decide (candidate_key = ab.2) && bool_decide (sk0 = ab.1)))
                exclude_pairs) selected_keys = true) as Hscan.
    { apply existsb_exists. exists sk. split; [by apply list_elem_of_In|].
      apply existsb_exists.
      destruct Hpair as [Hin|Hin];
        [exists (candidate_key, sk)|exists (sk, candidate_key)];
        (split; [by apply list_elem_of_In|]);
        simpl;
        rewrite (bool_decide_eq_true_2 (candidate_key = candidate_key)),
          (bool_decide_eq_true_2 (sk = sk)) by done;
        by rewrite ?orb_true_r. }
    destruct exclude_pairs; [|done].
    destruct Hpair as [Hin|Hin]; by apply elem_of_nil in Hin.
Qed.

Lemma is_excluded_false candidate_key selected_keys exclude_pairs sk :
  _is_excluded_by_pairs candidate_key selected_keys exclude_pairs = false →
  sk ∈ selected_keys →
  ((candidate_key, sk) ∉ exclude_pairs) ∧ ((sk, candidate_key) ∉ exclude_pairs).
Proof.
  intros Hfalse Hsk.
  split; intros Hin;
    (assert (_is_excluded_by_pairs candidate_key selected_keys exclude_pairs
             = true) as Htrue by (apply is_excluded_true; eauto));
    congruence.
Qed.

Lemma viable_options_elem rules layer options selected_keys t :
  t ∈ (viable_options rules layer options selected_keys).*1 →
  t ∈ options
  ∧ _is_excluded_by_pairs (make_key layer t) selected_keys (exclude_pairs rules)
    = false.
Proof.
  intros ([t' w] & -> & Hin)%list_elem_of_fmap. simpl.
  apply list_elem_of_omap in Hin as (t0 & Ht0 & Hsome). cbv zeta in Hsome.
  destruct (_is_excluded_by_pairs (make_key layer t0) selected_keys
              (exclude_pairs rules)) eqn:Hex; [done|].
  injection Hsome as -> _. done.
Qed.

Lemma viable_options_no_exclusions rules layer options selected_keys :
  exclude_pairs rules = [] →
  (viable_options rules layer options selected_keys).*1 = options.
Proof.
  intros Hnone. unfold viable_options, _is_excluded_by_pairs. rewrite Hnone.
  induction options as [|t ts IH]; [done|]. simpl. f_equal. exact IH.
Qed.

(** ** Invariants of the layer walk *)

Section SelectionInvariant.

Variable draws : Random.source.
Variable all_traits : gmap string (list string).
Variable rules : MergedRules.

Lemma justified_snoc keys k :
  justified rules keys →
  inclusion_driven rules k keys ∨ compatible rules k keys →
  justified rules (keys ++ [k]).
Proof.
  intros Hj Hk earlier k' later Heq.
  destruct later as [|x later _] using rev_ind.
  - apply app_inj_tail in Heq as [-> ->]. done.
  - change (earlier ++ k' :: later ++ [x])
      with (earlier ++ (k' :: later) ++ [x]) in Heq.
    rewrite app_assoc in Heq. apply app_inj_tail in Heq as [-> _].
    by eapply Hj.
Qed.

Lemma inclusion_driven_snoc k keys x :
  inclusion_driven rules k keys → inclusion_driven rules k (keys ++ [x]).
Proof.
  intros (a & Hin & Ha). exists a. split; [done|].
  apply elem_of_app. by left.
Qed.

Lemma fresh_edition_inv pos : selection_inv rules (fresh_edition pos).
Proof.
  constructor; simpl.
  - intros earlier k later Heq. by destruct earlier.
  - intros l t Hl. by rewrite lookup_empty in Hl.
  - intros l t Hl. by rewrite lookup_empty in Hl.
  - intros a b lb tb _ Ha. by apply elem_of_nil in Ha.
Qed.

Lemma with_rng_inv pos s : selection_inv rules s → selection_inv rules (with_rng pos s).
Proof. intros [H1 H2 H3 H4]. by constructor. Qed.

Lemma warn_inv msg s : selection_inv rules s → selection_inv rules (warn msg s).
Proof. intros [H1 H2 H3 H4]. by constructor. Qed.

Lemma raise_inv s : selection_inv rules s → selection_inv rules (raise s).
Proof. intros [H1 H2 H3 H4]. by constructor. Qed.

Lemma register_inv layer chosen_trait s :
  selection_inv rules s →
  inclusion_driven rules (make_key layer chosen_trait) (selected_keys s)
  ∨ compatible rules (make_key layer chosen_trait) (selected_keys s) →
  selection_inv rules (register rules layer chosen_trait s).
Proof.
  intros [Hkeys Hforced Hsel Hchain] Hk. constructor; simpl.
  - by apply justified_snoc.
  - intros l t Hl.
    apply force_inclusions_origin in Hl as [Hold|(b & Hin & Hb)].
    + by apply inclusion_driven_snoc, Hforced.
    + apply split_colon_join in Hb. subst b.
      exists (make_key layer chosen_trait). split; [done|].
      apply elem_of_app. right. by left.
  - intros l t Hl. apply elem_of_app.
    destruct (decide (layer = l)) as [->|Hne].
    + rewrite lookup_insert_eq in Hl. injection Hl as ->. right. by left.
    + rewrite lookup_insert_ne in Hl by done. left. by apply Hsel.
  - intros a b lb tb Hin Ha Hb.
    destruct (<[layer:=chosen_trait]> (selected s) !! lb) eqn:Hlb;
      [by left|right].
    apply elem_of_app in Ha as [Ha|Ha].
    + apply force_inclusions_mono.
      destruct (Hchain a b lb tb Hin Ha Hb) as [[t Ht]|Hf]; [|done].
      destruct (decide (layer = lb)) as [->|Hne].
      * by rewrite lookup_insert_eq in Hlb.
      * rewrite lookup_insert_ne in Hlb by done. congruence.
    + apply list_elem_of_singleton in Ha. subst a.
      by eapply force_inclusions_hits.
Qed.

Lemma choose_trait_inv layer options s :
  selection_inv rules s →
  selection_inv rules (choose_trait draws rules layer options s).
Proof.
  intros Hinv. unfold choose_trait.
  destruct (required_trait _ _ _) as [required|] eqn:Hreq.
  - case_bool_decide; [|by apply warn_inv].
    apply register_inv; [done|]. left.
    apply required_trait_Some in Hreq as (a & b & Hin & Ha & Hb).
    apply split_colon_join in Hb. subst b. by exists a.
  - destruct (viable_options rules layer options (selected_keys s))
      as [|v vs] eqn:Hviable; [done|]. rewrite <- Hviable.
    destruct (_weighted_choice _ _ _ _) as [chosen pos] eqn:Hchoice.
    destruct chosen as [[t|]|];
      [|by apply with_rng_inv|by apply raise_inv, with_rng_inv].
    apply register_inv; [by apply with_rng_inv|]. right. simpl.
    assert (t ∈ (viable_options rules layer options (selected_keys s)).*1)
      as Ht.
    { eapply weighted_choice_elem. by rewrite Hchoice. }
    apply viable_options_elem in Ht as [_ Hex].
    intros sk Hsk. by eapply is_excluded_false.
Qed.

Lemma select_layer_inv s layer :
  selection_inv rules s → selection_inv rules (select_layer draws all_traits rules s layer).
Proof.
  intros Hinv. unfold select_layer.
  destruct (raised s); [done|].
  destruct (default [] (all_traits !! layer)) as [|o os]; [done|].
  destruct (forced_selection s !! layer) as [forced_trait|] eqn:Hforced.
  - rewrite bool_decide_eq_true_2 by done. rewrite Hforced.
    apply register_inv; [done|]. left. by apply (inv_forced rules s).
  - rewrite bool_decide_eq_false_2 by (by intros [? ?]).
    destruct (layer_skipped _ _) as [[]|];
      [by apply with_rng_inv| |by apply raise_inv, with_rng_inv].
    simpl. rewrite Hforced. by apply choose_trait_inv, with_rng_inv.
Qed.

Lemma select_layers_inv layers s :
  selection_inv rules s →
  selection_inv rules (fold_left (select_layer draws all_traits rules) layers s).
Proof.
  revert s. induction layers as [|layer layers IH]; intros s Hinv; [done|].
  simpl. by apply IH, select_layer_inv.
Qed.

Lemma select_edition_inv final_layer_order pos :
  selection_inv rules
    (select_edition draws all_traits rules final_layer_order pos).
Proof. apply select_layers_inv, fresh_edition_inv. Qed.

End SelectionInvariant.

(** ** Exclusion pairs *)

Lemma two_keys_ordered (keys : list string) (x y : string) :
  x ∈ keys → y ∈ keys → x ≠ y →
  (∃ earlier later, keys = earlier ++ y :: later ∧ x ∈ earlier)
  ∨ (∃ earlier later, keys = earlier ++ x :: later ∧ y ∈ earlier).
Proof.
  intros Hx Hy Hne.
  apply list_elem_of_split in Hy as (l1 & l2 & ->).
  apply elem_of_app in Hx as [Hx|Hx].
  - left. by exists l1, l2.
  - apply elem_of_cons in Hx as [->|Hx]; [done|].
    apply list_elem_of_split in Hx as (l3 & l4 & ->). right.
    exists (l1 ++ y :: l3), l4. split.
    + by rewrite <- app_assoc.
    + apply elem_of_app. right. by left.
Qed.

(** X2. The exclusion pairs are checked only where a trait is drawn by weighted
    choice.  In every edition each selected key is either the target of an
    inclusion pair whose source key was selected before it (a forced or
    required trait), or in no exclusion pair with any key selected before
    it.  Hence two different keys of an exclusion pair are both in a
    selection only if one of them is the target of an inclusion pair whose
    source key is selected; without inclusion pairs, never. *)
Lemma exclusion_unless_included (draws : Random.source)
    (all_traits : gmap string (list string)) (rules : MergedRules)
    (final_layer_order : list string) (pos : nat) :
  let s := select_edition draws all_traits rules final_layer_order pos in
  (∀ earlier k later, selected_keys s = earlier ++ k :: later →
     inclusion_driven rules k earlier ∨ compatible rules k earlier)
  ∧ (∀ la ta lb tb,
       selected s !! la = Some ta → selected s !! lb = Some tb →
       make_key la ta ≠ make_key lb tb →
       (make_key la ta, make_key lb tb) ∈ exclude_pairs rules →
       ∃ a, a ∈ selected_keys s
            ∧ ((a, make_key la ta) ∈ include_pairs rules
               ∨ (a, make_key lb tb) ∈ include_pairs rules))
  ∧ (include_pairs rules = [] →
     ∀ la ta lb tb,
       selected s !! la = Some ta → selected s !! lb = Some tb →
       make_key la ta ≠ make_key lb tb →
       (make_key la ta, make_key lb tb) ∉ exclude_pairs rules).
Proof.
  intros s.
  pose proof (select_edition_inv draws all_traits rules final_layer_order pos)
    as [Hkeys _ Hsel _]. fold s in Hkeys, Hsel.
  assert (Hboth : ∀ la ta lb tb,
            selected s !! la = Some ta → selected s !! lb = Some tb →
            make_key la ta ≠ make_key lb tb →
            (make_key la ta, make_key lb tb) ∈ exclude_pairs rules →
            ∃ a, a ∈ selected_keys s
                 ∧ ((a, make_key la ta) ∈ include_pairs rules
                    ∨ (a, make_key lb tb) ∈ include_pairs rules)).
  { intros la ta lb tb Ha Hb Hne Hex.
    apply Hsel in Ha, Hb.
    destruct (two_keys_ordered _ _ _ Ha Hb Hne)
      as [(earlier & later & Heq & Hin)|(earlier & later & Heq & Hin)];
      destruct (Hkeys _ _ _ Heq) as [(a & Hpair & Hsrc)|Hcompat].
    - exists a. split; [|by right].
      rewrite Heq. apply elem_of_app. by left.
    - by destruct (Hcompat _ Hin) as [_ []].
    - exists a. split; [|by left].
      rewrite Heq. apply elem_of_app. by left.
    - by destruct (Hcompat _ Hin) as [[] _]. }
  split; [done|]. split; [done|].
  intros Hnone la ta lb tb Ha Hb Hne Hex.
  destruct (Hboth la ta lb tb Ha Hb Hne Hex) as (a & _ & [Hin|Hin]);
    rewrite Hnone in Hin; by apply elem_of_nil in Hin.
Qed.

Lemma exclusion_unless_included_witness :
  let rules := {| trait_rarities := ∅; layer_rarities := ∅;
                  include_pairs := [("A:Red", "B:Blue")];
                  exclude_pairs := [("A:Red", "B:Blue")] |} in
  let s := select_edition (λ _, 0%N) {[ "A" := ["Red"]; "B" := ["Blue"; "Green"] ]}
             rules ["A"; "B"] 0 in
  ∃ a, a ∈ selected_keys s
       ∧ ((a, make_key "A" "Red") ∈ include_pairs rules
          ∨ (a, make_key "B" "Blue") ∈ include_pairs rules).
Proof.
  intros rules s.
  apply (exclusion_unless_included (λ _, 0%N)
           {[ "A" := ["Red"]; "B" := ["Blue"; "Green"] ]} rules ["A"; "B"] 0).
  - by vm_compute.
  - by vm_compute.
  - by vm_compute.
  - vm_compute. left.
Defined.

(** ** More about the layer walk *)

Section WalkFacts.

Variable draws : Random.source.
Variable all_traits : gmap string (list string).
Variable rules : MergedRules.

Local Abbreviation step := (select_layer draws all_traits rules).

(** A layer step changes the entry of no other layer. *)
Lemma choose_trait_off_layer layer options s (l : string) :
  l ≠ layer →
  selected (choose_trait draws rules layer options s) !! l = selected s !! l.
Proof.
  intros Hne. unfold choose_trait.
  destruct (required_trait _ _ _).
  - case_bool_decide; [|done]. simpl. by rewrite lookup_insert_ne.
  - destruct (viable_options _ _ _ _); [done|].
    destruct (_weighted_choice _ _ _ _) as [[[t|]|] pos]; [|done..].
    simpl. by rewrite lookup_insert_ne.
Qed.

Lemma select_layer_off_layer s layer (l : string) :
  l ≠ layer → selected (step s layer) !! l = selected s !! l.
Proof.
  intros Hne. unfold select_layer.
  destruct (raised s); [done|].
  destruct (default [] (all_traits !! layer)); [done|].
  destruct (bool_decide _);
    [|destruct (layer_skipped _ _) as [[]|]; [done| |done]];
    simpl; (destruct (forced_selection s !! layer);
            [simpl; by rewrite lookup_insert_ne
            |by rewrite choose_trait_off_layer]).
Qed.

Lemma select_layers_off_layers layers s (l : string) :
  l ∉ layers → selected (fold_left step layers s) !! l = selected s !! l.
Proof.
  revert s. induction layers as [|layer layers IH]; intros s Hnot; [done|].
  simpl. apply not_elem_of_cons in Hnot as [Hne Hnot].
  rewrite IH by done. by apply select_layer_off_layer.
Qed.

(** Selected keys are never taken back. *)
Lemma choose_trait_keeps_keys layer options s (k : string) :
  k ∈ selected_keys s →
  k ∈ selected_keys (choose_trait draws rules layer options s).
Proof.
  intros Hk. unfold choose_trait.
  destruct (required_trait _ _ _).
  - case_bool_decide; [|done]. simpl. apply elem_of_app. by left.
  - destruct (viable_options _ _ _ _); [done|].
    destruct (_weighted_choice _ _ _ _) as [[[t|]|] pos]; [|done..].
    simpl. apply elem_of_app. by left.
Qed.

Lemma select_layer_keeps_keys s layer (k : string) :
  k ∈ selected_keys s → k ∈ selected_keys (step s layer).
Proof.
  intros Hk. unfold select_layer.
  destruct (raised s); [done|].
  destruct (default [] (all_traits !! layer)); [done|].
  destruct (bool_decide _);
    [|destruct (layer_skipped _ _) as [[]|]; [done| |done]];
    simpl; (destruct (forced_selection s !! layer);
            [simpl; apply elem_of_app; by left
            |by apply choose_trait_keeps_keys]).
Qed.

Lemma select_layers_keep_keys layers s (k : string) :
  k ∈ selected_keys s → k ∈ selected_keys (fold_left step layers s).
Proof.
  revert s. induction layers as [|layer layers IH]; intros s Hk; [done|].
  simpl. by apply IH, select_layer_keeps_keys.
Qed.

(** Where a selected trait comes from: the catalog of its layer, or the
    target of an inclusion pair. *)
Lemma select_layer_origin s layer :
  selection_inv rules s →
  (∀ l t, selected s !! l = Some t →
     t ∈ default [] (all_traits !! l)
     ∨ ∃ a, (a, make_key l t) ∈ include_pairs rules) →
  ∀ l t, selected (step s layer) !! l = Some t →
    t ∈ default [] (all_traits !! l)
    ∨ ∃ a, (a, make_key l t) ∈ include_pairs rules.
Proof.
  intros Hinv Hold l t.
  destruct (decide (l = layer)) as [->|Hne];
    [|rewrite select_layer_off_layer by done; apply Hold].
  unfold select_layer.
  destruct (raised s); [apply Hold|].
  destruct (default [] (all_traits !! layer)) as [|o os] eqn:Hopts;
    [intros Hl; rewrite <- Hopts; by apply Hold|].
  assert (Hchoose : ∀ s', selected s' = selected s →
            selected_keys s' = selected_keys s →
            selected (choose_trait draws rules layer (o :: os) s') !! layer
            = Some t →
            t ∈ o :: os ∨ ∃ a, (a, make_key layer t) ∈ include_pairs rules).
  { intros s' Hsel Hkeys. unfold choose_trait.
    destruct (required_trait _ _ _) as [required|].
    - case_bool_decide as Hreq.
      + simpl. rewrite lookup_insert_eq. intros [= <-]. by left.
      + simpl. rewrite Hsel. intros Hl. rewrite <- Hopts. by apply Hold.
    - destruct (viable_options rules layer (o :: os) (selected_keys s'))
        as [|v vs] eqn:Hviable.
      { rewrite Hsel. intros Hl. rewrite <- Hopts. by apply Hold. }
      rewrite <- Hviable.
      destruct (_weighted_choice _ _ _ _) as [[[chosen|]|] pos] eqn:Hchoice.
      + simpl. rewrite lookup_insert_eq. intros [= <-]. left.
        assert (chosen ∈ (viable_options rules layer (o :: os)
                            (selected_keys s')).*1) as Hin.
        { eapply weighted_choice_elem. by rewrite Hchoice. }
        by apply viable_options_elem in Hin as [Hin _].
      + simpl. rewrite Hsel. intros Hl. rewrite <- Hopts. by apply Hold.
      + simpl. rewrite Hsel. intros Hl. rewrite <- Hopts. by apply Hold. }
  destruct (forced_selection s !! layer) as [forced_trait|] eqn:Hforced.
  - rewrite bool_decide_eq_true_2 by done. rewrite Hforced. simpl.
    rewrite lookup_insert_eq. intros [= <-]. right.
    destruct (inv_forced rules s Hinv _ _ Hforced) as (a & Ha & _). by exists a.
  - rewrite bool_decide_eq_false_2 by (by intros [? ?]).
    destruct (layer_skipped _ _) as [[]|].
    + simpl. intros Hl. rewrite <- Hopts. by apply Hold.
    + simpl. rewrite Hforced. by apply Hchoose.
    + simpl. intros Hl. rewrite <- Hopts. by apply Hold.
Qed.

Lemma select_edition_origin final_layer_order pos (l t : string) :
  selected (select_edition draws all_traits rules final_layer_order pos) !! l
  = Some t →
  l ∈ final_layer_order
  ∧ (t ∈ default [] (all_traits !! l)
     ∨ ∃ a, (a, make_key l t) ∈ include_pairs rules).
Proof.
  intros Hl. split.
  - destruct (decide (l ∈ final_layer_order)) as [|Hnot]; [done|].
    unfold select_edition in Hl.
    rewrite select_layers_off_layers in Hl by done.
    simpl in Hl. by rewrite lookup_empty in Hl.
  - revert l t Hl. unfold select_edition.
    assert (Hinit : ∀ l t, selected (fresh_edition pos) !! l = Some t →
              t ∈ default [] (all_traits !! l)
              ∨ ∃ a, (a, make_key l t) ∈ include_pairs rules).
    { intros l t Hl. simpl in Hl. by rewrite lookup_empty in Hl. }
    pose proof (fresh_edition_inv rules pos) as Hinv.
    revert Hinv Hinit. generalize (fresh_edition pos) as s.
    induction final_layer_order as [|layer layers IH]; intros s Hinv Hold;
      [done|].
    simpl. apply IH; [by apply select_layer_inv|].
    by apply select_layer_origin.
Qed.

End WalkFacts.

(** ** The attribute list *)

Lemma attributes_of_elem final_layer_order (sel : gmap string string)
    (l t : string) :
  (l, t) ∈ attributes_of final_layer_order sel ↔
  l ∈ final_layer_order ∧ sel !! l = Some t ∧ concrete t = true.
Proof.
  unfold attributes_of. rewrite list_elem_of_omap. split.
  - intros (layer & Hin & Hsome).
    destruct (sel !! layer) as [trait|] eqn:Hl; [|done].
    destruct (concrete trait) eqn:Hc; [|done].
    injection Hsome as -> ->. done.
  - intros (Hin & Hl & Hc). exists l. split; [done|]. by rewrite Hl, Hc.
Qed.

Lemma attributes_of_sublist final_layer_order (sel : gmap string string) :
  (attributes_of final_layer_order sel).*1 `sublist_of` final_layer_order.
Proof.
  unfold attributes_of.
  induction final_layer_order as [|l order IH]; [done|]. simpl.
  destruct (sel !! l) as [t|]; [destruct (concrete t)|]; simpl;
    by constructor.
Qed.

Lemma concrete_true (t : string) :
  concrete t = true ↔ t ≠ "" ∧ t ≠ "__none__".
Proof.
  unfold concrete.
  rewrite andb_true_iff, !negb_true_iff, !bool_decide_eq_false. done.
Qed.

(** ** Presence of layers *)

Lemma layer_probability_100 :
  layer_probability 100 = Returned (Float.Finite 1).
Proof. by vm_compute. Qed.

Lemma layer_probability_0 :
  layer_probability 0 = Returned (Float.Finite 0).
Proof. by vm_compute. Qed.

Lemma layer_skipped_100 (r : Q) :
  (r < 1)%Q → layer_skipped 100 r = Returned false.
Proof.
  intros Hr. unfold layer_skipped. rewrite layer_probability_100.
  cbn [Float.le]. f_equal. apply negb_false_iff, Qle_bool_iff. lra.
Qed.

(** A layer of rarity 0 is skipped exactly when the draw is not 0. *)
Lemma layer_skipped_0 (r : Q) :
  layer_skipped 0 r = Returned (negb (Qle_bool r 0))
  ∧ (layer_skipped 0 r = Returned true ↔ (0 < r)%Q).
Proof.
  unfold layer_skipped. rewrite layer_probability_0. cbn [Float.le].
  split; [done|]. split.
  - intros [= Hskip]. apply negb_true_iff in Hskip.
    by apply Qle_bool_false.
  - intros Hr. f_equal. apply negb_true_iff.
    destruct (Qle_bool r 0) eqn:E; [|done].
    apply Qle_bool_iff in E. lra.
Qed.

(** The probability is the float nearest to the quotient: [40 / 100.0] is
    above two fifths, and a draw between the two keeps the layer. *)
Example layer_kept_at_rounded_rarity :
  let r := (3602879701896397 # 9007199254740992)%Q in
  layer_probability 40 = Returned (Float.Finite r)
  ∧ (40 / 100 < r)%Q
  ∧ layer_skipped 40 r = Returned false.
Proof. by vm_compute. Qed.

(** A layer rarity beyond the floats raises at the division. *)
Example layer_rarity_overflows (r : Q) :
  layer_skipped (10 ^ 400) r = OverflowError.
Proof. by vm_compute. Qed.

(** A negative layer rarity skips the layer at every draw, or raises when
    it is beyond the floats. *)
Lemma layer_skipped_negative (p : Z) (r : Q) :
  (p < 0)%Z → (0 <= r)%Q →
  layer_skipped p r = Returned true ∨ layer_skipped p r = OverflowError.
Proof.
  intros Hp Hr. unfold layer_skipped, layer_probability, Float.of_int.
  pose proof (round_negative_int p Hp) as Hq.
  destruct (Float.round (inject_Z p)) as [q|]; [|by right].
  pose proof (round_negative_percent q Hq) as Hy.
  left. f_equal. apply negb_true_iff.
  destruct (Float.round (q / 100)) as [y|negative]; simpl.
  - destruct (Qle_bool r y) eqn:E; [|done].
    apply Qle_bool_iff in E. lra.
  - by subst negative.
Qed.

Section Presence.

Variable draws : Random.source.
Variable all_traits : gmap string (list string).
Variable rules : MergedRules.

Local Abbreviation step := (select_layer draws all_traits rules).

(** Once the walk has been left nothing changes. *)
Lemma select_layer_raised s layer : raised s = true → step s layer = s.
Proof. intros Hraised. unfold select_layer. by rewrite Hraised. Qed.

Lemma select_layers_raised layers s :
  raised s = true → fold_left step layers s = s.
Proof.
  induction layers as [|layer layers IH]; intros Hraised; [done|].
  simpl. by rewrite select_layer_raised, IH.
Qed.

Lemma select_layers_completed layers s :
  raised (fold_left step layers s) = false → raised s = false.
Proof.
  intros Hdone. destruct (raised s) eqn:Hraised; [|done].
  by rewrite select_layers_raised, Hraised in Hdone.
Qed.

Lemma register_selected layer chosen_trait s :
  selected (register rules layer chosen_trait s) !! layer = Some chosen_trait.
Proof. simpl. apply lookup_insert_eq. Qed.

Lemma register_selected_mono layer chosen_trait s (l : string) :
  is_Some (selected s !! l) →
  is_Some (selected (register rules layer chosen_trait s) !! l).
Proof.
  intros H. simpl. destruct (decide (layer = l)) as [->|Hne].
  - by rewrite lookup_insert_eq.
  - by rewrite lookup_insert_ne.
Qed.

Lemma choose_trait_selected_mono layer options s (l : string) :
  is_Some (selected s !! l) →
  is_Some (selected (choose_trait draws rules layer options s) !! l).
Proof.
  intros H. unfold choose_trait.
  destruct (required_trait _ _ _).
  - case_bool_decide; [by apply register_selected_mono|done].
  - destruct (viable_options _ _ _ _); [done|].
    destruct (_weighted_choice _ _ _ _) as [[[t|]|] pos]; [|done..].
    by apply register_selected_mono.
Qed.

Lemma select_layer_selected_mono s layer (l : string) :
  is_Some (selected s !! l) → is_Some (selected (step s layer) !! l).
Proof.
  intros H. unfold select_layer.
  destruct (raised s); [done|].
  destruct (default [] (all_traits !! layer)); [done|].
  destruct (bool_decide _);
    [|destruct (layer_skipped _ _) as [[]|]; [done| |done]];
    simpl; (destruct (forced_selection s !! layer);
            [by apply register_selected_mono
            |by apply choose_trait_selected_mono]).
Qed.

Lemma select_layers_selected_mono layers s (l : string) :
  is_Some (selected s !! l) →
  is_Some (selected (fold_left step layers s) !! l).
Proof.
  revert s. induction layers as [|layer layers IH]; intros s H; [done|].
  simpl. by apply IH, select_layer_selected_mono.
Qed.

Hypothesis all_rarities_100 :
  ∀ l p, layer_rarities rules !! l = Some p → p = 100%Z.
Hypothesis no_exclusions : exclude_pairs rules = [].

Lemma choose_trait_present s layer options :
  selection_inv rules s →
  forced_selection s !! layer = None → options ≠ [] →
  raised (choose_trait draws rules layer options s) = false →
  is_Some (selected (choose_trait draws rules layer options s) !! layer).
Proof.
  intros Hinv Hforced Hne. unfold choose_trait.
  destruct (required_trait _ _ _) as [required|] eqn:Hreq.
  - apply required_trait_Some in Hreq as (a & b & Hin & Ha & Hb).
    destruct (inv_chain rules s Hinv a b layer required Hin Ha Hb)
      as [Hsel|[? Hf]]; [|congruence].
    case_bool_decide; [|done].
    intros _. by apply register_selected_mono.
  - pose proof (viable_options_no_exclusions rules layer options
                  (selected_keys s) no_exclusions) as Hviable.
    destruct (viable_options rules layer options (selected_keys s))
      as [|v vs] eqn:Hv; [by rewrite <- Hviable in Hne|].
    rewrite Hviable.
    pose proof (weighted_choice_not_None draws (rng s) options
                  ((v :: vs).*2) Hne) as Hnot.
    destruct (_weighted_choice _ _ _ _) as [[[t|]|] pos]; simpl in *;
      [|done..].
    intros _. by rewrite lookup_insert_eq.
Qed.

Lemma select_layer_present s layer options :
  selection_inv rules s →
  all_traits !! layer = Some options → options ≠ [] →
  raised (step s layer) = false →
  is_Some (selected (step s layer) !! layer).
Proof.
  intros Hinv Hcat Hne. unfold select_layer.
  destruct (raised s) eqn:Hraised; [by rewrite Hraised|].
  rewrite Hcat.
  change (default [] (Some options)) with options.
  destruct options as [|o os] eqn:Hopts; [done|]. rewrite <- Hopts in *.
  destruct (forced_selection s !! layer) as [forced_trait|] eqn:Hforced.
  - rewrite bool_decide_eq_true_2 by done. rewrite Hforced.
    intros _. by rewrite register_selected.
  - rewrite bool_decide_eq_false_2 by (by intros [? ?]).
    assert (default 100%Z (layer_rarities rules !! layer) = 100%Z) as ->.
    { destruct (layer_rarities rules !! layer) as [p|] eqn:Hp; [|done].
      simpl. by eapply all_rarities_100. }
    rewrite layer_skipped_100 by apply random_range.
    change (forced_selection (with_rng (S (rng s)) s))
      with (forced_selection s).
    rewrite Hforced.
    apply choose_trait_present; [by apply with_rng_inv|done..].
Qed.

Lemma select_layers_present layers s layer options :
  selection_inv rules s →
  layer ∈ layers →
  all_traits !! layer = Some options → options ≠ [] →
  raised (fold_left step layers s) = false →
  is_Some (selected (fold_left step layers s) !! layer).
Proof.
  revert s.
  induction layers as [|l layers IH]; intros s Hinv Hin Hcat Hne Hdone.
  - by apply elem_of_nil in Hin.
  - simpl in *. apply elem_of_cons in Hin as [->|Hin].
    + apply select_layers_selected_mono.
      eapply select_layer_present; [done..|].
      by eapply select_layers_completed.
    + apply IH; [by apply select_layer_inv|done..].
Qed.

End Presence.

(** ** Layer walks that complete *)

(** A negative trait rarity weighs as rarity 0. *)
Lemma trait_weight_negative (trait_rarities : gmap string Z) (key : string)
    (z : Z) :
  (z < 0)%Z →
  trait_weight (<[key := z]> trait_rarities) key
  = trait_weight (<[key := 0%Z]> trait_rarities) key.
Proof.
  intros Hz. unfold trait_weight. rewrite !lookup_insert_eq. simpl.
  destruct (Z.ltb_spec z 0); [done|lia].
Qed.

Lemma trait_weight_nonnegative (trait_rarities : gmap string Z)
    (key : string) :
  (0 <= trait_weight trait_rarities key)%Z.
Proof.
  unfold trait_weight.
  destruct (Z.ltb_spec (default 100%Z (trait_rarities !! key)) 0); lia.
Qed.

Lemma layer_skipped_returns (p : Z) (r : Q) :
  Float.of_int p ≠ OverflowError → layer_skipped p r ≠ OverflowError.
Proof.
  unfold layer_skipped, layer_probability.
  by destruct (Float.of_int p).
Qed.

Lemma weighted_choice_returns draws pos options (weights : list Z) :
  length options = length weights →
  (positive_total weights < 2 ^ 53)%Z →
  (_weighted_choice draws pos options weights).1 ≠ OverflowError.
Proof.
  intros Hlen Hsmall.
  destruct (Z.leb_spec (positive_total weights) 0) as [Hzero|Hpos].
  - unfold _weighted_choice.
    destruct (Z.leb_spec (positive_total weights) 0); [|lia].
    by destruct options.
  - destruct (weighted_choice_exact draws pos options weights Hlen)
      as (_ & _ & _ & _ & _ & opt & _ & -> & _); [lia|done].
Qed.

Lemma viable_options_total rules layer options keys :
  (positive_total (viable_options rules layer options keys).*2
   <= positive_total (layer_weights rules layer options))%Z.
Proof.
  unfold viable_options, layer_weights.
  induction options as [|t options IH]; [done|].
  rewrite fmap_cons, positive_total_cons.
  pose proof (trait_weight_nonnegative (trait_rarities rules)
                (make_key layer t)) as Hw.
  simpl. destruct (_is_excluded_by_pairs _ _ _); simpl;
    rewrite ?positive_total_cons;
    match type of IH with
    | (?a <= ?b)%Z =>
        match goal with
        | |- (?x + _ <= ?c + _)%Z => change (x + a <= c + b)%Z
        | |- (_ <= ?c + _)%Z => change (a <= c + b)%Z
        end
    end.
  - destruct (Z.leb_spec (trait_weight (trait_rarities rules)
                            (make_key layer t)) 0); lia.
  - lia.
Qed.

Section Completion.

Variable draws : Random.source.
Variable all_traits : gmap string (list string).
Variable rules : MergedRules.

Hypothesis floats : within_floats all_traits rules.

Lemma choose_trait_completes layer options s :
  all_traits !! layer = Some options →
  raised s = false →
  raised (choose_trait draws rules layer options s) = false.
Proof.
  intros Hcat Hs. unfold choose_trait.
  destruct (required_trait _ _ _).
  - by case_bool_decide.
  - destruct (viable_options rules layer options (selected_keys s))
      as [|v vs] eqn:Hviable; [done|].
    rewrite <- Hviable.
    pose proof (weighted_choice_returns draws (rng s)
                  ((viable_options rules layer options (selected_keys s)).*1)
                  ((viable_options rules layer options (selected_keys s)).*2))
      as Hreturns.
    destruct (_weighted_choice _ _ _ _) as [[[t|]|] pos]; [done..|].
    destruct Hreturns; [by rewrite !length_fmap| |done].
    pose proof (viable_options_total rules layer options (selected_keys s)).
    pose proof (proj2 floats layer options Hcat). lia.
Qed.

Lemma select_layer_completes s layer :
  raised s = false →
  raised (select_layer draws all_traits rules s layer) = false.
Proof.
  intros Hs. unfold select_layer. rewrite Hs.
  destruct (all_traits !! layer) as [options|] eqn:Hcat; [|done].
  change (default [] (Some options)) with options.
  destruct options as [|o os] eqn:Hopts; [done|]. rewrite <- Hopts in *.
  assert (Float.of_int (default 100%Z (layer_rarities rules !! layer))
          ≠ OverflowError) as Hp.
  { destruct (layer_rarities rules !! layer) as [p|] eqn:Hp; [|done].
    by apply (proj1 floats layer). }
  pose proof (layer_skipped_returns _
                (Random.random draws (rng s)) Hp) as Hskip.
  destruct (bool_decide _);
    [|destruct (layer_skipped _ _) as [[]|]; [done| |done]];
    (destruct (forced_selection _ !! layer); [done|]);
    by apply choose_trait_completes.
Qed.

Lemma select_edition_completes final_layer_order pos :
  raised (select_edition draws all_traits rules final_layer_order pos)
  = false.
Proof.
  unfold select_edition.
  assert (raised (fresh_edition pos) = false) as Hinit by done.
  revert Hinit. generalize (fresh_edition pos) as s.
  induction final_layer_order as [|layer layers IH]; intros s Hs; [done|].
  simpl. by apply IH, select_layer_completes.
Qed.

End Completion.

(** Without saved mapping sets every rarity is the default 100. *)
Lemma within_floats_empty_rules (all_traits : gmap string (list string)) :
  (∀ l options, all_traits !! l = Some options →
                (Z.of_nat (length options) < 2 ^ 46)%Z) →
  within_floats all_traits empty_rules.
Proof.
  intros Hsmall. split; [by intros l p|].
  intros l options Hcat. specialize (Hsmall l options Hcat).
  assert (positive_total (layer_weights empty_rules l options)
          = (100 * Z.of_nat (length options))%Z) as ->; [|lia].
  clear. unfold layer_weights.
  induction options as [|t options IH]; [done|].
  rewrite fmap_cons, positive_total_cons, IH.
  unfold trait_weight. simpl. rewrite lookup_empty. simpl. lia.
Qed.




(** ** Layers of rarity 0 and negative rarities *)

Section RarityZero.

Variable draws : Random.source.
Variable all_traits : gmap string (list string).
Variable rules : MergedRules.
Variable rare : string.

Local Abbreviation step := (select_layer draws all_traits rules).

Hypothesis rarity_0 : layer_rarities rules !! rare = Some 0%Z.
Hypothesis never_forced :
  ∀ a b lb tb, (a, b) ∈ include_pairs rules →
               split_colon b = Some (lb, tb) → lb ≠ rare.
Hypothesis draws_nonzero : ∀ n, (draws n mod 2 ^ 53)%N ≠ 0%N.

Lemma register_untouched layer chosen_trait s :
  layer ≠ rare → untouched rare s →
  untouched rare (register rules layer chosen_trait s).
Proof.
  intros Hne [Hsel Hforced]. split; simpl.
  - by rewrite lookup_insert_ne.
  - destruct (force_inclusions _ _ _ _ !! rare) as [t|] eqn:Hf; [|done].
    apply force_inclusions_origin in Hf as [Hold|(b & Hin & Hb)];
      [congruence|].
    by destruct (never_forced _ _ _ _ Hin Hb).
Qed.

Lemma choose_trait_untouched layer options s :
  layer ≠ rare → untouched rare s →
  untouched rare (choose_trait draws rules layer options s).
Proof.
  intros Hne Hs. unfold choose_trait.
  destruct (required_trait _ _ _).
  - case_bool_decide; [by apply register_untouched|done].
  - destruct (viable_options _ _ _ _); [done|].
    destruct (_weighted_choice _ _ _ _) as [[[t|]|] pos]; [|done..].
    by apply register_untouched.
Qed.

Lemma random_nonzero pos : (0 < Random.random draws pos)%Q.
Proof.
  unfold Random.random, Qlt. simpl.
  pose proof (draws_nonzero pos) as Hpos.
  generalize dependent (draws pos `mod` 2 ^ 53)%N. intros m Hm. lia.
Qed.

Lemma select_layer_untouched s layer :
  untouched rare s → untouched rare (step s layer).
Proof.
  intros Hs. unfold select_layer.
  destruct (raised s); [done|].
  destruct (default [] (all_traits !! layer)); [done|].
  destruct (decide (layer = rare)) as [->|Hne].
  - destruct Hs as [Hsel Hforced].
    rewrite bool_decide_eq_false_2 by (rewrite Hforced; by intros [? ?]).
    rewrite rarity_0. simpl default.
    by rewrite (proj2 (proj2 (layer_skipped_0 _)) (random_nonzero _)).
  - destruct (bool_decide _);
      [|destruct (layer_skipped _ _) as [[]|]; [done| |done]];
      simpl; (destruct (forced_selection s !! layer);
              [by apply register_untouched
              |by apply choose_trait_untouched]).
Qed.

(** X3. Away from the draw 0, a layer of rarity 0 that no inclusion pair
    targets is absent from the selection. *)
Lemma rarity_zero_absent_for_nonzero_draws final_layer_order pos :
  selected (select_edition draws all_traits rules final_layer_order pos)
  !! rare = None.
Proof.
  unfold select_edition.
  assert (untouched rare (fresh_edition pos)) as Hinit by done.
  revert Hinit. generalize (fresh_edition pos) as s.
  induction final_layer_order as [|layer layers IH]; intros s Hs.
  - apply Hs.
  - simpl. by apply IH, select_layer_untouched.
Qed.

End RarityZero.

(** The draw 0.0 against rarity 0 and against a negative rarity: rarity 0
    keeps the layer, a negative rarity does not. *)
Lemma layer_skipped_at_draw_zero :
  layer_skipped 0 0 = Returned false
  ∧ ∀ p, (p < 0)%Z →
      layer_skipped p 0 = Returned true ∨ layer_skipped p 0 = OverflowError.
Proof.
  split; [by vm_compute|]. intros p Hp. by apply layer_skipped_negative.
Qed.

(** Away from the draw 0.0, a negative layer rarity within the floats skips
    as rarity 0. *)
Lemma layer_skipped_negative_as_zero (p : Z) (r : Q) :
  (p < 0)%Z → (0 < r)%Q → layer_skipped p r ≠ OverflowError →
  layer_skipped p r = layer_skipped 0 r.
Proof.
  intros Hp Hr Hfinite. rewrite (proj2 (proj2 (layer_skipped_0 r)) Hr).
  assert (0 <= r)%Q as Hr' by lra.
  by destruct (layer_skipped_negative p r Hp Hr') as [->|].
Qed.

(** C6. At the draw 0.0 a layer of rarity 0 that nothing forces is kept:
    [0.0 > 0 / 100.0] is false, so the layer is not skipped, a trait is
    selected for it, and the edition is written with that trait. *)
Theorem rarity_zero_present_at_draw_zero :
  let world := rarity_zero_world in
  let config := rarity_zero_config in
  let s := edition_selection world config (initial_state world config) in
  layer_rarities (rules world config) !! "Hat" = Some 0%Z
  ∧ include_pairs (rules world config) = []
  ∧ (Random.random (draws world) 0 == 0)%Q
  ∧ forced_selection s !! "Hat" = None
  ∧ selected s !! "Hat" = Some "Red"
  ∧ run_generation world config 1
    = Some {| success := 1; duplicates := 0; errors := 0 |}
  ∧ md_attributes <$> metadata (flow_state (run world config 1))
    = [[("Hat", "Red")]].
Proof. by vm_compute. Qed.

(** C7. The layer rarity is compared as it is stored, without the floor at
    0 that the trait weights get: at the draw 0.0 a layer of rarity -5 is
    skipped while the same layer with rarity 0 is kept. *)
Theorem negative_layer_rarity_differs_from_zero :
  let catalog : gmap string (list string) := {[ "Hat" := ["Red"] ]} in
  let negative := select_edition (λ _, 0%N) catalog
                    (only_layer_rarity "Hat" (-5)) ["Hat"] 0 in
  let zero := select_edition (λ _, 0%N) catalog
                (only_layer_rarity "Hat" 0) ["Hat"] 0 in
  selected negative !! "Hat" = None ∧ selected zero !! "Hat" = Some "Red".
Proof. by vm_compute. Qed.

(** ** The edition loop *)

Lemma select_layer_warnings draws all_traits rules s layer :
  Forall inclusion_warning (warnings s) →
  Forall inclusion_warning
    (warnings (select_layer draws all_traits rules s layer)).
Proof.
  intros Hs. unfold select_layer.
  destruct (raised s); [done|].
  destruct (default [] (all_traits !! layer)); [done|].
  assert (Hchoose : ∀ options s', warnings s' = warnings s →
            Forall inclusion_warning
              (warnings (choose_trait draws rules layer options s'))).
  { intros options s' Heq. unfold choose_trait.
    destruct (required_trait _ _ _) as [required|].
    - case_bool_decide; simpl; rewrite Heq; [done|].
      apply Forall_app. split; [done|]. apply Forall_singleton. by eexists _, _.
    - destruct (viable_options _ _ _ _); [by rewrite Heq|].
      destruct (_weighted_choice _ _ _ _) as [[[t|]|] pos]; simpl;
        by rewrite Heq. }
  destruct (bool_decide _);
    [|destruct (layer_skipped _ _) as [[]|]; [done| |done]];
    simpl; (destruct (forced_selection s !! layer); [done|by apply Hchoose]).
Qed.

Lemma select_edition_warnings draws all_traits rules final_layer_order pos :
  Forall inclusion_warning
    (warnings (select_edition draws all_traits rules final_layer_order pos)).
Proof.
  unfold select_edition.
  assert (Forall inclusion_warning (warnings (fresh_edition pos))) as Hinit
    by constructor.
  revert Hinit. generalize (fresh_edition pos) as s.
  induction final_layer_order as [|layer layers IH]; intros s Hs; [done|].
  simpl. by apply IH, select_layer_warnings.
Qed.

Lemma merge_log_warnings names file msg :
  msg ∈ (_merge_mapping_sets names file).2 →
  msg = WarnMappingsUnreadable ∨ ∃ name, msg = WarnMappingSetNotFound name.
Proof.
  unfold _merge_mapping_sets.
  destruct (load_saved file) as [saved ws] eqn:Hload.
  destruct (merge_fold_spec saved names (empty_rules, ws)) as (_ & _ & _ & _ & ->).
  simpl. intros [Hin|Hin]%elem_of_app.
  - left. destruct file; simplify_eq/=.
    + by apply elem_of_nil in Hin.
    + by apply list_elem_of_singleton in Hin.
    + by apply elem_of_nil in Hin.
  - right. apply list_elem_of_fmap in Hin as (name & -> & _). by exists name.
Qed.

(** Case analysis over the paths of one iteration. *)
Ltac edition_cases :=
  unfold run_edition, try_body, call_progress;
  repeat match goal with
    | |- context [decide ?P] => destruct (decide P)
    | |- context [progress_callback ?w] =>
        destruct (progress_callback w) as [?raises|]
    | |- context [if ?b then _ else _] => destruct b eqn:?
    end;
  simpl.

Section RunProperties.

Variable world : World.
Variable config : Config.
Variable edition_size : nat.

Local Abbreviation order := (final_layer_order world config).
Local Abbreviation edition := (run_edition world config edition_size).
Local Abbreviation editions := (run_editions world config edition_size).

(** *** The DNA set only grows *)

Lemma edition_keeps_dna n st dna :
  dna ∈ generated_dna st → dna ∈ generated_dna (flow_state (edition n st)).
Proof. intros Hin. edition_cases; set_solver. Qed.

Lemma editions_keep_dna numbers st dna :
  dna ∈ generated_dna st →
  dna ∈ generated_dna (flow_state (editions numbers st)).
Proof.
  revert st. induction numbers as [|n numbers IH]; intros st Hin; [done|].
  simpl. pose proof (edition_keeps_dna n st dna Hin) as Hstep.
  destruct (edition n st) as [st'|st']; [by apply IH|done].
Qed.

(** *** The paths of one iteration *)

(** The duplicate path: counted, nothing written. *)
Lemma edition_duplicate n st :
  faults world n ≠ CanvasFault →
  raised (edition_selection world config st) = false →
  edition_dna world config st ∈ generated_dna st →
  let st' := flow_state (edition n st) in
  duplicates (stats st') = S (duplicates (stats st))
  ∧ success (stats st') = success (stats st)
  ∧ images st' = images st ∧ metadata st' = metadata st
  ∧ generated_dna st' = generated_dna st.
Proof.
  intros Hcanvas Hdone Hdup. unfold edition_dna in *.
  edition_cases; try done; unfold edition_selection in *; congruence.
Qed.

(** A layer walk left by an [OverflowError]: counted as an error, nothing
    written, the DNA set as it was. *)
Lemma edition_raised n st :
  raised (edition_selection world config st) = true →
  let st' := flow_state (edition n st) in
  errors (stats st') = S (errors (stats st))
  ∧ success (stats st') = success (stats st)
  ∧ duplicates (stats st') = duplicates (stats st)
  ∧ images st' = images st ∧ metadata st' = metadata st
  ∧ generated_dna st' = generated_dna st.
Proof.
  intros Hraised.
  edition_cases; try done; unfold edition_selection in *; congruence.
Qed.

(** A failing save: counted as an error, the DNA stays in the set. *)
Lemma edition_save_fails n st :
  faults world n = SaveImageFault ∨ faults world n = SaveMetadataFault →
  raised (edition_selection world config st) = false →
  edition_dna world config st ∉ generated_dna st →
  let st' := flow_state (edition n st) in
  errors (stats st') = S (errors (stats st))
  ∧ success (stats st') = success (stats st)
  ∧ duplicates (stats st') = duplicates (stats st)
  ∧ metadata st' = metadata st
  ∧ edition_dna world config st ∈ generated_dna st'.
Proof.
  intros [Hfault|Hfault] Hdone Hfresh;
    unfold edition_dna, edition_selection in *;
    edition_cases; try done; try congruence;
    try (unfold edition_selection in *; congruence);
    repeat split; try done; set_solver.
Qed.

End RunProperties.

Section RunInvariant.

Variable world : World.
Variable config : Config.
Variable edition_size : nat.

Local Abbreviation edition := (run_edition world config edition_size).
Local Abbreviation editions := (run_editions world config edition_size).
Local Abbreviation dna_of_image := (image_dna world config).

Lemma initial_state_inv : run_inv world config 1 (initial_state world config).
Proof.
  constructor; simpl.
  - constructor.
  - intros im Him. by apply elem_of_nil in Him.
  - intros im Him. by apply elem_of_nil in Him.
  - intros md Hmd. by apply elem_of_nil in Hmd.
  - intros n Hn. apply merge_log_warnings in Hn as [?|[? ?]]; done.
  - done.
Qed.

(** What the [except] clause and the progress call leave untouched. *)
Lemma edition_after_try n st :
  let st1 := (try_body world config edition_size n st).2 in
  let st' := flow_state (edition n st) in
  generated_dna st' = generated_dna st1
  ∧ images st' = images st1
  ∧ metadata st' = metadata st1
  ∧ success (stats st') = success (stats st1)
  ∧ (log st' = log st1 ∨ log st' = log st1 ++ [MsgError n]).
Proof.
  unfold run_edition, call_progress.
  destruct (try_body world config edition_size n st) as [[] st1];
    destruct (progress_callback world) as [raises|]; simpl;
    try destruct (raises _); simpl; auto 10.
Qed.

(** What the body of the [try] writes. *)
Lemma try_body_writes n st :
  let st1 := (try_body world config edition_size n st).2 in
  let sel := selected (edition_selection world config st) in
  let dna := edition_dna world config st in
  (generated_dna st1 = generated_dna st
   ∧ images st1 = images st ∧ metadata st1 = metadata st
   ∧ success (stats st1) = success (stats st))
  ∨ ((dna ∉ generated_dna st)
     ∧ generated_dna st1 = {[dna]} ∪ generated_dna st
     ∧ ((images st1 = images st ∧ metadata st1 = metadata st
         ∧ success (stats st1) = success (stats st))
        ∨ (images st1 = images st ++ [(n, sel)]
           ∧ ((metadata st1 = metadata st
               ∧ success (stats st1) = success (stats st))
              ∨ (metadata st1
                 = metadata st ++ [metadata_of world config n sel]
                 ∧ success (stats st1) = S (success (stats st))))))).
Proof.
  unfold edition_dna, edition_selection. edition_cases; auto 10.
Qed.

Lemma try_body_log n st k :
  let st1 := (try_body world config edition_size n st).2 in
  MsgDuplicate k ∈ log st1 → MsgDuplicate k ∈ log st ∨ k = n.
Proof.
  pose proof (select_edition_warnings (draws world) (all_traits world)
                (rules world config) (final_layer_order world config)
                (rng_pos st)) as Hwarn.
  rewrite Forall_forall in Hwarn.
  assert (Hno : ∀ k, MsgDuplicate k
                     ∉ warnings (edition_selection world config st)).
  { intros k' Hk'. by destruct (Hwarn _ Hk') as (? & ? & ?). }
  unfold edition_selection in *.
  edition_cases; rewrite ?elem_of_app, ?list_elem_of_singleton;
    intros H;
    repeat match goal with H : _ ∨ _ |- _ => destruct H as [H|H] end;
    simplify_eq; auto; by destruct (Hno k).
Qed.

(** An iteration that writes an image logs no duplicate. *)
Lemma try_body_log_written n st k im :
  let st1 := (try_body world config edition_size n st).2 in
  images st1 = images st ++ [im] →
  MsgDuplicate k ∈ log st1 → MsgDuplicate k ∈ log st.
Proof.
  pose proof (select_edition_warnings (draws world) (all_traits world)
                (rules world config) (final_layer_order world config)
                (rng_pos st)) as Hwarn.
  rewrite Forall_forall in Hwarn.
  assert (Hno : ∀ k, MsgDuplicate k
                     ∉ warnings (edition_selection world config st)).
  { intros k' Hk'. by destruct (Hwarn _ Hk') as (? & ? & ?). }
  assert (Hsame : images st = images st ++ [im] → False).
  { intros Heq. apply (f_equal length) in Heq.
    rewrite length_app in Heq. simpl in Heq. lia. }
  unfold edition_selection in *.
  edition_cases; intros Heq; try (by destruct Hsame);
    rewrite ?elem_of_app, ?list_elem_of_singleton;
    intros H;
    repeat match goal with H : _ ∨ _ |- _ => destruct H as [H|H] end;
    simplify_eq; auto; by destruct (Hno k).
Qed.

(** An image is written only by an edition whose layer walk completed. *)
Lemma try_body_image n st im :
  let st1 := (try_body world config edition_size n st).2 in
  images st1 = images st ++ [im] →
  raised (edition_selection world config st) = false
  ∧ im = (n, selected (edition_selection world config st)).
Proof.
  assert (Hsame : images st = images st ++ [im] → False).
  { intros Heq. apply (f_equal length) in Heq.
    rewrite length_app in Heq. simpl in Heq. lia. }
  edition_cases; intros Heq; try (by destruct Hsame);
    apply app_inv_head in Heq; injection Heq as <-; by split.
Qed.

Lemma edition_inv n st :
  run_inv world config n st →
  run_inv world config (S n) (flow_state (edition n st)).
Proof.
  intros [Hnodup Hdna Himages Hmetadata Hdups Hsuccess].
  destruct (edition_after_try n st)
    as (Edna & Eimages & Emetadata & Esuccess & Elog).
  pose proof (try_body_log n st) as Hlog.
  pose proof (try_body_log_written n st) as Hlogw.
  pose proof (try_body_writes n st) as Hwrites.
  cbv zeta in *.
  set (st' := flow_state (edition n st)) in *.
  set (st1 := (try_body world config edition_size n st).2) in *.
  set (sel := selected (edition_selection world config st)) in *.
  assert (Hafter : ∀ k, MsgDuplicate k ∈ log st' → MsgDuplicate k ∈ log st1).
  { intros k Hk. destruct Elog as [E|E]; rewrite E in Hk; [done|].
    apply elem_of_app in Hk as [?|Hk]; [done|].
    by apply list_elem_of_singleton in Hk. }
  assert (Hnone : n ∉ (images st).*1).
  { intros (im & Heq & Him)%list_elem_of_fmap. apply Himages in Him. lia. }
  assert (Hd : ∀ k, MsgDuplicate k ∈ log st' →
                 k < S n ∧ k ∉ (images st).*1).
  { intros k Hk. destruct (Hlog k (Hafter k Hk)) as [Hold| ->].
    - destruct (Hdups k Hold). split; [lia|done].
    - split; [lia|done]. }
  assert (Hless : ∀ im, im ∈ images st → im.1 < S n).
  { intros im Him. apply Himages in Him. lia. }
  assert (Hmd : ∀ md, md ∈ metadata st →
                  md_edition md < S n ∧ md_edition md ∈ (images st).*1).
  { intros md Hin. destruct (Hmetadata md Hin). split; [lia|done]. }
  assert (Hgrow : ∀ dna im, im ∈ images st →
                    dna_of_image im ∈ {[dna]} ∪ generated_dna st).
  { intros dna im Him. apply elem_of_union. right. by apply Hdna. }
  destruct Hwrites as [(E1 & E2 & E3 & E4)
                      |(Hfresh & E1 & [(E2 & E3 & E4)|(E2 & Hmeta)])].
  - constructor; rewrite ?Edna, ?Eimages, ?Emetadata, ?Esuccess,
      ?E1, ?E2, ?E3, ?E4; done.
  - constructor; rewrite ?Edna, ?Eimages, ?Emetadata, ?Esuccess,
      ?E1, ?E2, ?E3, ?E4; try done. intros im Him. by apply Hgrow.
  - assert (Hnew : NoDup (dna_of_image <$> images st ++ [(n, sel)])).
    { rewrite fmap_app. apply NoDup_app. split; [done|]. split.
      - intros d (im & -> & Him)%list_elem_of_fmap Heq.
        apply list_elem_of_singleton in Heq. apply Hdna in Him.
        apply Hfresh. by rewrite Heq in Him.
      - apply NoDup_singleton. }
    assert (Hnewdna : ∀ im, im ∈ images st ++ [(n, sel)] →
              dna_of_image im
              ∈ ({[edition_dna world config st]} ∪ generated_dna st
                 : gset string)).
    { intros im [Him|Him]%elem_of_app; [by apply Hgrow|].
      apply list_elem_of_singleton in Him. subst im.
      apply elem_of_union. left. by apply elem_of_singleton. }
    assert (Hnewless : ∀ im, im ∈ images st ++ [(n, sel)] → im.1 < S n).
    { intros im [Him|Him]%elem_of_app; [by apply Hless|].
      apply list_elem_of_singleton in Him. subst im. simpl. lia. }
    assert (Holdmd : ∀ md, md ∈ metadata st →
              md_edition md < S n
              ∧ md_edition md ∈ (images st ++ [(n, sel)]).*1).
    { intros md Hin. destruct (Hmd md Hin). split; [done|].
      rewrite fmap_app. apply elem_of_app. by left. }
    assert (Hnewdup : ∀ k, MsgDuplicate k ∈ log st' →
              k < S n ∧ k ∉ (images st ++ [(n, sel)]).*1).
    { intros k Hk.
      pose proof (Hlogw k (n, sel) E2 (Hafter k Hk)) as Hold.
      destruct (Hdups k Hold) as [Hlt Hnot]. split; [lia|].
      rewrite fmap_app. intros [Hin|Hin]%elem_of_app; [done|].
      apply list_elem_of_singleton in Hin. simpl in Hin. lia. }
    destruct Hmeta as [(E3 & E4)|(E3 & E4)].
    + constructor; rewrite ?Edna, ?Eimages, ?Emetadata, ?Esuccess,
        ?E1, ?E2, ?E3, ?E4; done.
    + constructor; rewrite ?Edna, ?Eimages, ?Emetadata, ?Esuccess,
        ?E1, ?E2, ?E3, ?E4; try done.
      * intros md [Hin|Hin]%elem_of_app; [by apply Holdmd|].
        apply list_elem_of_singleton in Hin. subst md. simpl. split; [lia|].
        rewrite fmap_app. apply elem_of_app. right.
        by apply list_elem_of_singleton.
      * rewrite length_app. simpl. lia.
Qed.

Lemma editions_inv len first st :
  run_inv world config first st →
  run_inv world config (first + len) (flow_state (editions (seq first len) st))
  ∨ ∃ stop, first ≤ stop ∧
      run_inv world config stop (flow_state (editions (seq first len) st)).
Proof.
  revert first st. induction len as [|len IH]; intros first st Hinv.
  - left. by rewrite Nat.add_0_r.
  - simpl. pose proof (edition_inv first st Hinv) as Hstep.
    destruct (edition first st) as [st'|st']; simpl in Hstep.
    + destruct (IH (S first) st' Hstep) as [H|(stop & Hle & H)].
      * left. by rewrite Nat.add_succ_r.
      * right. exists stop. split; [lia|done].
    + right. exists (S first). split; [lia|done].
Qed.

Lemma run_inv_final :
  ∃ stop, run_inv world config stop (flow_state (run world config edition_size)).
Proof.
  destruct (editions_inv edition_size 1 _ initial_state_inv)
    as [H|(stop & _ & H)]; eauto.
Qed.

End RunInvariant.

(** ** Uniqueness of the accepted editions *)

(** C1. In every run the DNA strings of the accepted editions are pairwise
    different, and the accepted editions are the counted successes.  An
    edition whose layer walk completes with a DNA that is already in the
    DNA set is counted as a duplicate and writes neither an image nor
    metadata, and at the end of the run no image and no metadata carry the
    number of an edition that was rejected as a duplicate. *)
Theorem accepted_dna_distinct (world : World) (config : Config)
    (edition_size : nat) :
  let st := flow_state (run world config edition_size) in
  NoDup (image_dna world config <$> accepted st)
  ∧ (∀ md, md ∈ metadata st → md_edition md ∈ (accepted st).*1)
  ∧ success (stats st) = length (metadata st)
  ∧ (∀ n st0,
       faults world n ≠ CanvasFault →
       raised (edition_selection world config st0) = false →
       edition_dna world config st0 ∈ generated_dna st0 →
       let st1 := flow_state (run_edition world config edition_size n st0) in
       duplicates (stats st1) = S (duplicates (stats st0))
       ∧ success (stats st1) = success (stats st0)
       ∧ images st1 = images st0 ∧ metadata st1 = metadata st0)
  ∧ (∀ n, MsgDuplicate n ∈ log st →
       (n ∉ (images st).*1) ∧ (n ∉ md_edition <$> metadata st)).
Proof.
  intros st.
  destruct (run_inv_final world config edition_size)
    as (stop & [Hnodup _ _ Hmetadata Hdups Hsuccess]).
  fold st in Hnodup, Hmetadata, Hdups, Hsuccess.
  split; [|split; [|split; [done|split]]].
  - eapply sublist_NoDup; [exact Hnodup|].
    apply fmap_sublist, sublist_filter.
  - intros md Hmd. destruct (Hmetadata md Hmd) as [_ Him].
    apply list_elem_of_fmap in Him as (im & Heq & Him).
    apply list_elem_of_fmap. exists im. split; [done|].
    apply list_elem_of_filter. split; [|done].
    rewrite <- Heq. by apply list_elem_of_fmap_2.
  - intros n st0 Hcanvas Hdone Hdup.
    destruct (edition_duplicate world config edition_size n st0 Hcanvas
                Hdone Hdup) as (? & ? & ? & ? & _).
    done.
  - intros n Hn. destruct (Hdups n Hn) as [_ Hnot]. split; [done|].
    intros (md & -> & Hmd)%list_elem_of_fmap.
    by destruct (Hmetadata md Hmd) as [_ Him].
Qed.

(** ** The stats *)

Section Totals.

Variable world : World.
Variable config : Config.
Variable edition_size : nat.

Hypothesis setup_completes : setup world = SetupCompletes.
Hypothesis quiet_progress :
  ∀ raises, progress_callback world = Some raises → ∀ k, raises k = false.

Lemma edition_counts_once n st :
  ∃ st', run_edition world config edition_size n st = Next st'
         ∧ total (stats st') = S (total (stats st)).
Proof.
  pose proof quiet_progress as Hquiet. unfold total.
  edition_cases;
    try match goal with
      | E : ?r _ = true, Hq : ∀ raises, Some ?r = Some raises → _ |- _ =>
          rewrite (Hq r eq_refl) in E; discriminate
      end;
    (eexists; split; [reflexivity|simpl; lia]).
Qed.

Lemma editions_count_once numbers st :
  ∃ st', run_editions world config edition_size numbers st = Next st'
         ∧ total (stats st') = length numbers + total (stats st).
Proof.
  revert st. induction numbers as [|n numbers IH]; intros st.
  - by exists st.
  - simpl. destruct (edition_counts_once n st) as (st1 & -> & Hone).
    destruct (IH st1) as (st' & Heq & Htotal).
    exists st'. split; [done|]. lia.
Qed.

(** X1. When the set-up before the edition loop completes and the
    progress callback does not raise (or there is none), the run returns
    and every edition number is counted exactly once. *)
Lemma stats_total_with_quiet_progress :
  ∃ st, run_generation world config edition_size = Some st
        ∧ total st = edition_size.
Proof.
  unfold run_generation, run. rewrite setup_completes.
  destruct (editions_count_once (seq 1 edition_size)
              (initial_state world config)) as (st & -> & Htotal).
  exists (stats st). split; [done|].
  rewrite Htotal, length_seq. unfold total. simpl. lia.
Qed.

End Totals.

(** An exception in the set-up leaves [run_generation] before the first
    edition. *)
Lemma run_generation_setup_raises (world : World) (config : Config)
    (edition_size : nat) :
  setup world = SetupRaises → run_generation world config edition_size = None.
Proof. intros Hsetup. unfold run_generation. by rewrite Hsetup. Qed.

(** C2. The progress callback is called unguarded.  Raising inside the
    duplicate branch, it makes the edition count both as a duplicate and as
    an error: with two editions requested the stats add up to three.
    Raising after the [try], it leaves [run_generation] without stats. *)
Theorem progress_raise_breaks_totals :
  run_generation (single_trait_world (Some (λ k, bool_decide (k = 1))))
    plain_config 2
  = Some {| success := 1; duplicates := 1; errors := 1 |}
  ∧ run_generation (single_trait_world (Some (λ _, true))) plain_config 2
    = None.
Proof. by vm_compute. Qed.

(** ** A save that fails *)

(** C10. The DNA enters the set before the image and the metadata are
    written.  When the save of an edition with a fresh DNA fails, the
    edition is counted as an error and its DNA is in the set; the DNA stays
    there through the editions that follow, and a later edition with that
    DNA that reaches the duplicate check is counted as a duplicate, not as
    a success, and writes nothing.  An edition has a DNA, and reaches the
    save or the duplicate check, when its layer walk completes. *)
Theorem failed_save_keeps_dna (world : World) (config : Config)
    (edition_size : nat) (n m : nat) (numbers : list nat)
    (st st2 : RunState) :
  faults world n = SaveImageFault ∨ faults world n = SaveMetadataFault →
  raised (edition_selection world config st) = false →
  edition_dna world config st ∉ generated_dna st →
  let st1 := flow_state (run_edition world config edition_size n st) in
  run_editions world config edition_size numbers st1 = Next st2 →
  faults world m ≠ CanvasFault →
  raised (edition_selection world config st2) = false →
  edition_dna world config st2 = edition_dna world config st →
  let st3 := flow_state (run_edition world config edition_size m st2) in
  (errors (stats st1) = S (errors (stats st))
   ∧ success (stats st1) = success (stats st)
   ∧ duplicates (stats st1) = duplicates (stats st)
   ∧ metadata st1 = metadata st
   ∧ edition_dna world config st ∈ generated_dna st1)
  ∧ edition_dna world config st ∈ generated_dna st2
  ∧ duplicates (stats st3) = S (duplicates (stats st2))
  ∧ success (stats st3) = success (stats st2)
  ∧ images st3 = images st2 ∧ metadata st3 = metadata st2.
Proof.
  intros Hfault Hdone Hfresh st1 Hrun Hcanvas Hdone2 Hsame st3.
  pose proof (edition_save_fails world config edition_size n st Hfault
                Hdone Hfresh) as Hfail.
  cbv zeta in Hfail. fold st1 in Hfail.
  assert (edition_dna world config st ∈ generated_dna st2) as Hkept.
  { pose proof (editions_keep_dna world config edition_size numbers st1
                  (edition_dna world config st)) as Hkeep.
    rewrite Hrun in Hkeep. apply Hkeep, Hfail. }
  split; [done|]. split; [done|].
  rewrite <- Hsame in Hkept.
  destruct (edition_duplicate world config edition_size m st2 Hcanvas
              Hdone2 Hkept) as (? & ? & ? & ? & _).
  done.
Qed.

Lemma failed_save_keeps_dna_witness :
  let st := initial_state failing_first_save plain_config in
  let st1 := flow_state (run_edition failing_first_save plain_config 2 1 st) in
  let st3 := flow_state (run_edition failing_first_save plain_config 2 2 st1) in
  (errors (stats st1) = S (errors (stats st))
   ∧ success (stats st1) = success (stats st)
   ∧ duplicates (stats st1) = duplicates (stats st)
   ∧ metadata st1 = metadata st
   ∧ edition_dna failing_first_save plain_config st ∈ generated_dna st1)
  ∧ edition_dna failing_first_save plain_config st ∈ generated_dna st1
  ∧ duplicates (stats st3) = S (duplicates (stats st1))
  ∧ success (stats st3) = success (stats st1)
  ∧ images st3 = images st1 ∧ metadata st3 = metadata st1.
Proof.
  intros st st1 st3.
  apply (failed_save_keeps_dna failing_first_save plain_config 2 1 2 [] st st1).
  - left. reflexivity.
  - by vm_compute.
  - apply not_elem_of_empty.
  - reflexivity.
  - discriminate.
  - by vm_compute.
  - by vm_compute.
Defined.

Lemma accepted_dna_distinct_witness :
  let world := single_trait_world None in
  let st0 := flow_state (run world plain_config 1) in
  let st1 := flow_state (run_edition world plain_config 2 2 st0) in
  duplicates (stats st1) = S (duplicates (stats st0))
  ∧ success (stats st1) = success (stats st0)
  ∧ images st1 = images st0 ∧ metadata st1 = metadata st0.
Proof.
  intros world st0 st1.
  apply (accepted_dna_distinct world plain_config 2).
  - discriminate.
  - by vm_compute.
  - apply (bool_decide_unpack _). by vm_compute.
Defined.

(** The scenario of the specification: five editions, always the same
    combination. *)
Example same_combination_five_times :
  run_generation (single_trait_world None) plain_config 5
  = Some {| success := 1; duplicates := 4; errors := 0 |}.
Proof. by vm_compute. Qed.

(** C3. A forced trait is recorded without the exclusion check that the
    weighted choice makes.  With the inclusion pair [A:Red => B:Blue] and
    the exclusion pair [(C:Green, B:Blue)], the edition that draws
    [C:Green] and then [A:Red] is forced to [B:Blue] and is accepted with
    both keys of the exclusion pair. *)
Theorem exclusion_broken_by_forced_trait :
  let world := forced_into_exclusion in
  let config := forced_into_exclusion_config in
  let st := flow_state (run world config 1) in
  include_pairs (rules world config) = [("A:Red", "B:Blue")]
  ∧ exclude_pairs (rules world config) = [("C:Green", "B:Blue")]
  ∧ stats st = {| success := 1; duplicates := 0; errors := 0 |}
  ∧ (λ im, (im.1, im.2 !! "C", im.2 !! "A", im.2 !! "B")) <$> accepted st
    = [(1, Some "Green", Some "Red", Some "Blue")].
Proof. by vm_compute. Qed.

(** * Further properties *)

(** ** Runs whose progress callback does not raise *)

Lemma stats_total_with_quiet_progress_witness :
  ∃ st, run_generation (single_trait_world (Some (λ _, false))) plain_config 3
        = Some st
        ∧ total st = 3.
Proof.
  apply (stats_total_with_quiet_progress
           (single_trait_world (Some (λ _, false))) plain_config 3).
  - reflexivity.
  - intros raises [= <-] k. reflexivity.
Defined.

Lemma rarity_zero_absent_for_nonzero_draws_witness :
  selected
    (select_edition (λ _, 1%N) {[ "Hat" := ["Red"]; "Eyes" := ["Open"] ]}
       (only_layer_rarity "Hat" 0) ["Hat"; "Eyes"] 0)
  !! "Hat" = None.
Proof.
  apply rarity_zero_absent_for_nonzero_draws.
  - reflexivity.
  - intros a b lb tb Hin. by apply elem_of_nil in Hin.
  - intros n. discriminate.
Defined.

(** ** The stats and the log *)

Lemma outcome_counts_app (l1 l2 : list LogMsg) :
  success (outcome_counts (l1 ++ l2))
  = success (outcome_counts l1) + success (outcome_counts l2)
  ∧ duplicates (outcome_counts (l1 ++ l2))
    = duplicates (outcome_counts l1) + duplicates (outcome_counts l2)
  ∧ errors (outcome_counts (l1 ++ l2))
    = errors (outcome_counts l1) + errors (outcome_counts l2).
Proof. unfold outcome_counts. simpl. by rewrite !filter_app, !length_app. Qed.

Lemma outcome_counts_warnings (ws : list LogMsg) :
  Forall inclusion_warning ws →
  outcome_counts ws = {| success := 0; duplicates := 0; errors := 0 |}.
Proof.
  induction 1 as [|msg ws (layer & trait & ->) _ IH]; [done|].
  unfold outcome_counts in *. rewrite !filter_cons. simpl. exact IH.
Qed.

Lemma outcome_counts_merge_log names file :
  outcome_counts (_merge_mapping_sets names file).2
  = {| success := 0; duplicates := 0; errors := 0 |}.
Proof.
  pose proof (merge_log_warnings names file) as Hlog.
  induction ((_merge_mapping_sets names file).2) as [|msg ws IH]; [done|].
  unfold outcome_counts in *. rewrite !filter_cons.
  destruct (Hlog msg ltac:(left)) as [->|[name ->]]; simpl;
    apply IH; intros m Hm; apply Hlog; by right.
Qed.

Lemma stats_eta (st : Stats) :
  st = {| success := success st; duplicates := duplicates st;
          errors := errors st |}.
Proof. by destruct st. Qed.

Section LogAccounts.

Variable world : World.
Variable config : Config.
Variable edition_size : nat.

Lemma edition_log_accounts n st :
  stats st = outcome_counts (log st) →
  let st' := flow_state (run_edition world config edition_size n st) in
  stats st' = outcome_counts (log st').
Proof.
  intros Hst.
  pose proof (outcome_counts_warnings _
                (select_edition_warnings (draws world) (all_traits world)
                   (rules world config) (final_layer_order world config)
                   (rng_pos st))) as Hwarn.
  change (select_edition _ _ _ _ _)
    with (edition_selection world config st) in Hwarn.
  edition_cases; rewrite (stats_eta (outcome_counts _));
    repeat match goal with
      | |- context [outcome_counts (?l1 ++ ?l2)] =>
          destruct (outcome_counts_app l1 l2) as (-> & -> & ->)
      end;
    rewrite ?Hwarn, <- ?Hst; unfold count_error, count_duplicate,
      count_success; simpl; f_equal; lia.
Qed.

Lemma editions_log_accounts numbers st :
  stats st = outcome_counts (log st) →
  let st' := flow_state (run_editions world config edition_size numbers st) in
  stats st' = outcome_counts (log st').
Proof.
  revert st. induction numbers as [|n numbers IH]; intros st Hst; [done|].
  simpl. pose proof (edition_log_accounts n st Hst) as Hstep.
  destruct (run_edition world config edition_size n st) as [st1|st1];
    [by apply IH|done].
Qed.

End LogAccounts.

(** X4. The stats agree with the log in every run: [success], [duplicates]
    and [errors] are the numbers of "generated", "duplicate" and "error"
    messages emitted, also when the progress callback raises and the run
    is left by its exception. *)
Theorem stats_match_log (world : World) (config : Config)
    (edition_size : nat) :
  let st := flow_state (run world config edition_size) in
  stats st = outcome_counts (log st).
Proof.
  apply editions_log_accounts. simpl.
  by rewrite outcome_counts_merge_log.
Qed.


(** ** Progress notifications *)

Section QuietRuns.

Variable world : World.
Variable config : Config.
Variable edition_size : nat.

Hypothesis quiet_progress :
  ∀ raises, progress_callback world = Some raises → ∀ k, raises k = false.

(** Closes the paths on which a progress callback that never raises has
    raised. *)
Ltac quiet_cases :=
  pose proof quiet_progress as Hquiet;
  edition_cases;
  try match goal with
    | E : ?r _ = true, Hq : ∀ raises, Some ?r = Some raises → _ |- _ =>
        rewrite (Hq r eq_refl) in E; discriminate
    end.

(** The notifications that the callback receives for a list of edition
    numbers. *)
Lemma edition_notifies_once n st :
  ∃ st', run_edition world config edition_size n st = Next st'
         ∧ progress st'
           = progress st
             ++ match progress_callback world with
                | Some _ => [(n, edition_size)]
                | None => []
                end.
Proof.
  quiet_cases; (eexists; split; [reflexivity|simpl; by rewrite ?app_nil_r]).
Qed.

Lemma editions_notify_once numbers st :
  ∃ st', run_editions world config edition_size numbers st = Next st'
         ∧ progress st'
           = progress st
             ++ match progress_callback world with
                | Some _ => (λ n, (n, edition_size)) <$> numbers
                | None => []
                end.
Proof.
  revert st. induction numbers as [|n numbers IH]; intros st.
  - exists st. split; [done|]. destruct (progress_callback world); simpl;
      by rewrite app_nil_r.
  - simpl. destruct (edition_notifies_once n st) as (st1 & -> & Hone).
    destruct (IH st1) as (st' & Hrun & Hrest).
    exists st'. split; [done|]. rewrite Hrest, Hone.
    destruct (progress_callback world); simpl;
      by rewrite <- ?app_assoc, ?app_nil_r.
Qed.

(** X5. A progress callback that does not raise is called exactly once per
    edition, in the order of the edition numbers, with the edition number
    and the requested count, whether the edition succeeded, was a
    duplicate or failed. *)
Theorem progress_once_per_edition :
  ∃ st, run world config edition_size = Next st
        ∧ progress st
          = match progress_callback world with
            | Some _ => (λ n, (n, edition_size)) <$> seq 1 edition_size
            | None => []
            end.
Proof.
  destruct (editions_notify_once (seq 1 edition_size)
              (initial_state world config)) as (st & Hrun & Hprogress).
  exists st. split; [done|]. by rewrite Hprogress.
Qed.

(** ** Runs without faults *)

Hypothesis no_faults : ∀ n, faults world n = NoFault.
Hypothesis walks_complete :
  ∀ pos, raised (select_edition (draws world) (all_traits world)
                   (rules world config) (final_layer_order world config) pos)
         = false.

Lemma edition_without_faults n st :
  errors (stats st) = 0 →
  success (stats st) = size (generated_dna st) →
  length (images st) = success (stats st) →
  length (metadata st) = success (stats st) →
  ∃ st', run_edition world config edition_size n st = Next st'
         ∧ errors (stats st') = 0
         ∧ success (stats st') = size (generated_dna st')
         ∧ length (images st') = success (stats st')
         ∧ length (metadata st') = success (stats st').
Proof.
  intros Herrors Hsize Himages Hmetadata.
  pose proof (no_faults n) as Hfault.
  pose proof (walks_complete (rng_pos st)) as Hwalk.
  change (select_edition _ _ _ _ _)
    with (edition_selection world config st) in Hwalk.
  quiet_cases; try congruence;
    (eexists; split; [reflexivity|]); simpl; try done.
  all: simpl in *; rewrite !length_app; simpl.
  all: rewrite size_union by (by apply disjoint_singleton_l).
  all: rewrite size_singleton. all: repeat split; lia.
Qed.

Lemma editions_without_faults numbers st :
  errors (stats st) = 0 →
  success (stats st) = size (generated_dna st) →
  length (images st) = success (stats st) →
  length (metadata st) = success (stats st) →
  ∃ st', run_editions world config edition_size numbers st = Next st'
         ∧ errors (stats st') = 0
         ∧ success (stats st') = size (generated_dna st')
         ∧ length (images st') = success (stats st')
         ∧ length (metadata st') = success (stats st').
Proof.
  revert st. induction numbers as [|n numbers IH];
    intros st Herrors Hsize Himages Hmetadata.
  - by exists st.
  - simpl.
    destruct (edition_without_faults n st Herrors Hsize Himages Hmetadata)
      as (st1 & -> & H1 & H2 & H3 & H4).
    by apply IH.
Qed.


(** ** An empty layer order *)

Hypothesis setup_completes : setup world = SetupCompletes.
Hypothesis no_layers : final_layer_order world config = [].

Lemma empty_order_first n st :
  generated_dna st = ∅ →
  ∃ st', run_edition world config edition_size n st = Next st'
         ∧ stats st' = count_success (stats st)
         ∧ generated_dna st' = {[ "" ]}.
Proof.
  intros Hempty. pose proof (no_faults n) as Hfault.
  unfold run_edition, try_body, edition_selection.
  rewrite no_layers. simpl. rewrite Hempty.
  quiet_cases; try congruence;
    try match goal with
      | H : _ ∈ ∅ |- _ => by apply not_elem_of_empty in H
      end;
    (eexists; split; [reflexivity|]); simpl; rewrite ?Hempty;
    (split; [done|apply union_empty_r_L]).
Qed.

Lemma empty_order_later n st :
  generated_dna st = {[ "" ]} →
  ∃ st', run_edition world config edition_size n st = Next st'
         ∧ stats st' = count_duplicate (stats st)
         ∧ generated_dna st' = {[ "" ]}.
Proof.
  intros Hone. pose proof (no_faults n) as Hfault.
  unfold run_edition, try_body, edition_selection.
  rewrite no_layers. simpl. rewrite Hone.
  quiet_cases; try congruence;
    try match goal with
      | H : _ ∉ {[ _ ]} |- _ => by destruct H; apply elem_of_singleton
      end;
    (eexists; split; [reflexivity|]); simpl; by rewrite ?Hone.
Qed.

Lemma empty_order_rest numbers st :
  generated_dna st = {[ "" ]} →
  ∃ st', run_editions world config edition_size numbers st = Next st'
         ∧ success (stats st') = success (stats st)
         ∧ duplicates (stats st') = length numbers + duplicates (stats st)
         ∧ errors (stats st') = errors (stats st).
Proof.
  revert st. induction numbers as [|n numbers IH]; intros st Hone.
  - by exists st.
  - simpl. destruct (empty_order_later n st Hone) as (st1 & -> & Hstats & Hdna).
    destruct (IH st1 Hdna) as (st' & Hrun & Hs & Hd & He).
    exists st'. rewrite Hstats in Hs, Hd, He. simpl in *.
    repeat split; try done. lia.
Qed.

(** X7. With no layer to walk (an empty or missing layers directory, or every
    layer excluded), every edition has the empty selection and the empty
    DNA: when nothing fails, in the set-up, in the image and file
    operations or in the progress callback, the first edition is written
    as a success, with no attribute, and all the others are duplicates. *)
Theorem run_with_empty_order :
  run_generation world config edition_size
  = Some {| success := Nat.min 1 edition_size;
            duplicates := edition_size - 1;
            errors := 0 |}.
Proof.
  unfold run_generation, run. rewrite setup_completes.
  pose proof (length_seq edition_size 1) as Hlen.
  destruct (seq 1 edition_size) as [|n rest]; simpl in Hlen.
  - by rewrite <- Hlen.
  - simpl.
    destruct (empty_order_first n (initial_state world config))
      as (st1 & -> & Hstats & Hdna); [done|].
    destruct (empty_order_rest rest st1 Hdna) as (st & -> & Hs & Hd & He).
    rewrite Hstats in Hs, Hd, He. simpl in Hs, Hd, He.
    rewrite (stats_eta (stats st)), Hs, Hd, He, <- Hlen. simpl.
    do 2 f_equal. lia.
Qed.

End QuietRuns.

Lemma progress_once_per_edition_witness :
  ∃ st, run (single_trait_world (Some (λ _, false))) plain_config 3 = Next st
        ∧ progress st
          = match progress_callback (single_trait_world (Some (λ _, false)))
            with
            | Some _ => (λ n, (n, 3)) <$> seq 1 3
            | None => []
            end.
Proof.
  apply (progress_once_per_edition
           (single_trait_world (Some (λ _, false))) plain_config 3).
  intros raises [= <-] k. reflexivity.
Defined.


(** A layer rarity beyond the floats: every edition is left by the
    [OverflowError] of the division and counted as an error, although no
    image or file operation fails. *)
Example overflowing_rarity_counts_errors :
  let world := {| draws := λ _, 0%N;
                  saved_file :=
                    FileLoaded
                      {[ "big" :=
                           {| ms_rarities := [];
                              ms_layer_rarities :=
                                [("Hat", IntLike (10 ^ 400))];
                              ms_include_pairs := [];
                              ms_exclude_pairs := [] |} ]};
                  all_traits := {[ "Hat" := ["Red"] ]};
                  setup := SetupCompletes; faults := λ _, NoFault;
                  progress_callback := None |} in
  let config := {| layer_order := []; excluded_layers := [];
                   mapping_sets := ["big"]; collection_name := None;
                   collection_description := None |} in
  run_generation world config 2
  = Some {| success := 0; duplicates := 0; errors := 2 |}.
Proof. by vm_compute. Qed.

Lemma run_with_empty_order_witness :
  let world := {| draws := λ _, 5%N; saved_file := FileMissing;
                  all_traits := ∅; setup := SetupCompletes;
                  faults := λ _, NoFault; progress_callback := None |} in
  run_generation world plain_config 3
  = Some {| success := Nat.min 1 3; duplicates := 3 - 1; errors := 0 |}.
Proof.
  intros world.
  apply (run_with_empty_order world plain_config 3).
  - intros raises. discriminate.
  - reflexivity.
  - reflexivity.
  - reflexivity.
Defined.

(** ** Merging lists of mapping sets *)

(** X8. Merging a list of names that is the concatenation of two lists: the
    rarities of the second part are laid over those of the first part, and
    the pair lists of the two parts are concatenated.  In particular a set
    that is listed twice leaves the rarities as they are and doubles its
    pairs. *)
Theorem merge_mapping_sets_app (names1 names2 : list string)
    (file : SavedFile) :
  let out1 := (_merge_mapping_sets names1 file).1 in
  let out2 := (_merge_mapping_sets names2 file).1 in
  let out := (_merge_mapping_sets (names1 ++ names2) file).1 in
  trait_rarities out = trait_rarities out2 ∪ trait_rarities out1
  ∧ layer_rarities out = layer_rarities out2 ∪ layer_rarities out1
  ∧ include_pairs out = include_pairs out1 ++ include_pairs out2
  ∧ exclude_pairs out = exclude_pairs out1 ++ exclude_pairs out2.
Proof.
  unfold _merge_mapping_sets. destruct (load_saved file) as [saved ws].
  destruct (merge_fold_spec saved names1 (empty_rules, ws))
    as (Ht1 & Hl1 & Hi1 & He1 & _).
  destruct (merge_fold_spec saved names2 (empty_rules, ws))
    as (Ht2 & Hl2 & Hi2 & He2 & _).
  destruct (merge_fold_spec saved (names1 ++ names2) (empty_rules, ws))
    as (Ht & Hl & Hi & He & _).
  simpl in *.
  assert (Hsets : sets_in_order saved (names1 ++ names2)
                  = sets_in_order saved names1 ++ sets_in_order saved names2)
    by apply omap_app.
  rewrite Hsets in Ht, Hl, Hi, He. unfold last_writer in *.
  repeat split.
  - apply map_eq. intros k.
    rewrite lookup_union, Ht, Ht1, Ht2, bind_app, last_app, !lookup_empty.
    by destruct (last (sets_in_order saved names2 ≫= _)),
         (last (sets_in_order saved names1 ≫= _)).
  - apply map_eq. intros k.
    rewrite lookup_union, Hl, Hl1, Hl2, bind_app, last_app, !lookup_empty.
    by destruct (last (sets_in_order saved names2 ≫= _)),
         (last (sets_in_order saved names1 ≫= _)).
  - by rewrite Hi, Hi1, Hi2, bind_app.
  - by rewrite He, He1, He2, bind_app.
Qed.

(** ** [_is_excluded_by_pairs] *)

(** X9. A candidate is excluded exactly when some selected key forms an
    exclusion pair with it, in either order of the pair; so the answer does
    not change when the two keys of every pair are swapped, and it is
    [False] when nothing is selected or there is no pair. *)
Theorem is_excluded_by_pairs_spec (candidate_key : string)
    (selected_keys : list string) (exclude_pairs : list (string * string)) :
  (_is_excluded_by_pairs candidate_key selected_keys exclude_pairs = true ↔
   ∃ sk, sk ∈ selected_keys
         ∧ ((candidate_key, sk) ∈ exclude_pairs
            ∨ (sk, candidate_key) ∈ exclude_pairs))
  ∧ _is_excluded_by_pairs candidate_key selected_keys
      (prod_swap <$> exclude_pairs)
    = _is_excluded_by_pairs candidate_key selected_keys exclude_pairs
  ∧ _is_excluded_by_pairs candidate_key [] exclude_pairs = false
  ∧ _is_excluded_by_pairs candidate_key selected_keys [] = false.
Proof.
  split; [apply is_excluded_true|]. split; [|split].
  - assert (Hswap : ∀ a b : string,
              (a, b) ∈ prod_swap <$> exclude_pairs ↔ (b, a) ∈ exclude_pairs).
    { intros a b. rewrite list_elem_of_fmap. split.
      - intros ([x y] & [= -> ->] & Hin). done.
      - intros Hin. by exists (b, a). }
    apply eq_true_iff_eq. rewrite !is_excluded_true.
    split; intros (sk & Hsk & Hpair); exists sk; (split; [done|]);
      rewrite ?Hswap in *; tauto.
  - by destruct exclude_pairs.
  - done.
Qed.

(** ** The final layer order *)

Lemma StronglySorted_filter {A} (R : relation A) (P : A → Prop)
    `{∀ x, Decision (P x)} (l : list A) :
  StronglySorted R l → StronglySorted R (filter P l).
Proof.
  induction 1 as [|x l Hsorted IH Hall]; [constructor|].
  rewrite filter_cons. destruct (decide (P x)); [|done].
  constructor; [done|].
  rewrite Forall_forall in *. intros y Hy.
  apply list_elem_of_filter in Hy as [_ Hy]. by apply Hall.
Qed.

Lemma sorted_layers_spec (all_traits : gmap string (list string)) :
  StronglySorted String.le (sorted_layers all_traits)
  ∧ NoDup (sorted_layers all_traits)
  ∧ ∀ L, L ∈ sorted_layers all_traits ↔ is_Some (all_traits !! L).
Proof.
  unfold sorted_layers. split; [|split].
  - apply (StronglySorted_merge_sort _).
  - rewrite merge_sort_Permutation. apply NoDup_elements.
  - intros L. rewrite merge_sort_Permutation, elem_of_elements.
    apply elem_of_dom.
Qed.

(** X10. The final layer order holds only catalog layers that are not excluded.
    It keeps the layers of a given [layer_order] that qualify, in their
    order and without adding repetitions.  For an empty [layer_order] it is
    the list of all qualifying catalog layers, each once, in ascending
    order of their names. *)
Theorem final_layer_order_spec (world : World) (config : Config) :
  let order := final_layer_order world config in
  let qualifies L :=
    is_Some (all_traits world !! L) ∧ L ∉ excluded_layers config in
  (∀ L, L ∈ order → qualifies L)
  ∧ (layer_order config ≠ [] →
     order `sublist_of` layer_order config
     ∧ (∀ L, L ∈ order ↔ L ∈ layer_order config ∧ qualifies L)
     ∧ (NoDup (layer_order config) → NoDup order))
  ∧ (layer_order config = [] →
     StronglySorted String.le order ∧ NoDup order
     ∧ ∀ L, L ∈ order ↔ qualifies L).
Proof.
  intros order qualifies. subst order. unfold final_layer_order.
  destruct (sorted_layers_spec (all_traits world))
    as (Hsorted & Hnodup & Hmem).
  split; [|split].
  - intros L HL. by apply list_elem_of_filter in HL as [HL _].
  - intros Hgiven.
    destruct (layer_order config) as [|l ls] eqn:Horder; [done|].
    split; [apply sublist_filter|]. split.
    + intros L. rewrite list_elem_of_filter. subst qualifies. simpl. tauto.
    + apply NoDup_filter.
  - intros ->. split; [by apply StronglySorted_filter|].
    split; [by apply NoDup_filter|].
    intros L. rewrite list_elem_of_filter, Hmem. subst qualifies. simpl.
    tauto.
Qed.

Lemma final_layer_order_spec_witness :
  let world := {| draws := λ _, 0%N; saved_file := FileMissing;
                  all_traits := {[ "Hat" := ["Red"]; "Eyes" := ["Open"];
                                   "Back" := ["Sky"] ]};
                  setup := SetupCompletes; faults := λ _, NoFault;
                  progress_callback := None |} in
  let config := {| layer_order := []; excluded_layers := ["Eyes"];
                   mapping_sets := []; collection_name := None;
                   collection_description := None |} in
  StronglySorted String.le (final_layer_order world config)
  ∧ NoDup (final_layer_order world config)
  ∧ ∀ L, L ∈ final_layer_order world config
         ↔ is_Some (all_traits world !! L) ∧ L ∉ excluded_layers config.
Proof.
  intros world config.
  apply (final_layer_order_spec world config). reflexivity.
Defined.

Example final_layer_order_default :
  final_layer_order
    {| draws := λ _, 0%N; saved_file := FileMissing;
       all_traits := {[ "Hat" := ["Red"]; "Eyes" := ["Open"];
                        "Back" := ["Sky"] ]};
       setup := SetupCompletes; faults := λ _, NoFault;
       progress_callback := None |}
    {| layer_order := []; excluded_layers := ["Eyes"];
       mapping_sets := []; collection_name := None;
       collection_description := None |}
  = ["Back"; "Hat"].
Proof. by vm_compute. Qed.

(** ** The DNA string *)

Lemma string_app_assoc (s1 s2 s3 : string) :
  (s1 +:+ s2) +:+ s3 = s1 +:+ (s2 +:+ s3).
Proof.
  induction s1 as [|c s1 IH]; [done|]. exact (f_equal (String c) IH).
Qed.

Lemma bar_split (t t' r r' : string) :
  has_bar t = false → has_bar t' = false →
  t +:+ "|" +:+ r = t' +:+ "|" +:+ r' →
  t = t' ∧ r = r'.
Proof.
  revert t'. induction t as [|c t IH]; intros [|c' t'] Ht Ht' Heq.
  - change (String "|"%char r = String "|"%char r') in Heq.
    by injection Heq.
  - change (String "|"%char r = String c' (t' +:+ "|" +:+ r')) in Heq.
    injection Heq as <- _. simpl in Ht'. discriminate.
  - change (String c (t +:+ "|" +:+ r) = String "|"%char r') in Heq.
    injection Heq as -> _. simpl in Ht. discriminate.
  - change (String c (t +:+ "|" +:+ r) = String c' (t' +:+ "|" +:+ r'))
      in Heq.
    injection Heq as -> Heq. simpl in Ht, Ht'.
    apply orb_false_iff in Ht as [_ Ht]. apply orb_false_iff in Ht' as [_ Ht'].
    by destruct (IH t' Ht Ht' Heq) as [-> ->].
Qed.

Lemma make_key_inj (layer t t' : string) :
  make_key layer t = make_key layer t' → t = t'.
Proof.
  unfold make_key. intros Heq.
  apply (inj (String.app layer)) in Heq. by injection Heq.
Qed.

(** X11. The DNA tells selections apart as long as no trait name contains the
    separator: two selections with the same DNA give every layer of the
    order the same trait or both none, where a trait that is literally the
    sentinel counts as none. *)
Theorem dna_injective (final_layer_order : list string)
    (sel1 sel2 : gmap string string) :
  (∀ l t, sel1 !! l = Some t → has_bar t = false) →
  (∀ l t, sel2 !! l = Some t → has_bar t = false) →
  dna_of final_layer_order sel1 = dna_of final_layer_order sel2 →
  ∀ layer, layer ∈ final_layer_order →
    default "__none__" (sel1 !! layer) = default "__none__" (sel2 !! layer).
Proof.
  intros Hbar1 Hbar2.
  assert (Hpiece : ∀ (sel : gmap string string) l,
            (∀ l t, sel !! l = Some t → has_bar t = false) →
            has_bar (default "__none__" (sel !! l)) = false).
  { intros sel l Hbar. destruct (sel !! l) as [t|] eqn:Hl; [|done].
    by eapply Hbar. }
  induction final_layer_order as [|l order IH]; intros Heq layer Hin.
  - by apply elem_of_nil in Hin.
  - destruct order as [|l2 rest].
    + apply list_elem_of_singleton in Hin. subst layer.
      by apply (make_key_inj l).
    + change (make_key l (default "__none__" (sel1 !! l))
                +:+ "|" +:+ dna_of (l2 :: rest) sel1
              = make_key l (default "__none__" (sel2 !! l))
                +:+ "|" +:+ dna_of (l2 :: rest) sel2) in Heq.
      unfold make_key in Heq. rewrite !string_app_assoc in Heq.
      apply (inj (String.app l)) in Heq.
      apply (inj (String.app ":")) in Heq.
      apply bar_split in Heq as [Hhead Hrest]; [|by apply Hpiece..].
      apply elem_of_cons in Hin as [->|Hin]; [done|]. by apply IH.
Qed.

Lemma dna_injective_witness :
  default "__none__" (({[ "Hat" := "Red" ]} : gmap string string) !! "Eyes")
  = default "__none__"
      (({[ "Hat" := "Red"; "Back" := "Sky" ]} : gmap string string)
       !! "Eyes").
Proof.
  apply (dna_injective ["Hat"; "Eyes"]).
  - intros l t Hl. apply lookup_singleton_Some in Hl as [_ <-]. reflexivity.
  - intros l t Hl. apply lookup_insert_Some in Hl as [[_ <-]|[_ Hl]];
      [reflexivity|].
    apply lookup_singleton_Some in Hl as [_ <-]. reflexivity.
  - reflexivity.
  - right. left.
Defined.

(** Without that condition two different selections can share a DNA. *)
Example dna_collision :
  let sel1 : gmap string string := {[ "A" := "x|B:y"; "B" := "z" ]} in
  let sel2 : gmap string string := {[ "A" := "x"; "B" := "y|B:z" ]} in
  dna_of ["A"; "B"] sel1 = dna_of ["A"; "B"] sel2 ∧ sel1 !! "A" ≠ sel2 !! "A".
Proof. by vm_compute. Qed.


(** ** What a run writes *)

Section RunFiles.

Variable world : World.
Variable config : Config.
Variable edition_size : nat.

(** Induction over the edition loop for a property that stays true when
    the edition counter advances. *)
Lemma run_editions_invariant (P : nat → RunState → Prop) :
  (∀ n st, P n st →
     P (S n) (flow_state (run_edition world config edition_size n st))) →
  (∀ n st, P n st → P (S n) st) →
  ∀ len first st, P first st →
    P (first + len)
      (flow_state
         (run_editions world config edition_size (seq first len) st)).
Proof.
  intros Hstep Hmono.
  assert (Hmore : ∀ k n st, P n st → P (n + k) st).
  { induction k as [|k IH]; intros n st HP.
    - by rewrite Nat.add_0_r.
    - rewrite Nat.add_succ_r. by apply Hmono, IH. }
  induction len as [|len IH]; intros first st HP.
  - by rewrite Nat.add_0_r.
  - simpl. pose proof (Hstep first st HP) as Hnext.
    destruct (run_edition world config edition_size first st) as [st1|st1];
      simpl in Hnext; rewrite Nat.add_succ_r.
    + by apply (IH (S first)).
    + by apply (Hmore len (S first)).
Qed.

(** The attributes of one written record. *)
Lemma metadata_of_attributes n st (l t : string) :
  (l, t) ∈ md_attributes
             (metadata_of world config n
                (selected (edition_selection world config st))) →
  is_Some (all_traits world !! l) ∧ (l ∉ excluded_layers config)
  ∧ t ≠ "" ∧ t ≠ "__none__"
  ∧ (t ∈ default [] (all_traits world !! l)
     ∨ ∃ a, (a, make_key l t) ∈ include_pairs (rules world config)).
Proof.
  simpl. rewrite attributes_of_elem. intros (Hin & Hl & Hc).
  apply concrete_true in Hc as [Hne Hsentinel].
  apply select_edition_origin in Hl as [_ Horigin].
  unfold final_layer_order in Hin.
  apply list_elem_of_filter in Hin as [[Hcat Hexcl] _].
  done.
Qed.

End RunFiles.

(** X12. Every attribute of every metadata record that a run writes names a
    catalog layer that is not excluded and a trait that is neither empty
    nor the sentinel; the trait is a catalog trait of that layer or the
    target of an inclusion pair; and the attributes of a record follow the
    final layer order. *)
Theorem written_attributes (world : World) (config : Config)
    (edition_size : nat) (md : Metadata) :
  md ∈ metadata (flow_state (run world config edition_size)) →
  (md_attributes md).*1 `sublist_of` final_layer_order world config
  ∧ ∀ l t, (l, t) ∈ md_attributes md →
      is_Some (all_traits world !! l) ∧ (l ∉ excluded_layers config)
      ∧ t ≠ "" ∧ t ≠ "__none__"
      ∧ (t ∈ default [] (all_traits world !! l)
         ∨ ∃ a, (a, make_key l t) ∈ include_pairs (rules world config)).
Proof.
  revert md.
  set (P := λ (_ : nat) (st : RunState), ∀ md, md ∈ metadata st →
         (md_attributes md).*1 `sublist_of` final_layer_order world config
         ∧ ∀ l t, (l, t) ∈ md_attributes md →
             is_Some (all_traits world !! l)
             ∧ (l ∉ excluded_layers config)
             ∧ t ≠ "" ∧ t ≠ "__none__"
             ∧ (t ∈ default [] (all_traits world !! l)
                ∨ ∃ a, (a, make_key l t)
                       ∈ include_pairs (rules world config))).
  assert (Hstep : ∀ n st, P n st →
            P (S n) (flow_state (run_edition world config edition_size n st))).
  { intros n st Hold md.
    destruct (edition_after_try world config edition_size n st)
      as (_ & _ & -> & _).
    destruct (try_body_writes world config edition_size n st)
      as [(_ & _ & -> & _)
         |(_ & _ & [(_ & -> & _)|(_ & [(-> & _)|(-> & _)])])];
      try apply Hold.
    intros [Hmd|Hmd]%elem_of_app; [by apply Hold|].
    apply list_elem_of_singleton in Hmd. subst md. split.
    - apply attributes_of_sublist.
    - apply metadata_of_attributes. }
  assert (Hinit : P 1 (initial_state world config)).
  { intros md Hmd. by apply elem_of_nil in Hmd. }
  exact (run_editions_invariant world config edition_size P Hstep
           (λ _ _ H, H) edition_size 1 _ Hinit).
Qed.

Lemma written_attributes_witness :
  let world := single_trait_world None in
  let md := {| md_collection := "Collection"; md_description := "";
               md_attributes := [("Hat", "Red")]; md_edition := 1 |} in
  (md_attributes md).*1 `sublist_of` final_layer_order world plain_config
  ∧ ∀ l t, (l, t) ∈ md_attributes md →
      is_Some (all_traits world !! l) ∧ (l ∉ excluded_layers plain_config)
      ∧ t ≠ "" ∧ t ≠ "__none__"
      ∧ (t ∈ default [] (all_traits world !! l)
         ∨ ∃ a, (a, make_key l t)
                ∈ include_pairs (rules world plain_config)).
Proof.
  intros world md.
  apply (written_attributes world plain_config 2 md).
  vm_compute. left.
Defined.

(** X13. In every run the images carry different edition numbers, all between
    1 and the requested count, and so do the metadata records: no edition
    writes over the files of another. *)
Theorem written_numbers (world : World) (config : Config)
    (edition_size : nat) :
  let st := flow_state (run world config edition_size) in
  NoDup (images st).*1
  ∧ (∀ n, n ∈ (images st).*1 → 1 ≤ n ≤ edition_size)
  ∧ NoDup (md_edition <$> metadata st)
  ∧ (∀ n, n ∈ md_edition <$> metadata st → 1 ≤ n ≤ edition_size).
Proof.
  set (P := λ (next : nat) (st : RunState),
         1 ≤ next
         ∧ NoDup (images st).*1
         ∧ (∀ n, n ∈ (images st).*1 → 1 ≤ n < next)
         ∧ NoDup (md_edition <$> metadata st)
         ∧ (∀ n, n ∈ md_edition <$> metadata st → 1 ≤ n < next)).
  assert (Hstep : ∀ n st, P n st →
            P (S n) (flow_state (run_edition world config edition_size n st))).
  { intros n st (Hn & Hi & Hib & Hm & Hmb).
    destruct (edition_after_try world config edition_size n st)
      as (_ & Ei & Em & _).
    assert (Hgrow : ∀ l : list nat,
              NoDup l → (∀ x, x ∈ l → 1 ≤ x < n) →
              NoDup (l ++ [n]) ∧ ∀ x, x ∈ l ++ [n] → 1 ≤ x < S n).
    { intros l Hl Hlb. split.
      - apply NoDup_app. split; [done|]. split; [|apply NoDup_singleton].
        intros x Hx Heq%list_elem_of_singleton. apply Hlb in Hx. lia.
      - intros x [Hx|Heq%list_elem_of_singleton]%elem_of_app;
          [apply Hlb in Hx|]; lia. }
    assert (Hkeep : ∀ l : list nat,
              (∀ x, x ∈ l → 1 ≤ x < n) → ∀ x, x ∈ l → 1 ≤ x < S n).
    { intros l Hlb x Hx. apply Hlb in Hx. lia. }
    destruct (Hgrow _ Hi Hib) as [Hi' Hib'].
    destruct (Hgrow _ Hm Hmb) as [Hm' Hmb'].
    unfold P. rewrite Ei, Em.
    destruct (try_body_writes world config edition_size n st)
      as [(_ & -> & -> & _)
         |(_ & _ & [(-> & -> & _)|(-> & [(-> & _)|(-> & _)])])];
      rewrite ?fmap_app; refine (conj _ (conj _ (conj _ (conj _ _))));
      first [lia | assumption | exact Hi' | exact Hib' | exact Hm'
            | exact Hmb' | by apply Hkeep]. }
  assert (Hmono : ∀ n st, P n st → P (S n) st).
  { intros n st (Hn & Hi & Hib & Hm & Hmb).
    refine (conj _ (conj _ (conj _ (conj _ _))));
      first [lia | assumption
            | intros x Hx; first [apply Hib in Hx|apply Hmb in Hx]; lia]. }
  assert (Hinit : P 1 (initial_state world config)).
  { refine (conj _ (conj _ (conj _ (conj _ _)))); simpl;
      first [lia | by apply NoDup_nil
            | intros x Hx; by apply elem_of_nil in Hx]. }
  destruct (run_editions_invariant world config edition_size P Hstep Hmono
              edition_size 1 _ Hinit) as (_ & Hi & Hib & Hm & Hmb).
  unfold run.
  refine (conj _ (conj _ (conj _ _)));
    first [assumption
          | intros x Hx; first [apply Hib in Hx|apply Hmb in Hx]; lia].
Qed.

(** ** Inclusion pairs along the layer walk *)

Section InclusionForces.

Variable draws : Random.source.
Variable all_traits : gmap string (list string).
Variable rules : MergedRules.

(** A forced layer that has catalog traits takes its forced trait. *)
Lemma select_layer_forced s layer t :
  raised s = false →
  forced_selection s !! layer = Some t →
  default [] (all_traits !! layer) ≠ [] →
  selected (select_layer draws all_traits rules s layer) !! layer = Some t.
Proof.
  intros Hs Hforced Hopts. unfold select_layer. rewrite Hs.
  destruct (default [] (all_traits !! layer)); [done|].
  rewrite bool_decide_eq_true_2 by done. rewrite Hforced. simpl.
  by rewrite lookup_insert_eq.
Qed.

(** At the first visit of a layer that is not forced, no inclusion pair
    with a selected source key targets it. *)
Lemma required_trait_unvisited s layer :
  selection_inv rules s →
  selected s !! layer = None → forced_selection s !! layer = None →
  required_trait (include_pairs rules) (selected_keys s) layer = None.
Proof.
  intros Hinv Hsel Hforced.
  destruct (required_trait _ _ _) as [tb|] eqn:Hreq; [|done].
  apply required_trait_Some in Hreq as (a & b & Hpair & Ha & Hb).
  destruct (inv_chain rules s Hinv a b layer tb Hpair Ha Hb) as [[t Ht]|[t Ht]];
    congruence.
Qed.

Lemma select_layer_first_visit s layer :
  selection_inv rules s → selected s !! layer = None →
  warnings (select_layer draws all_traits rules s layer) = warnings s.
Proof.
  intros Hinv Hsel. unfold select_layer.
  destruct (raised s); [done|].
  destruct (default [] (all_traits !! layer)) as [|o os]; [done|].
  destruct (forced_selection s !! layer) as [forced_trait|] eqn:Hforced.
  - rewrite bool_decide_eq_true_2 by done. by rewrite Hforced.
  - rewrite bool_decide_eq_false_2 by (by intros [? ?]).
    destruct (layer_skipped _ _) as [[]|]; [done| |done].
    simpl. rewrite Hforced. unfold choose_trait.
    change (selected_keys (with_rng (S (rng s)) s)) with (selected_keys s).
    rewrite required_trait_unvisited by done.
    destruct (viable_options _ _ _ _); [done|].
    by destruct (_weighted_choice _ _ _ _) as [[[t|]|] pos].
Qed.

Lemma select_layers_first_visits layers s :
  NoDup layers → selection_inv rules s →
  (∀ l, l ∈ layers → selected s !! l = None) →
  warnings (fold_left (select_layer draws all_traits rules) layers s)
  = warnings s.
Proof.
  intros Hnodup. revert s.
  induction Hnodup as [|layer layers Hnot Hnodup IH]; intros s Hinv Hnone;
    [done|].
  simpl. rewrite IH.
  - apply select_layer_first_visit; [done|]. apply Hnone. by left.
  - by apply select_layer_inv.
  - intros l Hl. rewrite select_layer_off_layer.
    + apply Hnone. by right.
    + intros ->. done.
Qed.

(** In a walk that visits no layer twice the scan for a required trait
    finds nothing, so no edition logs an unsatisfiable inclusion. *)
Lemma select_edition_no_warning final_layer_order pos :
  NoDup final_layer_order →
  warnings (select_edition draws all_traits rules final_layer_order pos) = [].
Proof.
  intros Hnodup. unfold select_edition.
  rewrite select_layers_first_visits; [done|done|apply fresh_edition_inv|].
  intros l _. simpl. apply lookup_empty.
Qed.

End InclusionForces.

(** X14. An inclusion pair forces a later layer.  If the source key of an
    inclusion pair is selected while the layers before [lb] are walked,
    that walk reaches [lb] (no [OverflowError] has left it), and [lb] is a
    layer with catalog traits that the order holds once, then the edition
    gives [lb] a trait, whatever the rarity of the layer, the draws and the
    exclusion pairs: the target trait of an inclusion pair whose source key
    was selected before, taken without a look at the catalog; it is the
    trait of the pair when every pair that targets the layer names that
    trait. *)
Theorem inclusion_forces_later_layer (draws : Random.source)
    (all_traits : gmap string (list string)) (rules : MergedRules)
    (before after : list string) (pos : nat) (a b lb tb : string) :
  (a, b) ∈ include_pairs rules →
  split_colon b = Some (lb, tb) →
  a ∈ selected_keys (select_edition draws all_traits rules before pos) →
  raised (select_edition draws all_traits rules before pos) = false →
  lb ∉ before → lb ∉ after →
  default [] (all_traits !! lb) ≠ [] →
  let ed :=
    select_edition draws all_traits rules (before ++ lb :: after) pos in
  ∃ t, selected ed !! lb = Some t
       ∧ inclusion_driven rules (make_key lb t)
           (selected_keys (select_edition draws all_traits rules before pos))
       ∧ ((∀ a' t', (a', make_key lb t') ∈ include_pairs rules → t' = tb) →
          t = tb).
Proof.
  intros Hpair Hb Ha Hreached Hbefore Hafter Hopts ed.
  pose proof (select_edition_inv draws all_traits rules before pos) as Hinv.
  set (s1 := select_edition draws all_traits rules before pos) in *.
  assert (selected s1 !! lb = None) as Hsel.
  { unfold s1, select_edition. rewrite select_layers_off_layers by done.
    simpl. apply lookup_empty. }
  destruct (inv_chain rules s1 Hinv a b lb tb Hpair Ha Hb) as [[t Ht]|[t Ht]];
    [by rewrite Hsel in Ht|].
  exists t. split; [|split].
  - unfold ed, select_edition. rewrite fold_left_app. simpl.
    rewrite select_layers_off_layers by done.
    by apply select_layer_forced.
  - by apply (inv_forced rules s1 Hinv).
  - intros Hsole. destruct (inv_forced rules s1 Hinv lb t Ht) as (a' & Ha' & _).
    by apply (Hsole a').
Qed.

Lemma inclusion_forces_later_layer_witness :
  let ed := select_edition (λ _, 0%N) forcing_catalog forcing_rules
              (["A"] ++ "B" :: []) 0 in
  ∃ t, selected ed !! "B" = Some t
       ∧ inclusion_driven forcing_rules (make_key "B" t)
           (selected_keys
              (select_edition (λ _, 0%N) forcing_catalog forcing_rules
                 ["A"] 0))
       ∧ ((∀ a' t', (a', make_key "B" t') ∈ include_pairs forcing_rules →
                    t' = "Pink") →
          t = "Pink").
Proof.
  apply (inclusion_forces_later_layer (λ _, 0%N) forcing_catalog
           forcing_rules ["A"] [] 0 "A:Red" "B:Pink" "B" "Pink").
  - left.
  - reflexivity.
  - vm_compute. left.
  - by vm_compute.
  - intros Hin. apply list_elem_of_singleton in Hin. discriminate.
  - apply not_elem_of_nil.
  - discriminate.
Defined.

Lemma final_layer_order_NoDup (world : World) (config : Config) :
  NoDup (layer_order config) → NoDup (final_layer_order world config).
Proof.
  intros Hnodup. unfold final_layer_order. apply NoDup_filter.
  destruct (layer_order config); [|done].
  apply sorted_layers_spec.
Qed.

Section RunLog.

Variable world : World.
Variable config : Config.
Variable edition_size : nat.

(** What one iteration adds to the log. *)
Lemma edition_log n st msg :
  msg ∈ log (flow_state (run_edition world config edition_size n st)) →
  msg ∈ log st ∨ msg ∈ warnings (edition_selection world config st)
  ∨ msg = MsgDuplicate n ∨ msg = MsgGenerated n ∨ msg = MsgError n.
Proof.
  unfold edition_selection.
  edition_cases; rewrite ?elem_of_app, ?list_elem_of_singleton;
    intros H;
    repeat match goal with H : _ ∨ _ |- _ => destruct H as [H|H] end;
    auto 10.
Qed.

End RunLog.

(** X15. The warning of an inclusion whose trait is not found is dead
    code for a layer order without repetitions: when [layer_order] names
    no layer twice (an empty [layer_order] included), no run logs it,
    whatever the rules, the catalog and the draws.  The scan for a
    required trait only finds a pair whose target layer is already forced
    or selected. *)
Theorem no_inclusion_warning_without_repeats (world : World)
    (config : Config) (edition_size : nat) (layer trait : string) :
  NoDup (layer_order config) →
  WarnInclusionNotFound layer trait
  ∉ log (flow_state (run world config edition_size)).
Proof.
  intros Hnodup.
  set (P := λ (_ : nat) (st : RunState),
         WarnInclusionNotFound layer trait ∉ log st).
  assert (Hstep : ∀ n st, P n st →
            P (S n) (flow_state (run_edition world config edition_size n st))).
  { intros n st Hold Hin.
    apply edition_log in Hin as [Hin|[Hin|[Hin|[Hin|Hin]]]]; try done.
    unfold edition_selection in Hin.
    rewrite select_edition_no_warning in Hin
      by (by apply final_layer_order_NoDup).
    by apply elem_of_nil in Hin. }
  assert (Hinit : P 1 (initial_state world config)).
  { intros Hin. simpl in Hin.
    apply merge_log_warnings in Hin as [Hin|[name Hin]]; done. }
  exact (run_editions_invariant world config edition_size P Hstep
           (λ _ _ H, H) edition_size 1 _ Hinit).
Qed.

Lemma no_inclusion_warning_without_repeats_witness :
  NoDup (layer_order forced_into_exclusion_config)
  ∧ WarnInclusionNotFound "B" "Blue"
    ∉ log (flow_state
             (run forced_into_exclusion forced_into_exclusion_config 2)).
Proof.
  assert (NoDup (layer_order forced_into_exclusion_config)) as Hnodup.
  { exact (bool_decide_unpack (NoDup ["C"; "A"; "B"]) I). }
  split; [exact Hnodup|].
  exact (no_inclusion_warning_without_repeats forced_into_exclusion
           forced_into_exclusion_config 2 "B" "Blue" Hnodup).
Defined.

(** ** Trait rarities *)

(** An entry of the viable options carries the floored rarity of its key
    and is excluded by no selected key. *)
Lemma viable_options_entry rules layer options selected_keys t z :
  (t, z) ∈ viable_options rules layer options selected_keys ↔
  t ∈ options
  ∧ _is_excluded_by_pairs (make_key layer t) selected_keys (exclude_pairs rules)
    = false
  ∧ z = trait_weight (trait_rarities rules) (make_key layer t).
Proof.
  unfold viable_options. rewrite list_elem_of_omap. split.
  - intros (t0 & Ht0 & Hsome). cbv zeta in Hsome.
    destruct (_is_excluded_by_pairs (make_key layer t0) selected_keys
                (exclude_pairs rules)) eqn:Hex; [done|].
    by injection Hsome as -> ->.
  - intros (Ht & Hex & ->). exists t. split; [done|]. cbv zeta.
    by rewrite Hex.
Qed.

(** With a viable option of positive weight, and weights that are
    accumulated without rounding, the weighted draw returns an option of
    positive weight. *)
Lemma weighted_choice_positive draws pos (viable : list (string * Z)) :
  (positive_total viable.*2 < 2 ^ 53)%Z →
  (∃ t z, (t, z) ∈ viable ∧ (0 < z)%Z) →
  ∃ t z, _weighted_choice draws pos (viable.*1) (viable.*2)
         = (Returned (Some t), S pos)
         ∧ (t, z) ∈ viable ∧ (0 < z)%Z.
Proof.
  intros Hsmall (t0 & z0 & Hin & Hz0).
  set (options := viable.*1). set (weights := viable.*2).
  assert (length options = length weights) as Hlen.
  { unfold options, weights. by rewrite !length_fmap. }
  assert (0 < positive_total weights)%Z as Htotal.
  { apply positive_total_positive, Exists_exists. exists z0. split; [|done].
    unfold weights. apply list_elem_of_fmap. by exists (t0, z0). }
  destruct (weighted_choice_exact draws pos options weights Hlen)
    as (_ & _ & _ & _ & i & opt & w & Hchoice & Ho & Hw & Hpos & _);
    [done|].
  unfold options, weights in Ho, Hw.
  rewrite list_lookup_fmap in Ho. rewrite list_lookup_fmap in Hw.
  destruct (viable !! i) as [[t z]|] eqn:Hi; [|done].
  simpl in Ho, Hw. injection Ho as ->. injection Hw as <-.
  exists opt, z. split; [done|]. split; [|done].
  by eapply list_elem_of_lookup_2.
Qed.

Section TraitRarity.

Variable draws : Random.source.
Variable all_traits : gmap string (list string).
Variable rules : MergedRules.

(** The trait [free] of layer [l] has a positive rarity and no exclusion
    pair names it. *)
Variable l free : string.
Hypothesis free_positive :
  (0 < trait_weight (trait_rarities rules) (make_key l free))%Z.
Hypothesis free_compatible : ∀ k,
  ((make_key l free, k) ∉ exclude_pairs rules)
  ∧ ((k, make_key l free) ∉ exclude_pairs rules).

Lemma choose_trait_earned options s :
  (positive_total (layer_weights rules l options) < 2 ^ 53)%Z →
  free ∈ options → earned rules l s →
  earned rules l (choose_trait draws rules l options s).
Proof.
  intros Hexact free_catalog Hold t. unfold choose_trait.
  destruct (required_trait _ _ _) as [required|] eqn:Hreq.
  - case_bool_decide; [|apply Hold]. simpl. rewrite lookup_insert_eq.
    intros [= <-]. right.
    apply required_trait_Some in Hreq as (a & b & Hpair & _ & Hb).
    apply split_colon_join in Hb. subst b. by exists a.
  - assert ((free, trait_weight (trait_rarities rules) (make_key l free))
            ∈ viable_options rules l options (selected_keys s)) as Hfree.
    { apply viable_options_entry. split; [done|]. split; [|done].
      destruct (_is_excluded_by_pairs _ _ _) eqn:Hex; [|done].
      apply is_excluded_true in Hex as (sk & _ & [Hex|Hex]);
        by destruct (free_compatible sk). }
    assert (positive_total
              (viable_options rules l options (selected_keys s)).*2
            < 2 ^ 53)%Z as Hsmall.
    { pose proof (viable_options_total rules l options (selected_keys s)).
      lia. }
    destruct (weighted_choice_positive draws (rng s) _ Hsmall
                (ex_intro _ _ (ex_intro _ _ (conj Hfree free_positive))))
      as (chosen & z & Hchoice & Hin & Hz).
    destruct (viable_options rules l options (selected_keys s))
      as [|v vs] eqn:Hviable; [apply Hold|].
    rewrite <- Hviable in *. rewrite Hchoice.
    simpl. rewrite lookup_insert_eq.
    intros [= <-]. left.
    apply viable_options_entry in Hin as (_ & _ & ->). done.
Qed.

Lemma select_layer_earned s layer :
  (positive_total (layer_weights rules l (default [] (all_traits !! l)))
   < 2 ^ 53)%Z →
  free ∈ default [] (all_traits !! l) →
  selection_inv rules s → earned rules l s →
  earned rules l (select_layer draws all_traits rules s layer).
Proof.
  intros Hexact Hcat Hinv Hold t.
  destruct (decide (l = layer)) as [<-|Hne];
    [|rewrite select_layer_off_layer by done; apply Hold].
  unfold select_layer.
  destruct (raised s); [apply Hold|].
  destruct (default [] (all_traits !! l)) as [|o os] eqn:Hopts; [apply Hold|].
  rewrite <- Hopts in *.
  destruct (forced_selection s !! l) as [forced_trait|] eqn:Hforced.
  - rewrite bool_decide_eq_true_2 by done. rewrite Hforced. simpl.
    rewrite lookup_insert_eq. intros [= <-]. right.
    destruct (inv_forced rules s Hinv _ _ Hforced) as (a & Ha & _). by exists a.
  - rewrite bool_decide_eq_false_2 by (by intros [? ?]).
    destruct (layer_skipped _ _) as [[]|]; [apply Hold| |apply Hold].
    simpl. rewrite Hforced. by apply choose_trait_earned.
Qed.

Lemma select_edition_earned final_layer_order pos :
  (positive_total (layer_weights rules l (default [] (all_traits !! l)))
   < 2 ^ 53)%Z →
  free ∈ default [] (all_traits !! l) →
  earned rules l (select_edition draws all_traits rules final_layer_order pos).
Proof.
  intros Hexact Hcat. unfold select_edition.
  assert (earned rules l (fresh_edition pos)) as Hinit.
  { intros t Ht. simpl in Ht. by rewrite lookup_empty in Ht. }
  pose proof (fresh_edition_inv rules pos) as Hinv.
  revert Hinv Hinit. generalize (fresh_edition pos) as s.
  induction final_layer_order as [|layer layers IH]; intros s Hinv Hold;
    [done|].
  simpl. apply IH; [by apply select_layer_inv|by apply select_layer_earned].
Qed.

End TraitRarity.

(** X16. A trait rarity of 0 (or below) means never, inclusions apart, as
    long as the weights of the layer are accumulated without rounding: if
    the floored rarities of the catalog traits of a layer sum below
    [2 ^ 53] and the layer has a catalog trait of positive rarity that no
    exclusion pair names, then a trait of that layer whose floored rarity
    is 0 is in the selection of an edition only as the target of an
    inclusion pair.  The weighted draw then never returns an option of
    weight 0 while an option of positive weight is viable. *)
Theorem zero_rarity_trait_needs_inclusion (draws : Random.source)
    (all_traits : gmap string (list string)) (rules : MergedRules)
    (final_layer_order : list string) (pos : nat) (l free t : string) :
  (positive_total (layer_weights rules l (default [] (all_traits !! l)))
   < 2 ^ 53)%Z →
  free ∈ default [] (all_traits !! l) →
  (0 < trait_weight (trait_rarities rules) (make_key l free))%Z →
  (∀ k, ((make_key l free, k) ∉ exclude_pairs rules)
        ∧ ((k, make_key l free) ∉ exclude_pairs rules)) →
  selected (select_edition draws all_traits rules final_layer_order pos) !! l
  = Some t →
  trait_weight (trait_rarities rules) (make_key l t) = 0%Z →
  ∃ a, (a, make_key l t) ∈ include_pairs rules.
Proof.
  intros Hexact Hcat Hpos Hfree Hsel Hzero.
  destruct (select_edition_earned draws all_traits rules l free Hpos
              Hfree final_layer_order pos Hexact Hcat t Hsel) as [Hw|Hincl];
    [lia|done].
Qed.

Lemma zero_rarity_trait_needs_inclusion_witness :
  ∃ a, (a, make_key "B" "Pink") ∈ include_pairs forcing_rules.
Proof.
  apply (zero_rarity_trait_needs_inclusion (λ _, 0%N) forcing_catalog
           forcing_rules ["A"; "B"] 0 "B" "Blue" "Pink").
  - by vm_compute.
  - vm_compute. left.
  - reflexivity.
  - intros k. split; apply not_elem_of_nil.
  - by vm_compute.
  - reflexivity.
Defined.

(** Beyond that bound the accumulation can stall below the draw, and the
    loop falls back to the last option whatever its weight: a trait of
    rarity 0 is selected although no inclusion pair names it and five
    traits of positive rarity are viable. *)
Example zero_rarity_trait_selected_by_fallback :
  let rules := {| trait_rarities :=
                    {[ "L:a" := (2 ^ 53)%Z; "L:b" := 1%Z; "L:c" := 1%Z;
                       "L:d" := 1%Z; "L:e" := 1%Z; "L:f" := 0%Z ]};
                  layer_rarities := ∅; include_pairs := [];
                  exclude_pairs := [] |} in
  let catalog : gmap string (list string) :=
    {[ "L" := ["a"; "b"; "c"; "d"; "e"; "f"] ]} in
  let ed := select_edition (λ _, (2 ^ 53 - 1)%N) catalog rules ["L"] 0 in
  raised ed = false
  ∧ selected ed !! "L" = Some "f"
  ∧ trait_weight (trait_rarities rules) (make_key "L" "f") = 0%Z.
Proof. by vm_compute. Qed.

(** ** [_collect_traits] *)

Lemma endswith_spec (s suffix : string) :
  endswith s suffix = true ↔ ∃ p, s = p +:+ suffix.
Proof.
  split.
  - induction s as [|c s IH]; cbn [endswith].
    + rewrite orb_false_r. intros ->%String.eqb_eq. by exists "".
    + intros [->%String.eqb_eq|H]%orb_true_iff; [by exists ""|].
      destruct (IH H) as [p ->]. by exists (String c p).
  - intros [p ->]. induction p as [|c p IH].
    + change ("" +:+ suffix) with suffix.
      destruct suffix; cbn [endswith]; by rewrite String.eqb_refl.
    + change (String c p +:+ suffix) with (String c (p +:+ suffix)).
      cbn [endswith]. rewrite IH. apply orb_true_r.
Qed.

Lemma lower_split (f q s : string) :
  lower f = q +:+ s → ∃ p ext, f = p +:+ ext ∧ lower p = q ∧ lower ext = s.
Proof.
  revert f. induction q as [|c q IH]; intros f Hf.
  - by exists "", f.
  - destruct f as [|c' f]; [done|]. simpl in Hf. injection Hf as Hc Hf.
    destruct (IH f Hf) as (p & ext & -> & Hp & Hext).
    exists (String c' p), ext. simpl. by rewrite Hc, Hp.
Qed.

Lemma lower_char_dot (c : ascii) : lower_char c = "."%char → c = "."%char.
Proof.
  unfold lower_char. cbv zeta.
  destruct (_ && _) eqn:Hcase; [|done].
  apply andb_true_iff in Hcase as [Hlo Hhi].
  apply Nat.leb_le in Hlo, Hhi. intros Heq.
  apply (f_equal nat_of_ascii) in Heq.
  rewrite nat_ascii_embedding in Heq by lia.
  change (nat_of_ascii ".") with 46%nat in Heq. lia.
Qed.

Lemma lower_char_letter (c : ascii) :
  lower_char c ≠ "."%char → Ascii.eqb c "."%char = false.
Proof.
  intros Hne. apply Ascii.eqb_neq. intros ->. by apply Hne.
Qed.

(** A name with a [.png] extension in any case splits into its stem and
    that extension; the stem is the whole name when only dots precede the
    extension. *)
Lemma splitext_png (f : string) :
  endswith (lower f) ".png" = true →
  ∃ p ext, f = p +:+ ext ∧ lower ext = ".png"
           ∧ splitext_root f = (if only_dots p then f else p).
Proof.
  intros (q & Hq)%endswith_spec.
  apply lower_split in Hq as (p & ext & -> & _ & Hext).
  exists p, ext. split; [done|]. split; [done|].
  destruct ext as [|c0 [|c1 [|c2 [|c3 [|]]]]]; try done.
  simpl in Hext. injection Hext as H0 H1 H2 H3.
  apply lower_char_dot in H0 as ->.
  assert (before_last_dot (String "." (String c1 (String c2 (String c3 ""))))
          = Some "") as Hext.
  { simpl.
    rewrite (lower_char_letter c3), (lower_char_letter c2),
      (lower_char_letter c1) by (by rewrite ?H1, ?H2, ?H3). done. }
  unfold splitext_root.
  assert (∀ e r, before_last_dot e = Some r →
            before_last_dot (p +:+ e) = Some (p +:+ r)) as Happ.
  { intros e r He. induction p as [|c p IH]; simpl; [done|]. by rewrite IH. }
  rewrite (Happ _ _ Hext).
  assert (p +:+ "" = p) as Hnil.
  { clear. induction p as [|c p IH]; [done|].
    exact (f_equal (String c) IH). }
  by rewrite Hnil.
Qed.

Lemma png_traits_spec (names : gset string) :
  png_traits names
  = splitext_root
    <$> filter (λ f, endswith (lower f) ".png" = true) (sorted_names names).
Proof.
  unfold png_traits.
  assert (∀ l acc,
            fold_left (λ traits f,
                if endswith (lower f) ".png" then traits ++ [splitext_root f]
                else traits) l acc
            = acc ++ (splitext_root
                      <$> filter (λ f, endswith (lower f) ".png" = true) l))
    as Hfold.
  { induction l as [|f l IH]; intros acc; simpl.
    - by rewrite app_nil_r.
    - rewrite IH, filter_cons.
      destruct (endswith (lower f) ".png") eqn:Hf.
      + rewrite decide_True by done. by rewrite <- app_assoc.
      + rewrite decide_False by done. done. }
  by rewrite Hfold.
Qed.

Lemma sorted_names_spec (names : gset string) :
  StronglySorted String.le (sorted_names names)
  ∧ NoDup (sorted_names names) ∧ ∀ f, f ∈ sorted_names names ↔ f ∈ names.
Proof.
  unfold sorted_names. split; [|split].
  - apply (StronglySorted_merge_sort _).
  - rewrite merge_sort_Permutation. apply NoDup_elements.
  - intros f. by rewrite merge_sort_Permutation, elem_of_elements.
Qed.

(** The entry of a layer after the outer loop has walked [layers]. *)
Lemma collect_fold_lookup (entries : gmap string Entry) (layers : list string)
    (out : gmap string (list string)) (layer : string) :
  fold_left (λ out layer,
      match entries !! layer with
      | Some (SubDir names) =>
          match png_traits names with
          | [] => out
          | traits => <[layer := traits]> out
          end
      | _ => out
      end) layers out !! layer
  = match entries !! layer with
    | Some (SubDir names) =>
        match png_traits names with
        | [] => out !! layer
        | traits => if decide (layer ∈ layers) then Some traits
                    else out !! layer
        end
    | _ => out !! layer
    end.
Proof.
  revert out. induction layers as [|l layers IH]; intros out; simpl.
  - destruct (entries !! layer) as [[|names]|]; [done| |done].
    by destruct (png_traits names).
  - rewrite IH. destruct (decide (l = layer)) as [->|Hne].
    + destruct (entries !! layer) as [[|names]|]; [done| |done].
      destruct (png_traits names) as [|t ts] eqn:Htraits; [done|].
      rewrite lookup_insert_eq.
      rewrite (decide_True (P:=layer ∈ layer :: layers)) by left.
      by destruct (decide (layer ∈ layers)).
    + assert (∀ out', (match entries !! l with
                       | Some (SubDir names) =>
                           match png_traits names with
                           | [] => out
                           | traits => <[l := traits]> out
                           end
                       | _ => out
                       end) = out' → out' !! layer = out !! layer) as Hsame.
      { intros out' <-. destruct (entries !! l) as [[|names]|]; [done| |done].
        destruct (png_traits names); [done|]. by rewrite lookup_insert_ne. }
      rewrite (Hsame _ eq_refl).
      destruct (entries !! layer) as [[|names]|]; [done| |done].
      destruct (png_traits names); [done|].
      destruct (decide (layer ∈ layers)) as [Hin|Hnot].
      * rewrite (decide_True (P:=layer ∈ l :: layers)) by (by right). done.
      * rewrite (decide_False (P:=layer ∈ l :: layers)); [done|].
        intros [?|?]%elem_of_cons; congruence.
Qed.

Lemma collect_traits_nonempty (layers_dir : option (gmap string Entry))
    (layer : string) (traits : list string) :
  _collect_traits layers_dir !! layer = Some traits → traits ≠ [].
Proof.
  destruct layers_dir as [entries|]; simpl;
    [|by rewrite lookup_empty].
  rewrite collect_fold_lookup, lookup_empty.
  destruct (entries !! layer) as [[|names]|]; [done| |done].
  destruct (png_traits names) as [|t ts]; [done|].
  destruct (decide _); [|done]. by intros [= <-].
Qed.

Lemma collect_traits_subdir (entries : gmap string Entry) (layer : string) :
  is_Some (_collect_traits (Some entries) !! layer) →
  ∃ names, entries !! layer = Some (SubDir names).
Proof.
  simpl. rewrite collect_fold_lookup, lookup_empty.
  destruct (entries !! layer) as [[|names]|]; [by intros [? ?]| |by intros [? ?]].
  by exists names.
Qed.

(** X17. The catalog of [_collect_traits]: a layer is in it exactly when
    [layers_dir] is a directory, the layer is one of its subdirectories and
    that subdirectory lists at least one name ending in [.png] in any
    case; its traits are the stems of those names in the sorted order of
    the names, whether a name is a file or not.  A path that is not a
    directory gives the empty catalog, and no layer of the catalog has an
    empty trait list. *)
Theorem collect_traits_spec (layers_dir : option (gmap string Entry))
    (layer : string) (traits : list string) :
  (_collect_traits layers_dir !! layer = Some traits ↔
   ∃ entries names,
     layers_dir = Some entries ∧ entries !! layer = Some (SubDir names)
     ∧ traits = splitext_root
                <$> filter (λ f, endswith (lower f) ".png" = true)
                      (sorted_names names)
     ∧ traits ≠ [])
  ∧ _collect_traits None = ∅.
Proof.
  split; [|done].
  destruct layers_dir as [entries|]; simpl.
  - rewrite collect_fold_lookup, lookup_empty. split.
    + destruct (entries !! layer) as [[|names]|] eqn:Hentry; [done| |done].
      destruct (png_traits names) as [|t ts] eqn:Htraits; [done|].
      destruct (decide _); [|done]. intros [= <-].
      exists entries, names. rewrite <- png_traits_spec, Htraits. done.
    + intros (? & names & [= <-] & Hentry & -> & Hne).
      rewrite Hentry, <- png_traits_spec.
      destruct (png_traits names) as [|t ts] eqn:Htraits;
        [by rewrite png_traits_spec in Htraits|].
      rewrite decide_True; [done|].
      apply sorted_names_spec, elem_of_dom. by rewrite Hentry.
  - rewrite lookup_empty. split; [done|]. by intros (? & ? & ? & _).
Qed.

(** X18. The trait names of the catalog.  No trait of the catalog is the
    empty string, and every trait comes from a name that the layer's
    directory lists: the name is the trait followed by an extension that
    is [.png] in some case, or, when only dots precede that extension (a
    name such as [.png]), the trait is the whole name. *)
Theorem collected_trait_names (layers_dir : option (gmap string Entry))
    (layer : string) (traits : list string) (t : string) :
  _collect_traits layers_dir !! layer = Some traits → t ∈ traits →
  t ≠ ""
  ∧ ∃ entries names f,
      layers_dir = Some entries ∧ entries !! layer = Some (SubDir names)
      ∧ f ∈ names
      ∧ (f = t ∨ ∃ ext, f = t +:+ ext ∧ lower ext = ".png").
Proof.
  intros Hcat Ht.
  assert (∃ entries names,
            layers_dir = Some entries ∧ entries !! layer = Some (SubDir names)
            ∧ traits = png_traits names) as (entries & names & -> & Hentry & ->).
  { destruct layers_dir as [entries|]; simpl in Hcat;
      [|by rewrite lookup_empty in Hcat].
    rewrite collect_fold_lookup, lookup_empty in Hcat.
    destruct (entries !! layer) as [[|names]|] eqn:Hentry; [done| |done].
    destruct (png_traits names) as [|t' ts] eqn:Htraits; [done|].
    destruct (decide _); [|done]. injection Hcat as <-.
    by exists entries, names. }
  rewrite png_traits_spec in Ht.
  apply list_elem_of_fmap in Ht as (f & -> & Hf).
  apply list_elem_of_filter in Hf as [Hpng Hf].
  apply sorted_names_spec in Hf.
  destruct (splitext_png f Hpng) as (p & ext & -> & Hext & ->).
  split.
  - destruct (only_dots p) eqn:Hdots.
    + destruct p; [by destruct ext|done].
    + by destruct p.
  - exists entries, names, (p +:+ ext). repeat (split; [done|]).
    destruct (only_dots p); [by left|right; by exists ext].
Qed.

Lemma collected_trait_names_witness :
  "Red" ≠ ""
  ∧ ∃ entries names f,
      Some studio_layers = Some entries
      ∧ entries !! "Hat" = Some (SubDir names)
      ∧ f ∈ names
      ∧ (f = "Red" ∨ ∃ ext, f = "Red" +:+ ext ∧ lower ext = ".png").
Proof.
  apply (collected_trait_names (Some studio_layers) "Hat" [".png"; "Red"]).
  - by vm_compute.
  - right. left.
Defined.

Example collect_traits_studio :
  _collect_traits (Some studio_layers)
  = {[ "Eyes" := ["Open"]; "Hat" := [".png"; "Red"] ]}.
Proof. by vm_compute. Qed.

Lemma collect_traits_no_empty_name (layers_dir : option (gmap string Entry))
    (layer : string) (traits : list string) :
  _collect_traits layers_dir !! layer = Some traits → "" ∉ traits.
Proof.
  intros Hcat Ht.
  destruct layers_dir as [entries|]; simpl in Hcat;
    [|by rewrite lookup_empty in Hcat].
  rewrite collect_fold_lookup, lookup_empty in Hcat.
  destruct (entries !! layer) as [[|names]|] eqn:Hentry; [done| |done].
  destruct (png_traits names) as [|t' ts] eqn:Htraits; [done|].
  destruct (decide _); [|done]. injection Hcat as <-.
  rewrite <- Htraits, png_traits_spec in Ht.
  apply list_elem_of_fmap in Ht as (f & Heq & Hf).
  apply list_elem_of_filter in Hf as [Hpng _].
  destruct (splitext_png f Hpng) as (p & ext & -> & Hext & Hroot).
  rewrite Hroot in Heq.
  destruct (only_dots p) eqn:Hdots.
  - destruct p; [by destruct ext|done].
  - by destruct p.
Qed.

(** X19. With the catalog of [_collect_traits], every layer rarity at
    100 and no exclusion pairs, every image that a run writes has a trait
    for every layer of the final layer order: the catalog holds no layer
    without traits, so the walk passes over no layer.  When the inclusion
    pairs that target the layer name traits of its catalog and no image of
    the layer is named [__none__.png], that trait is a catalog trait of
    the layer, neither empty nor the sentinel, and it is in the attribute
    list of the image. *)
Theorem collected_layers_in_every_image
    (layers_dir : option (gmap string Entry))
    (world : World) (config : Config) (edition_size : nat)
    (im : nat * gmap string string) (L : string) :
  all_traits world = _collect_traits layers_dir →
  (∀ l p, layer_rarities (rules world config) !! l = Some p → p = 100%Z) →
  exclude_pairs (rules world config) = [] →
  (∀ a t, (a, make_key L t) ∈ include_pairs (rules world config) →
          t ∈ default [] (all_traits world !! L)) →
  "__none__" ∉ default [] (all_traits world !! L) →
  im ∈ images (flow_state (run world config edition_size)) →
  L ∈ final_layer_order world config →
  ∃ t, im.2 !! L = Some t
       ∧ t ∈ default [] (all_traits world !! L)
       ∧ t ≠ "" ∧ t ≠ "__none__"
       ∧ (L, t) ∈ attributes_of (final_layer_order world config) im.2.
Proof.
  intros Hcat H100 Hnone Htargets Hsentinel Him HL. revert im Him.
  set (P := λ (_ : nat) (st : RunState),
         ∀ im, im ∈ images st →
           ∃ t, im.2 !! L = Some t
                ∧ t ∈ default [] (all_traits world !! L)
                ∧ t ≠ "" ∧ t ≠ "__none__"
                ∧ (L, t) ∈ attributes_of (final_layer_order world config)
                             im.2).
  assert (Hstep : ∀ n st, P n st →
            P (S n) (flow_state (run_edition world config edition_size n st))).
  { intros n st Hold im.
    destruct (edition_after_try world config edition_size n st)
      as (_ & -> & _).
    pose proof (try_body_image world config edition_size n st) as Himage.
    destruct (try_body_writes world config edition_size n st)
      as [(_ & -> & _)
         |(_ & _ & [(-> & _)|(Eimages & _)])];
      try apply Hold.
    destruct (Himage _ Eimages) as [Hdone _]. rewrite Eimages.
    intros [Him|Him]%elem_of_app; [by apply Hold|].
    apply list_elem_of_singleton in Him. subst im. simpl.
    pose proof HL as HL'. unfold final_layer_order in HL'.
    apply list_elem_of_filter in HL' as [[[options Hoptions] _] _].
    assert (options ≠ []) as Hne.
    { rewrite Hcat in Hoptions. by eapply collect_traits_nonempty. }
    destruct (select_layers_present (draws world) (all_traits world)
                (rules world config) H100 Hnone
                (final_layer_order world config)
                (fresh_edition (rng_pos st)) L options)
      as [t Ht]; [apply fresh_edition_inv|done..|].
    change (selected (edition_selection world config st) !! L = Some t)
      in Ht.
    assert (t ∈ default [] (all_traits world !! L)) as Hin.
    { pose proof Ht as Horigin.
      apply select_edition_origin in Horigin as [_ [Hin|[a Ha]]]; [done|].
      by apply (Htargets a). }
    assert (t ≠ "" ∧ t ≠ "__none__") as Hconcrete.
    { split; intros ->; [|done].
      rewrite Hoptions in Hin. rewrite Hcat in Hoptions.
      by apply (collect_traits_no_empty_name _ _ _ Hoptions). }
    exists t. split; [done|]. split; [done|].
    split; [apply Hconcrete|]. split; [apply Hconcrete|].
    apply attributes_of_elem. split; [done|]. split; [done|].
    by apply concrete_true. }
  assert (Hinit : P 1 (initial_state world config)).
  { intros im Him. by apply elem_of_nil in Him. }
  exact (run_editions_invariant world config edition_size P Hstep
           (λ _ _ H, H) edition_size 1 _ Hinit).
Qed.

Lemma collected_layers_in_every_image_witness :
  let im := (1, ({[ "Eyes" := "Open"; "Hat" := ".png" ]}
                 : gmap string string)) in
  ∃ t, im.2 !! "Hat" = Some t
       ∧ t ∈ default [] (all_traits studio_world !! "Hat")
       ∧ t ≠ "" ∧ t ≠ "__none__"
       ∧ ("Hat", t)
         ∈ attributes_of (final_layer_order studio_world plain_config) im.2.
Proof.
  intros im.
  apply (collected_layers_in_every_image (Some studio_layers) studio_world
           plain_config 1).
  - reflexivity.
  - intros l p Hl. by vm_compute in Hl.
  - reflexivity.
  - intros a t Hin. by apply elem_of_nil in Hin.
  - apply (bool_decide_unpack _). by vm_compute.
  - vm_compute. left.
  - vm_compute. right. left.
Defined.

(** Without those two conditions a written image can hold the sentinel for
    a layer: the trait of an image named [__none__.png], or the target of
    an inclusion pair, is recorded as it is, and neither composited nor
    listed in the attributes. *)
Example sentinel_in_written_image :
  let world := {| draws := λ _, 0%N; saved_file := FileMissing;
                  all_traits :=
                    _collect_traits
                      (Some {[ "N" := SubDir {[ "__none__.png" ]} ]});
                  setup := SetupCompletes; faults := λ _, NoFault;
                  progress_callback := None |} in
  let st := flow_state (run world plain_config 1) in
  all_traits world = {[ "N" := ["__none__"] ]}
  ∧ (images st).*2 = [{[ "N" := "__none__" ]}]
  ∧ md_attributes <$> metadata st = [[]].
Proof. by vm_compute. Qed.

(** ** The Config tab *)

Lemma saved_layer_order_default (entries : gmap string Entry) :
  saved_layer_order entries []
  = filter (λ layer, is_subdir entries layer = true)
      (sorted_names (dom entries)).
Proof.
  unfold saved_layer_order.
  assert (∀ l acc,
            fold_left (λ order layer,
                match entries !! layer with
                | Some (SubDir _) => order ++ [layer]
                | _ => order
                end) l acc
            = acc ++ filter (λ layer, is_subdir entries layer = true) l)
    as Hfold.
  { induction l as [|layer l IH]; intros acc; simpl.
    - by rewrite app_nil_r.
    - rewrite IH, filter_cons.
      destruct (decide (is_subdir entries layer = true)) as [Hd|Hd];
        unfold is_subdir in Hd;
        destruct (entries !! layer) as [[|names]|]; try done.
      by rewrite <- app_assoc. }
  by rewrite Hfold.
Qed.

(** X20. The default order of the editor and the default order of the
    engine agree.  [cfg_save_config] stores all the directories of
    [layers_dir] when the editor's list is empty, [run_generation] takes
    the sorted layers of the catalog when [layer_order] is empty; over the
    same directory both give the same final layer order, although the
    stored list also names the directories without images. *)
Theorem saved_default_order_agrees (entries : gmap string Entry)
    (world : World) (config : Config) :
  all_traits world = _collect_traits (Some entries) →
  final_layer_order world
    (with_layer_order (saved_layer_order entries []) config)
  = final_layer_order world (with_layer_order [] config).
Proof.
  intros Hcat. unfold final_layer_order.
  pose proof (saved_layer_order_default entries) as Hsaved.
  destruct (saved_layer_order entries []) as [|d ds]; [done|].
  simpl. rewrite Hsaved. clear d ds Hsaved.
  destruct (sorted_layers_spec (all_traits world))
    as (Hsorted & Hnodup & Hmem).
  apply (StronglySorted_unique String.le).
  - apply StronglySorted_filter, StronglySorted_filter.
    apply sorted_names_spec.
  - by apply StronglySorted_filter.
  - apply NoDup_Permutation.
    + apply NoDup_filter, NoDup_filter, sorted_names_spec.
    + by apply NoDup_filter.
    + intros L. rewrite !list_elem_of_filter, Hmem.
      split; [tauto|]. intros [[Hsome Hexcl] _].
      split; [by split|].
      pose proof Hsome as Hdir. rewrite Hcat in Hdir.
      apply collect_traits_subdir in Hdir as [names Hentry].
      split.
      * unfold is_subdir. by rewrite Hentry.
      * apply sorted_names_spec, elem_of_dom. by rewrite Hentry.
Qed.

Lemma saved_default_order_agrees_witness :
  final_layer_order studio_world
    (with_layer_order (saved_layer_order studio_layers []) plain_config)
  = final_layer_order studio_world (with_layer_order [] plain_config).
Proof.
  apply (saved_default_order_agrees studio_layers studio_world plain_config).
  reflexivity.
Defined.

Example saved_layer_order_studio :
  saved_layer_order studio_layers [] = ["Drafts"; "Eyes"; "Hat"]
  ∧ final_layer_order studio_world
      (with_layer_order (saved_layer_order studio_layers []) plain_config)
    = ["Eyes"; "Hat"].
Proof. by vm_compute. Qed.

Lemma add_absent_spec (selected_items existing : list string) :
  let result :=
    fold_left (λ existing text,
        if bool_decide (text ∈ existing) then existing else existing ++ [text])
      selected_items existing in
  existing `prefix_of` result
  ∧ (NoDup existing → NoDup result)
  ∧ ∀ x, x ∈ result ↔ x ∈ existing ∨ x ∈ selected_items.
Proof.
  revert existing.
  induction selected_items as [|text items IH]; intros existing; simpl.
  - split; [done|]. split; [done|]. intros x. rewrite elem_of_nil. tauto.
  - destruct (IH (if bool_decide (text ∈ existing) then existing
                  else existing ++ [text])) as (Hpre & Hnodup & Hmem).
    case_bool_decide as Hin.
    + split; [done|]. split; [done|]. intros x. rewrite Hmem, elem_of_cons.
      split; [tauto|]. intros [?|[->|?]]; auto.
    + split; [|split].
      * etrans; [|exact Hpre]. by apply prefix_app_r.
      * intros Hold. apply Hnodup. apply NoDup_app. split; [done|].
        split; [|apply NoDup_singleton].
        intros x Hx ->%list_elem_of_singleton. done.
      * intros x. rewrite Hmem, elem_of_app, list_elem_of_singleton,
          elem_of_cons. tauto.
Qed.

(** X21. Adding layers in the editor.  [cfg_add_layers_to_order] and
    [cfg_exclude_layers] keep the list they extend as a prefix, add
    nothing but the selected texts and all of those, and never make a
    list without repetitions repeat a layer, also when the selection
    itself repeats a text. *)
Theorem cfg_add_layers_spec (selected_items existing : list string) :
  let added := cfg_add_layers_to_order selected_items existing in
  let excluded := cfg_exclude_layers selected_items existing in
  (existing `prefix_of` added
   ∧ (NoDup existing → NoDup added)
   ∧ ∀ x, x ∈ added ↔ x ∈ existing ∨ x ∈ selected_items)
  ∧ (existing `prefix_of` excluded
     ∧ (NoDup existing → NoDup excluded)
     ∧ ∀ x, x ∈ excluded ↔ x ∈ existing ∨ x ∈ selected_items).
Proof.
  split; apply add_absent_spec.
Qed.

Lemma move_item_Permutation (r to : nat) (items : list string) :
  move_item r to items ≡ₚ items.
Proof.
  unfold move_item. destruct (items !! r) as [it|] eqn:Hr; [|done].
  rewrite <- Permutation_middle, take_drop.
  symmetry. by apply delete_Permutation.
Qed.

Lemma cfg_move_layer_Permutation (rows : list nat)
    (layer_order : list string) :
  cfg_move_layer_up rows layer_order ≡ₚ layer_order
  ∧ cfg_move_layer_down rows layer_order ≡ₚ layer_order.
Proof.
  unfold cfg_move_layer_up, cfg_move_layer_down. split.
  - generalize (merge_sort le rows) as rs. intros rs. revert layer_order.
    induction rs as [|r rs IH]; intros items; simpl; [done|].
    rewrite IH. destruct (r <=? 0)%nat; [done|apply move_item_Permutation].
  - generalize (reverse (merge_sort le rows)) as rs. intros rs.
    revert layer_order.
    induction rs as [|r rs IH]; intros items; simpl; [done|].
    rewrite IH. destruct (_ <=? r)%nat; [done|apply move_item_Permutation].
Qed.

Lemma move_item_up (before after : list string) (x y : string) :
  move_item (S (length before)) (length before) (before ++ x :: y :: after)
  = before ++ y :: x :: after.
Proof.
  unfold move_item.
  replace (before ++ x :: y :: after) with ((before ++ [x]) ++ y :: after)
    by (by rewrite <- app_assoc).
  replace (S (length before)) with (length (before ++ [x]))
    by (rewrite length_app; simpl; lia).
  rewrite list_lookup_middle by done. cbv zeta.
  rewrite delete_middle, <- !app_assoc.
  by rewrite take_app_length, drop_app_length.
Qed.

Lemma move_item_down (before after : list string) (x y : string) :
  move_item (length before) (S (length before)) (before ++ x :: y :: after)
  = before ++ y :: x :: after.
Proof.
  unfold move_item.
  rewrite list_lookup_middle by done. cbv zeta.
  rewrite delete_middle.
  replace (before ++ y :: after) with ((before ++ [y]) ++ after)
    by (by rewrite <- app_assoc).
  replace (S (length before)) with (length (before ++ [y]))
    by (rewrite length_app; simpl; lia).
  rewrite take_app_length, drop_app_length. by rewrite <- app_assoc.
Qed.

(** X22. Moving layers in the editor.  [cfg_move_layer_up] and
    [cfg_move_layer_down] only permute the list, for every selection of
    rows: no layer is lost or repeated.  With one row selected the layer
    changes places with its neighbour, moving it up and then down again
    restores the list, and the first row moved up or the last row moved
    down leaves the list as it is. *)
Theorem cfg_move_layer_spec (rows : list nat) (before after : list string)
    (x y : string) :
  let items := before ++ x :: y :: after in
  let swapped := before ++ y :: x :: after in
  let r := length before in
  cfg_move_layer_up rows items ≡ₚ items
  ∧ cfg_move_layer_down rows items ≡ₚ items
  ∧ cfg_move_layer_up [S r] items = swapped
  ∧ cfg_move_layer_down [r] items = swapped
  ∧ cfg_move_layer_down [r] (cfg_move_layer_up [S r] items) = items
  ∧ cfg_move_layer_up [0] items = items
  ∧ cfg_move_layer_down [length items - 1] items = items.
Proof.
  intros items swapped r.
  assert (Hup : ∀ b a u v,
            cfg_move_layer_up [S (length b)] (b ++ u :: v :: a)
            = b ++ v :: u :: a).
  { intros b a u v. unfold cfg_move_layer_up. simpl.
    rewrite Nat.sub_0_r. apply move_item_up. }
  assert (Hdown : ∀ b a u v,
            cfg_move_layer_down [length b] (b ++ u :: v :: a)
            = b ++ v :: u :: a).
  { intros b a u v. unfold cfg_move_layer_down. simpl.
    rewrite length_app. simpl.
    replace (length b + S (S (length a)) - 1 <=? length b)%nat with false
      by (symmetry; apply Nat.leb_gt; lia).
    rewrite Nat.add_1_r. apply move_item_down. }
  split; [apply cfg_move_layer_Permutation|].
  split; [apply cfg_move_layer_Permutation|].
  split; [apply Hup|]. split; [apply Hdown|].
  split; [subst items r; by rewrite Hup, Hdown|].
  split; [done|].
  unfold cfg_move_layer_down. simpl. by rewrite Nat.leb_refl.
Qed.
